(** * Signal/slot resolution of the code browser generator

    A shallow embedding of [generator/qtsupport.cpp]: the candidate lookup
    ([lookUpCandidates]), the resolution of a SIGNAL/SLOT signature string
    ([QtSupport::handleSignalOrSlot]) and the resolution of an
    invokeMethod name ([QtSupport::handleInvokeMethod]), with the
    properties of the specification stated and settled on that embedding.

    Layout: the string views of LLVM, the declarations the compiler front
    end provides, the three functions of the source, the notions the
    specification words, example class hierarchies, and then the theorems. *)

From Stdlib Require Import List Ascii String ZArith Lia Bool Arith.
Import ListNotations.
Local Open Scope nat_scope.
Set Warnings "-register-all".

(* ================================================================== *)
(** ** llvm::StringRef

    A [StringRef] is a pointer and a length: a window into bytes owned by
    somebody else.  [trim], [substr] and [slice] return windows into the
    same bytes, and the source builds one window by hand from an iterator
    ([llvm::StringRef(sigIt, 9)]), so the bytes behind a window are part of
    the model: [Buffer] is the storage pointed into, [Data] the offset of
    the first byte, [Length] the number of bytes. *)

Record StringRef : Type := mkStringRef {
  Buffer : list ascii;
  Data : nat;
  Length : nat
}.

(** The bytes seen through the window. *)
Definition chars (s : StringRef) : list ascii :=
  firstn (Length s) (skipn (Data s) (Buffer s)).

(** A window over a whole string ([StringRef(const std::string &)],
    [StringLiteral::getString]). *)
Definition ofChars (l : list ascii) : StringRef := mkStringRef l 0 (List.length l).
Definition ofString (s : string) : StringRef := ofChars (list_ascii_of_string s).

(** The window stays inside its storage. *)
Definition wellFormed (s : StringRef) : Prop :=
  Data s + Length s <= List.length (Buffer s).

Definition size (s : StringRef) : nat := Length s.
Definition empty (s : StringRef) : bool := Length s =? 0.

(** [operator[]]; the source only indexes below [size]. *)
Definition charAt (s : StringRef) (i : nat) : ascii :=
  nth (Data s + i) (Buffer s) zero.

Fixpoint eqChars (a b : list ascii) : bool :=
  match a, b with
  | [], [] => true
  | x :: a', y :: b' => Ascii.eqb x y && eqChars a' b'
  | _, _ => false
  end.

(** [operator==] between a window and a string. *)
Definition equals (s : StringRef) (t : string) : bool :=
  eqChars (chars s) (list_ascii_of_string t).

(** [find(char)]: [None] stands for [npos]. *)
Fixpoint findChar (c : ascii) (l : list ascii) : option nat :=
  match l with
  | [] => None
  | x :: l' => if Ascii.eqb x c then Some 0 else option_map S (findChar c l')
  end.

Definition find (s : StringRef) (c : ascii) : option nat := findChar c (chars s).

(** Comparison of two positions where [None] is [npos], the largest
    [size_t]. *)
Definition posLt (a b : option nat) : bool :=
  match a, b with
  | Some x, Some y => x <? y
  | Some _, None => true
  | None, _ => false
  end.

(** [substr(Start, N)]: [Start] is clamped to the length, [N] to what is
    left; [None] for the count is the default [npos]. *)
Definition substr (s : StringRef) (start : nat) (n : option nat) : StringRef :=
  let start' := Nat.min start (Length s) in
  let n' := match n with
            | Some k => Nat.min k (Length s - start')
            | None => Length s - start'
            end in
  mkStringRef (Buffer s) (Data s + start') n'.

(** [slice(Start, End)]: the bytes in [[Start, End)], both clamped. *)
Definition slice (s : StringRef) (start : nat) (stop : option nat) : StringRef :=
  let start' := Nat.min start (Length s) in
  let stop' := match stop with
               | Some e => Nat.min (Nat.max start' e) (Length s)
               | None => Length s
               end in
  mkStringRef (Buffer s) (Data s + start') (stop' - start').

(** The characters [trim] removes by default: [" \t\n\v\f\r"]. *)
Definition isTrimChar (c : ascii) : bool :=
  let n := nat_of_ascii c in
  (n =? 32) || (n =? 9) || (n =? 10) || (n =? 11) || (n =? 12) || (n =? 13).

(** Number of leading elements satisfying [p]. *)
Fixpoint countWhile (p : ascii -> bool) (l : list ascii) : nat :=
  match l with
  | x :: l' => if p x then S (countWhile p l') else 0
  | [] => 0
  end.

Definition ltrim (s : StringRef) : StringRef :=
  let n := countWhile isTrimChar (chars s) in
  mkStringRef (Buffer s) (Data s + n) (Length s - n).

Definition rtrim (s : StringRef) : StringRef :=
  let n := countWhile isTrimChar (rev (chars s)) in
  mkStringRef (Buffer s) (Data s) (Length s - n).

Definition trim (s : StringRef) : StringRef := rtrim (ltrim s).

Fixpoint isPrefix (p l : list ascii) : bool :=
  match p, l with
  | [], _ => true
  | x :: p', y :: l' => Ascii.eqb x y && isPrefix p' l'
  | _ :: _, [] => false
  end.

(** [starts_with]: the length test, then a comparison of the first bytes
    behind [Data].  For a window built by hand the bytes are read from the
    storage wherever the window was said to end; bytes that the storage
    does not have match nothing. *)
Definition starts_with (s : StringRef) (prefix : string) : bool :=
  (String.length prefix <=? Length s)
  && isPrefix (list_ascii_of_string prefix) (skipn (Data s) (Buffer s)).

Definition ends_with (s : StringRef) (suffix : string) : bool :=
  (String.length suffix <=? Length s)
  && isPrefix (rev (list_ascii_of_string suffix)) (rev (chars s)).

(* ================================================================== *)
(** ** The declarations of the translation unit

    The compiler front end owns classes, methods and types; the source
    only queries them.  Classes are named by an identifier and looked up
    in the table of declarations, so that a return type can point back to
    a class that is being walked. *)

Definition ClassId : Type := string.

(** [clang::QualType], as far as the source asks: whether it is null, a
    reference, const at the top, a class or a pointer to one, and its
    printed text. *)
Inductive QualType : Type :=
| NullType
| Named (spelling : string) (isConst : bool) (decl : option ClassId)
| Pointer (pointee : QualType) (isConst : bool)
| Reference (referent : QualType).

Definition isNull (t : QualType) : bool :=
  match t with NullType => true | _ => false end.

Definition isReferenceType (t : QualType) : bool :=
  match t with Reference _ => true | _ => false end.

Definition getNonReferenceType (t : QualType) : QualType :=
  match t with Reference r => r | _ => t end.

Definition isConstQualified (t : QualType) : bool :=
  match t with
  | Named _ c _ => c
  | Pointer _ c => c
  | _ => false
  end.

Definition removeLocalConst (t : QualType) : QualType :=
  match t with
  | Named n _ d => Named n false d
  | Pointer p _ => Pointer p false
  | _ => t
  end.

Definition getAsCXXRecordDecl (t : QualType) : option ClassId :=
  match t with Named _ _ d => d | _ => None end.

Definition getPointeeCXXRecordDecl (t : QualType) : option ClassId :=
  match t with
  | Pointer p _ => getAsCXXRecordDecl p
  | Reference r => getAsCXXRecordDecl r
  | _ => None
  end.

(** [getAsString(policy)] with [SuppressScope]: the spelling carries no
    scope, [const] comes first, [*] and [&] follow after one space unless
    they follow another [*] or [&]. *)
Fixpoint getAsString (t : QualType) : string :=
  match t with
  | NullType => "NULL TYPE"
  | Named n c _ => ((if c then "const " else "") ++ n)%string
  | Pointer p c =>
      (getAsString p
       ++ (match p with Pointer _ false | Reference _ => "" | _ => " " end)
       ++ "*" ++ (if c then "const" else ""))%string
  | Reference r =>
      (getAsString r
       ++ (match r with Pointer _ false | Reference _ => "" | _ => " " end)
       ++ "&")%string
  end.

Record CXXMethodDecl : Type := mkMethod {
  parent : ClassId;
  identifier : option string;   (* [getIdentifier()]: none for operators, constructors, destructors *)
  params : list QualType;
  minRequiredArguments : nat;
  resultType : QualType
}.

Definition getNumParams (m : CXXMethodDecl) : nat := List.length (params m).

(** [getParamDecl(i)->getType()]; the source calls it below [getNumParams]. *)
Definition getParamType (m : CXXMethodDecl) (i : nat) : QualType :=
  nth i (params m) NullType.

(** Modelled from the spec: [getResultType] is a helper of the repository
    that is not among the sources; the specification speaks of "that
    accessor's return type", so it is the declared return type. *)
Definition getResultType (m : CXXMethodDecl) : QualType := resultType m.

Record CXXRecordDecl : Type := mkRecord {
  hasDefinition : bool;             (* [getDefinition()] is not null *)
  methods : list CXXMethodDecl;     (* [method_begin()] to [method_end()] *)
  bases : list QualType             (* the types of the base specifiers, in order *)
}.

Definition Declarations : Type := ClassId -> CXXRecordDecl.

(** Expressions of a call site, as far as the two handlers look. *)
Inductive Expr : Type :=
| StringLiteral (charByteWidth : nat) (bytes : string) (numConcatenated : nat)
| CallExpr (type : QualType) (directCallee : option string) (args : list Expr)
| ImplicitCastExpr (sub : Expr)
| OtherExpr (type : QualType).

Fixpoint IgnoreImpCasts (e : Expr) : Expr :=
  match e with
  | ImplicitCastExpr sub => IgnoreImpCasts sub
  | _ => e
  end.

(** [getType().getTypePtrOrNull()]. *)
Fixpoint getType (e : Expr) : QualType :=
  match e with
  | StringLiteral _ _ _ => Named "const char[]" false None
  | CallExpr t _ _ => t
  | ImplicitCastExpr sub => getType sub
  | OtherExpr t => t
  end.

(** Modelled from the spec: [Annotator::registerUse] is not among the
    sources; the specification has it record that the declaration is
    referenced at the range, with no result read back.  So what a handler
    does to the annotator is nothing, or one [registerUse] of a
    declaration; the range is the literal's own or the one taken from the
    macro expansion. *)
Inductive SourceRange : Type := LiteralRange | MacroArgumentRange.

Inductive Annotation : Type :=
| NoUse
| RegisterUse (used : CXXMethodDecl) (range : SourceRange).

(* ================================================================== *)
(** ** lookUpCandidates *)

(** The [for] loop over the methods of one class: it appends to
    [candidates] and keeps the first [d_func] seen. *)
Fixpoint scanMethods (ms : list CXXMethodDecl) (methodName : StringRef)
    (candidates : list CXXMethodDecl) (d_func : option CXXMethodDecl)
  : list CXXMethodDecl * option CXXMethodDecl :=
  match ms with
  | [] => (candidates, d_func)
  | mi :: rest =>
      match identifier mi with
      | None => scanMethods rest methodName candidates d_func
      | Some name =>
          let candidates' :=
            if equals methodName name then candidates ++ [mi] else candidates in
          let d_func' :=
            match d_func with
            | Some _ => d_func
            | None =>
                if String.eqb name "d_func" && negb (isNull (getResultType mi))
                then Some mi else None
            end in
          scanMethods rest methodName candidates' d_func'
      end
  end.

(** The first base of a class, as a class. *)
Definition firstBase (cls : CXXRecordDecl) : option ClassId :=
  match bases cls with
  | [] => None
  | b :: _ => getAsCXXRecordDecl b
  end.

(** The [while (classIt)] loop.  The source gives no bound on it, so the
    model counts iterations: [None] when [fuel] iterations did not end
    the walk.  Beside the candidates it returns how many times the walk
    was redirected through a [d_func] (a counter the source does not
    keep). *)
Fixpoint lookUpLoop (fuel : nat) (decls : Declarations) (methodName : StringRef)
    (classIt : option ClassId) (d_func : option CXXMethodDecl)
    (candidates : list CXXMethodDecl) (redirections : nat)
  : option (list CXXMethodDecl * nat) :=
  match fuel with
  | 0 => None
  | S fuel' =>
      match classIt with
      | None => Some (candidates, redirections)
      | Some c =>
          if negb (hasDefinition (decls c)) then Some (candidates, redirections)
          else
            let '(candidates', d_func') :=
              scanMethods (methods (decls c)) methodName candidates d_func in
            let next := firstBase (decls c) in
            match d_func', next, candidates' with
            | Some d, None, [] =>
                lookUpLoop fuel' decls methodName
                  (getPointeeCXXRecordDecl (getResultType d)) None candidates'
                  (S redirections)
            | _, _, _ =>
                lookUpLoop fuel' decls methodName next d_func' candidates' redirections
            end
      end
  end.

Definition lookUpCandidates (fuel : nat) (decls : Declarations)
    (objClass : option ClassId) (methodName : StringRef)
  : option (list CXXMethodDecl) :=
  option_map fst (lookUpLoop fuel decls methodName objClass None [] 0).

(* ================================================================== *)
(** ** handleSignalOrSlot: the scan for the end of an argument *)

Definition isChar (c : ascii) (x : ascii) : bool := Ascii.eqb x c.

(** The [switch] inside a template argument list: the two counters after
    one character. *)
Definition nestStep (c : ascii) (depth templDepth : Z) : Z * Z :=
  if isChar "(" c || isChar "[" c || isChar "{" c then (depth + 1, templDepth)%Z
  else if isChar ")" c || isChar "]" c || isChar "}" c then (depth - 1, templDepth)%Z
  else if isChar ">" c then
    (depth, if (depth =? 0)%Z then templDepth - 1 else templDepth)%Z
  else if isChar "<" c then
    (depth, if (depth =? 0)%Z then templDepth + 1 else templDepth)%Z
  else (depth, templDepth).

(** The loop entered after a [<]: it runs while both counters are not
    negative and returns the position it stops at.  Every iteration
    advances [searchPos], so [size signature - searchPos] iterations are
    enough ([skipTemplate_fuel]). *)
Fixpoint skipTemplate (fuel : nat) (signature : StringRef) (searchPos : nat)
    (depth templDepth : Z) : nat :=
  match fuel with
  | 0 => searchPos
  | S fuel' =>
      if (searchPos <? size signature) && (0 <=? depth)%Z && (0 <=? templDepth)%Z then
        let '(depth', templDepth') :=
          nestStep (charAt signature searchPos) depth templDepth in
        skipTemplate fuel' signature (S searchPos) depth' templDepth'
      else searchPos
  end.

(** The loop that looks for the next comma or closing parenthesis. *)
Fixpoint findTerminator (fuel : nat) (signature : StringRef) (searchPos : nat) : nat :=
  match fuel with
  | 0 => searchPos
  | S fuel' =>
      if (searchPos <? size signature)
         && negb (isChar "," (charAt signature searchPos))
         && negb (isChar ")" (charAt signature searchPos))
      then
        if isChar "<" (charAt signature searchPos) then
          findTerminator fuel' signature
            (skipTemplate (size signature - S searchPos) signature (S searchPos) 0 0)
        else findTerminator fuel' signature (S searchPos)
      else searchPos
  end.

(** The argument between [argPos] and [searchPos]: trimmed, and without
    the [const ] and [&] around it when it has both. *)
Definition extractArgument (signature : StringRef) (argPos searchPos : nat) : StringRef :=
  let argument := trim (substr signature argPos (Some (searchPos - argPos))) in
  if starts_with argument "const " && ends_with argument "&"
  then trim (slice argument 6 (Some (size argument - 1)))
  else argument.

(* ================================================================== *)
(** ** handleSignalOrSlot: the comparison of an argument with a parameter *)

(** The parameter type the text is printed from: without the reference
    when it refers to a const, and without a const of its own. *)
Definition comparedType (type : QualType) : QualType :=
  let type :=
    if isReferenceType type && isConstQualified (getNonReferenceType type)
    then getNonReferenceType type else type in
  removeLocalConst type.

(** The comparison loop.  [sigIt] and [parIt] are positions in the storage
    of the argument and of the printed type; the test for [nsigned ] reads
    the storage behind the iterator, and a skip of eight may carry an
    iterator past its end, after which it never equals the end again.  A
    read outside the storage stops the loop: no text lies there to compare. *)
Fixpoint compareLoop (fuel : nat)
    (sigBuffer : list ascii) (sigIt sigEnd : nat)
    (parBuffer : list ascii) (parIt parEnd : nat) : nat * nat :=
  match fuel with
  | 0 => (sigIt, parIt)
  | S fuel' =>
      if negb (sigIt =? sigEnd) && negb (parIt =? parEnd) then
        match nth_error sigBuffer sigIt, nth_error parBuffer parIt with
        | Some s, Some p =>
            if Ascii.eqb s p then
              compareLoop fuel' sigBuffer (S sigIt) sigEnd parBuffer (S parIt) parEnd
            else if isChar " " s then
              compareLoop fuel' sigBuffer (S sigIt) sigEnd parBuffer parIt parEnd
            else if isChar " " p then
              compareLoop fuel' sigBuffer sigIt sigEnd parBuffer (S parIt) parEnd
            else if isChar "n" s
                    && starts_with (mkStringRef sigBuffer sigIt 9) "nsigned " then
              compareLoop fuel' sigBuffer (sigIt + 8) sigEnd parBuffer parIt parEnd
            else if isChar "n" p
                    && starts_with (mkStringRef parBuffer parIt 9) "nsigned " then
              compareLoop fuel' sigBuffer sigIt sigEnd parBuffer (parIt + 8) parEnd
            else (sigIt, parIt)
        | _, _ => (sigIt, parIt)
        end
      else (sigIt, parIt)
  end.

(** Whether [argument] and the text [typeString] match: both iterators
    are at their ends when the loop stops. *)
Definition sameTypeText (argument typeString : StringRef) : bool :=
  let sigEnd := Data argument + Length argument in
  let parEnd := Data typeString + Length typeString in
  let '(sigIt, parIt) :=
    compareLoop (List.length (Buffer argument) + List.length (Buffer typeString))
      (Buffer argument) (Data argument) sigEnd
      (Buffer typeString) (Data typeString) parEnd in
  (sigIt =? sigEnd) && (parIt =? parEnd).

Definition matchesParam (argument : StringRef) (type : QualType) : bool :=
  sameTypeText argument (trim (ofString (getAsString (comparedType type)))).

(** One pass over the candidates for argument number [arg]: a candidate
    is erased when it has too few parameters or its parameter does not
    match, and kept in place otherwise. *)
Fixpoint pruneCandidates (arg : nat) (argument : StringRef)
    (candidates : list CXXMethodDecl) : list CXXMethodDecl :=
  match candidates with
  | [] => []
  | it :: rest =>
      if getNumParams it <? arg + 1 then pruneCandidates arg argument rest
      else if matchesParam argument (getParamType it arg)
           then it :: pruneCandidates arg argument rest
           else pruneCandidates arg argument rest
  end.

(* ================================================================== *)
(** ** handleSignalOrSlot: the loop over the arguments *)

(** How the loop over the arguments is left. *)
Inductive LoopExit (C : Type) : Type :=
| Returned                                          (* the scan reached the end of the signature *)
| Done (argPos arg : nat) (candidates : list C).    (* the condition failed, or a [break] *)

Arguments Returned {C}.
Arguments Done {C} argPos arg candidates.

Section ArgumentLoop.

(** The loop is written once for any pruning pass; the source runs it
    with [pruneCandidates]. *)
Context {C : Type}.
Variable prune : nat -> StringRef -> list C -> list C.

(** Beside its exit the loop returns, for every argument it handed to
    the pruning pass, the argument and the candidates left after the
    pass. *)
Fixpoint argumentLoop (fuel : nat) (signature : StringRef) (argPos arg : nat)
    (candidates : list C) : list (StringRef * list C) * LoopExit C :=
  match fuel with
  | 0 => ([], Done argPos arg candidates)
  | S fuel' =>
      if (argPos <? size signature)
         && negb (match candidates with [] => true | _ => false end)
      then
        let searchPos := findTerminator (size signature - argPos) signature argPos in
        if searchPos =? size signature then ([], Returned)
        else
          let argument := extractArgument signature argPos searchPos in
          let argPos' := searchPos + 1 in
          if empty argument && isChar ")" (charAt signature searchPos) && (arg =? 0)
          then ([], Done argPos' arg candidates)
          else
            let candidates' := prune arg argument candidates in
            let arg' := arg + 1 in
            if isChar ")" (charAt signature searchPos)
            then ([(argument, candidates')], Done argPos' arg' candidates')
            else
              let '(passes, exit) :=
                argumentLoop fuel' signature argPos' arg' candidates' in
              ((argument, candidates') :: passes, exit)
      else ([], Done argPos arg candidates)
  end.

End ArgumentLoop.

(** The name of the sentinel parameter type of a private signal. *)
Definition QPrivateSignal : string := "QPrivateSignal".

(** The predicate of [remove_if]: the candidate needs more arguments than
    were given, and is not a private signal with its one extra parameter. *)
Definition needsMoreArguments (arg : nat) (it : CXXMethodDecl) : bool :=
  (arg <? minRequiredArguments it)
  && negb ((getNumParams it =? arg + 1)
           && String.eqb (getAsString (getParamType it arg)) QPrivateSignal).

Definition finalFilter (arg : nat) (candidates : list CXXMethodDecl) : list CXXMethodDecl :=
  filter (fun it => negb (needsMoreArguments arg it)) candidates.

(** The signature taken from the literal: trimmed, at least four
    characters, cut at a null character, with [(] at index two or later
    and a [)] not before it.  Returns the signature, the position of [(]
    and the method name. *)
Definition parseSignature (literal : StringRef) : option (StringRef * nat * StringRef) :=
  let signature := trim literal in
  if size signature <? 4 then None
  else
    let signature :=
      match find signature zero with
      | Some nul => trim (substr signature 0 (Some nul))
      | None => signature
      end in
    let lParenPos := find signature "(" in
    let rParenPos := find signature ")" in
    match lParenPos with
    | Some l =>
        if match rParenPos with None => true | Some _ => false end
           || posLt rParenPos lParenPos || posLt lParenPos (Some 2)
        then None
        else Some (signature, l, trim (slice signature 1 lParenPos))
    | None => None   (* no [)] at all, or a [)] before [npos] *)
    end.

(** What one resolution went through: the arguments handed to the pruning
    pass with the candidates each pass left, the candidates after the
    final filter when it was reached, and the effect on the annotator. *)
Record Resolution : Type := mkResolution {
  passes : list (StringRef * list CXXMethodDecl);
  filtered : option (list CXXMethodDecl);
  annotation : Annotation
}.

(** From the located candidates to the annotation: the loop over the
    arguments, the test that the whole signature was read, the final
    filter and the choice of the first candidate. *)
Definition narrowCandidates (signature : StringRef) (lParenPos : nat)
    (range : SourceRange) (candidates : list CXXMethodDecl) : Resolution :=
  let argPos := lParenPos + 1 in
  match argumentLoop pruneCandidates (S (size signature - argPos)) signature argPos 0 candidates with
  | (ps, Returned) => mkResolution ps None NoUse
  | (ps, Done argPos arg candidates) =>
      if negb (argPos =? size signature) then mkResolution ps None NoUse
      else
        let candidates := finalFilter arg candidates in
        match candidates with
        | [] => mkResolution ps (Some candidates) NoUse
        | used :: _ => mkResolution ps (Some candidates) (RegisterUse used range)
        end
  end.

(** The candidate sets of a resolution in the order they arise: the
    located candidates, the set after every pruning pass, the set after
    the final filter. *)
Definition candidateSets (located : list CXXMethodDecl) (r : Resolution)
  : list (list CXXMethodDecl) :=
  located :: map snd (passes r)
  ++ match filtered r with Some f => [f] | None => [] end.

(** The class of the object expression and the literal of the method
    expression, as [handleSignalOrSlot] finds them. *)
Definition objectClass (obj : Expr) (allowValue : bool) : option ClassId :=
  let objType := getType (IgnoreImpCasts obj) in
  if isNull objType then None
  else match getPointeeCXXRecordDecl objType with
       | Some c => Some c
       | None => if allowValue then getAsCXXRecordDecl objType else None
       end.

Definition asStringLiteral (e : Expr) : option (nat * string * nat) :=
  match e with
  | StringLiteral w b n => Some (w, b, n)
  | _ => None
  end.

Definition signalOrSlotLiteral (method : Expr) : option (nat * string * nat) :=
  let method := IgnoreImpCasts method in
  match asStringLiteral method with
  | Some l => Some l
  | None =>
      match method with
      | CallExpr _ (Some callee) [a] =>
          if String.eqb callee "qFlagLocation"
          then asStringLiteral (IgnoreImpCasts a) else None
      | _ => None
      end
  end.

(** [handleSignalOrSlot] from the class and the literal on: [None] when
    the candidate lookup did not end within [fuel] iterations. *)
Definition resolveSignature (fuel : nat) (decls : Declarations) (objClass : ClassId)
    (literal : string) (numConcatenated : nat) : option Resolution :=
  match parseSignature (ofString literal) with
  | None => Some (mkResolution [] None NoUse)
  | Some (signature, lParenPos, methodName) =>
      match lookUpCandidates fuel decls (Some objClass) methodName with
      | None => None
      | Some candidates =>
          Some (narrowCandidates signature lParenPos
                  (if 2 <=? numConcatenated then MacroArgumentRange else LiteralRange)
                  candidates)
      end
  end.

Definition handleSignalOrSlot (fuel : nat) (decls : Declarations)
    (obj method : option Expr) : option Annotation :=
  match obj, method with
  | Some obj, Some method =>
      match objectClass obj true, signalOrSlotLiteral method with
      | Some objClass, Some (width, literal, numConcatenated) =>
          if negb (width =? 1) then Some NoUse
          else option_map annotation
                 (resolveSignature fuel decls objClass literal numConcatenated)
      | _, _ => Some NoUse
      end
  | _, _ => Some NoUse
  end.

(* ================================================================== *)
(** ** handleInvokeMethod *)

Definition handleInvokeMethod (fuel : nat) (decls : Declarations)
    (obj method : option Expr) : option Annotation :=
  match obj, method with
  | Some obj, Some method =>
      match objectClass obj false, asStringLiteral (IgnoreImpCasts method) with
      | Some objClass, Some (width, methodName, _) =>
          if negb (width =? 1) then Some NoUse
          else if empty (ofString methodName) then Some NoUse
          else
            match lookUpCandidates fuel decls (Some objClass) (ofString methodName) with
            | None => None
            | Some [used] => Some (RegisterUse used LiteralRange)
            | Some _ => Some NoUse
            end
      | _, _ => Some NoUse
      end
  | _, _ => Some NoUse
  end.

(* ================================================================== *)
(** ** The notions of the specification *)

(** [subseq l1 l2]: [l1] is [l2] with some elements erased, the others in
    their order. *)
Inductive subseq {A : Type} : list A -> list A -> Prop :=
| subseq_nil : subseq [] []
| subseq_erase x l1 l2 : subseq l1 l2 -> subseq l1 (x :: l2)
| subseq_keep x l1 l2 : subseq l1 l2 -> subseq (x :: l1) (x :: l2).

(** Every set of the sequence comes from the one before it by erasing. *)
Fixpoint shrinking {A : Type} (sets : list (list A)) : Prop :=
  match sets with
  | [] => True
  | a :: rest =>
      match rest with
      | [] => True
      | b :: _ => subseq b a
      end /\ shrinking rest
  end.

(** The methods the walk of [lookUpCandidates] compares by name, and the
    ones it takes for the private implementation accessor. *)
Definition hasName (methodName : StringRef) (m : CXXMethodDecl) : bool :=
  match identifier m with
  | Some name => equals methodName name
  | None => false
  end.

Definition isDFunc (m : CXXMethodDecl) : bool :=
  match identifier m with
  | Some name => String.eqb name "d_func" && negb (isNull (getResultType m))
  | None => false
  end.

(** [baseChain decls c rest]: [c] and the classes of [rest] are defined,
    each is the first base of the one before, and the last has no base
    that is a class. *)
Fixpoint baseChain (decls : Declarations) (c : ClassId) (rest : list ClassId) : Prop :=
  hasDefinition (decls c) = true
  /\ match rest with
     | [] => firstBase (decls c) = None
     | c' :: rest' => firstBase (decls c) = Some c' /\ baseChain decls c' rest'
     end.

Definition chainMethods (decls : Declarations) (chain : list ClassId) : list CXXMethodDecl :=
  flat_map (fun c => methods (decls c)) chain.

(** The two counters of the specification after the [n] characters that
    start at [pos]. *)
Fixpoint countersAfter (signature : StringRef) (pos n : nat) (depth templDepth : Z)
  : Z * Z :=
  match n with
  | 0 => (depth, templDepth)
  | S n' =>
      let '(depth', templDepth') :=
        nestStep (charAt signature pos) depth templDepth in
      countersAfter signature (S pos) n' depth' templDepth'
  end.

Definition nonNegative (counters : Z * Z) : Prop :=
  (0 <= fst counters)%Z /\ (0 <= snd counters)%Z.

(** The group opened by the [<] at [p] is not closed by the characters
    strictly between [p] and [k]: position [k] lies in the group (or
    closes it). *)
Definition inAngleGroup (signature : StringRef) (p k : nat) : Prop :=
  p < k /\ forall n, n < k - S p -> nonNegative (countersAfter signature (S p) (S n) 0 0).

(** The positions the scan of one argument visits outside every group,
    from [argPos] on: it steps over a plain character, and from a [<] to
    the first position its group does not hold (the end of the signature
    when the group is never closed). *)
Inductive TopLevel (signature : StringRef) (argPos : nat) : nat -> Prop :=
| TopStart : TopLevel signature argPos argPos
| TopChar p :
    TopLevel signature argPos p ->
    p < size signature ->
    isChar "," (charAt signature p) = false ->
    isChar ")" (charAt signature p) = false ->
    isChar "<" (charAt signature p) = false ->
    TopLevel signature argPos (S p)
| TopGroup p q :
    TopLevel signature argPos p ->
    p < size signature ->
    isChar "<" (charAt signature p) = true ->
    p < q <= size signature ->
    (forall n, n < q - S p -> nonNegative (countersAfter signature (S p) n 0 0)) ->
    (q = size signature \/ ~ nonNegative (countersAfter signature (S p) (q - S p) 0 0)) ->
    TopLevel signature argPos q.

(** The Signature Tokenizer of the specification: the method name and
    the arguments that the loop of [handleSignalOrSlot] extracts when no
    pruning pass empties the candidates. *)
Definition keepAll (arg : nat) (argument : StringRef) (candidates : list unit) : list unit :=
  candidates.

Definition signatureArguments (signature : StringRef) (lParenPos : nat)
  : option (list StringRef) :=
  let argPos := lParenPos + 1 in
  match argumentLoop keepAll (S (size signature - argPos)) signature argPos 0 [tt] with
  | (ps, Done argPos' _ _) =>
      if argPos' =? size signature then Some (map fst ps) else None
  | (_, Returned) => None
  end.

Definition tokenize (literal : StringRef) : option (list ascii * list (list ascii)) :=
  match parseSignature literal with
  | None => None
  | Some (signature, lParenPos, methodName) =>
      option_map (fun arguments => (chars methodName, map chars arguments))
        (signatureArguments signature lParenPos)
  end.

(** Trimming, on characters. *)
Fixpoint dropWhile (p : ascii -> bool) (l : list ascii) : list ascii :=
  match l with
  | x :: l' => if p x then dropWhile p l' else l
  | [] => []
  end.

Definition trimChars (l : list ascii) : list ascii :=
  rev (dropWhile isTrimChar (rev (dropWhile isTrimChar l))).

(** The fragment the specification expects for an argument text: trimmed,
    and when it reads [const ]...[&] the inner text, trimmed again. *)
Definition fragment (a : list ascii) : list ascii :=
  let t := trimChars a in
  if isPrefix (list_ascii_of_string "const ") t
     && isPrefix (list_ascii_of_string "&") (rev t)
  then trimChars (firstn (List.length t - 7) (skipn 6 t))
  else t.

(** An argument text that the scan reads as one argument: no [,] and no
    [)] outside an angle group, and every angle group ended inside the
    text.  [group] holds the two counters while inside a group. *)
Fixpoint topLevelClean (group : option (Z * Z)) (l : list ascii) : bool :=
  match l with
  | [] => match group with None => true | Some _ => false end
  | c :: l' =>
      match group with
      | None =>
          if isChar "," c || isChar ")" c then false
          else if isChar "<" c then topLevelClean (Some (0, 0)%Z) l'
          else topLevelClean None l'
      | Some (depth, templDepth) =>
          let '(depth', templDepth') := nestStep c depth templDepth in
          if (0 <=? depth')%Z && (0 <=? templDepth')%Z
          then topLevelClean (Some (depth', templDepth')) l'
          else topLevelClean None l'
      end
  end.

Definition lacks (c : ascii) (l : list ascii) : Prop := ~ In c l.

(** [join(args, ",")]. *)
Fixpoint joinArgs (args : list (list ascii)) : list ascii :=
  match args with
  | [] => []
  | [a] => a
  | a :: rest => a ++ "," :: joinArgs rest
  end%char.

(** The signature built from a marker character, a name and arguments. *)
Definition buildSignature (marker : ascii) (name : list ascii) (args : list (list ascii))
  : list ascii :=
  (marker :: name ++ "(" :: joinArgs args ++ [")"])%char.

(* ================================================================== *)
(** ** Example declarations *)

Section Examples.
Local Open Scope string_scope.

Definition intType : QualType := Named "int" false None.
Definition voidType : QualType := Named "void" false None.
Definition classType (c : ClassId) : QualType := Named c false (Some c).
Definition undefinedClass : CXXRecordDecl := mkRecord false [] [].

(** An object expression of type pointer to class [c]. *)
Definition pointerTo (c : ClassId) : Expr := OtherExpr (Pointer (classType c) false).

(** class Counter { void increment(); void increment(int); }; *)
Definition increment0 : CXXMethodDecl := mkMethod "Counter" (Some "increment") [] 0 voidType.
Definition increment1 : CXXMethodDecl :=
mkMethod "Counter" (Some "increment") [intType] 1 voidType.
Definition counterDecls : Declarations :=
fun c => if String.eqb c "Counter" then mkRecord true [increment0; increment1] []
         else undefinedClass.

(** class A { B *d_func(); };  class B { void slotName(int); }; *)
Definition A_d_func : CXXMethodDecl :=
mkMethod "A" (Some "d_func") [] 0 (Pointer (classType "B") false).
Definition B_slotName : CXXMethodDecl := mkMethod "B" (Some "slotName") [intType] 1 voidType.
Definition privateImplDecls : Declarations :=
fun c => if String.eqb c "A" then mkRecord true [A_d_func] []
         else if String.eqb c "B" then mkRecord true [B_slotName] []
         else undefinedClass.

(** class QObject { QObjectPrivate *d_func(); void deleteLater(); };
    class Self : public QObject { Self *d_func(); }; *)
Definition QObject_d_func : CXXMethodDecl :=
mkMethod "QObject" (Some "d_func") [] 0 (Pointer (classType "QObjectPrivate") false).
Definition QObject_deleteLater : CXXMethodDecl :=
mkMethod "QObject" (Some "deleteLater") [] 0 voidType.
Definition Self_d_func : CXXMethodDecl :=
mkMethod "Self" (Some "d_func") [] 0 (Pointer (classType "Self") false).
Definition selfDecls : Declarations :=
fun c => if String.eqb c "Self" then mkRecord true [Self_d_func] [classType "QObject"]
         else if String.eqb c "QObject"
              then mkRecord true [QObject_d_func; QObject_deleteLater] []
         else undefinedClass.

(** class Pending;  class Half : public Pending { B *d_func(); };
    where [Pending] has no definition. *)
Definition Half_d_func : CXXMethodDecl :=
mkMethod "Half" (Some "d_func") [] 0 (Pointer (classType "B") false).
Definition halfDecls : Declarations :=
fun c => if String.eqb c "Half" then mkRecord true [Half_d_func] [classType "Pending"]
         else if String.eqb c "B" then mkRecord true [B_slotName] []
         else undefinedClass.

(** class P { Q *d_func(); };  class Q { R *d_func(); };  class R { void run(); }; *)
Definition P_d_func : CXXMethodDecl :=
mkMethod "P" (Some "d_func") [] 0 (Pointer (classType "Q") false).
Definition Q_d_func : CXXMethodDecl :=
mkMethod "Q" (Some "d_func") [] 0 (Pointer (classType "R") false).
Definition R_run : CXXMethodDecl := mkMethod "R" (Some "run") [] 0 voidType.
Definition twoStepDecls : Declarations :=
fun c => if String.eqb c "P" then mkRecord true [P_d_func] []
         else if String.eqb c "Q" then mkRecord true [Q_d_func] []
         else if String.eqb c "R" then mkRecord true [R_run] []
         else undefinedClass.

(** class Table { void f(QMap<int, QString>, int); }; *)
Definition Table_f : CXXMethodDecl :=
mkMethod "Table" (Some "f") [Named "QMap<int, QString>" false None; intType] 2 voidType.
Definition tableDecls : Declarations :=
fun c => if String.eqb c "Table" then mkRecord true [Table_f] [] else undefinedClass.

(** Parameter types of the normalizer examples. *)
Definition QStringType : QualType := Named "QString" false None.
Definition constQStringRef : QualType := Reference (Named "QString" true None).
Definition QStringListType : QualType := Named "QStringList" false None.
Definition unsignedIntType : QualType := Named "unsigned int" false None.

(** The argument that [handleSignalOrSlot] extracts first from the
  signature [1f(<text>)], compared with a parameter of type [type]. *)
Definition judgedEqual (text : string) (type : QualType) : bool :=
let signature := ofString ("1f(" ++ text ++ ")") in
let searchPos := findTerminator (size signature - 3) signature 3 in
matchesParam (extractArgument signature 3 searchPos) type.

(** class Emitter { void changed(int, QPrivateSignal); void moved(int, int); }; *)
Definition Emitter_changed : CXXMethodDecl :=
mkMethod "Emitter" (Some "changed")
  [intType; Named "QPrivateSignal" false (Some "QPrivateSignal")] 2 voidType.
Definition Emitter_moved : CXXMethodDecl :=
mkMethod "Emitter" (Some "moved") [intType; intType] 2 voidType.
Definition emitterDecls : Declarations :=
fun c => if String.eqb c "Emitter" then mkRecord true [Emitter_changed; Emitter_moved] []
         else undefinedClass.

(** class Slider { void moved(int, int); void moved(int, QPrivateSignal); }; *)
Definition Slider_moved : CXXMethodDecl :=
mkMethod "Slider" (Some "moved") [intType; intType] 2 voidType.
Definition Slider_movedPrivate : CXXMethodDecl :=
mkMethod "Slider" (Some "moved")
  [intType; Named "QPrivateSignal" false (Some "QPrivateSignal")] 2 voidType.
Definition sliderDecls : Declarations :=
fun c => if String.eqb c "Slider" then mkRecord true [Slider_moved; Slider_movedPrivate] []
         else undefinedClass.

End Examples.

(* ================================================================== *)
(** ** visitCallExpr and visitCXXConstructExpr *)

(** A call expression as [visitCallExpr] reads it: the callee when it is
    a method, whether that method is static, the arguments, and the
    object the method is called on when the expression is a member call
    ([CXXMemberCallExpr]).  The name of the parent class is the class
    identifier of the method; a class without a name has the empty
    identifier, which does not start with [Q]. *)
Record CallExprSite : Type := mkCallExprSite {
  calleeMethod : option CXXMethodDecl;
  calleeIsStatic : bool;
  callArgs : list Expr;
  implicitObject : option Expr
}.

(** The calls a visitor makes to the two handlers, in order. *)
Inductive HandlerCall : Type :=
| SignalOrSlot (obj method : option Expr)
| InvokeMethod (obj method : option Expr).

(** [e->getArg(i)]; the source reads it below [getNumArgs()]. *)
Definition getArg (args : list Expr) (i : nat) : option Expr := nth_error args i.

Section Dispatch.
Local Open Scope string_scope.

Definition callsOfCallExpr (e : CallExprSite) : list HandlerCall :=
match calleeMethod e with
| None => []
| Some methodDecl =>
    match identifier methodDecl with
    | None => []
    | Some name =>
        let parentName := parent methodDecl in
        let args := callArgs e in
        let n := List.length args in
        if negb (String.prefix "Q" parentName) then []
        else
          ((if String.eqb parentName "QObject"
               && (String.eqb name "connect" || String.eqb name "disconnect")
            then
              if calleeIsStatic e then
                if (4 <=? n)%nat
                then [SignalOrSlot (getArg args 0) (getArg args 1);
                      SignalOrSlot (getArg args 2) (getArg args 3)]
                else []
              else
                match implicitObject e with
                | Some object =>
                    if (3 <=? n)%nat
                    then [SignalOrSlot (getArg args 0) (getArg args 1);
                          SignalOrSlot (Some object) (getArg args 2)]
                    else []
                | None => []
                end
            else [])
           ++ (if String.eqb parentName "QTimer" && String.eqb name "singleShot"
               then if (3 <=? n)%nat then [SignalOrSlot (getArg args 1) (getArg args 2)] else []
               else [])
           ++ (if String.eqb parentName "QHostInfo" && String.eqb name "lookupHost"
               then if (3 <=? n)%nat then [SignalOrSlot (getArg args 1) (getArg args 2)] else []
               else [])
           ++ (if String.eqb parentName "QNetworkAccessCache"
                  && String.eqb name "requestEntry"
               then if (3 <=? n)%nat then [SignalOrSlot (getArg args 1) (getArg args 2)] else []
               else [])
           ++ (if String.eqb parentName "QDBusAbstractInterface"
                  && String.eqb name "callWithCallback"
               then
                 if (n =? 4)%nat then [SignalOrSlot (getArg args 2) (getArg args 3)]
                 else if (n =? 5)%nat
                      then [SignalOrSlot (getArg args 2) (getArg args 3);
                            SignalOrSlot (getArg args 2) (getArg args 4)]
                      else []
               else [])
           ++ (if String.eqb name "open"
                  && (String.eqb parentName "QFileDialog"
                      || String.eqb parentName "QColorDialog"
                      || String.eqb parentName "QFontDialog"
                      || String.eqb parentName "QMessageBox"
                      || String.eqb parentName "QInputDialog"
                      || String.eqb parentName "QPrintDialog"
                      || String.eqb parentName "QPageSetupDialog"
                      || String.eqb parentName "QPrintPreviewDialog"
                      || String.eqb parentName "QProgressDialog")
               then if (n =? 2)%nat then [SignalOrSlot (getArg args 0) (getArg args 1)] else []
               else [])
           ++ (if String.eqb parentName "QMenu" && String.eqb name "addAction"
               then
                 if (getNumParams methodDecl =? 4)%nat && (3 <=? n)%nat
                 then [SignalOrSlot (getArg args 1) (getArg args 2)]
                 else if (getNumParams methodDecl =? 5)%nat && (4 <=? n)%nat
                      then [SignalOrSlot (getArg args 2) (getArg args 3)]
                      else []
               else [])
           ++ (if String.eqb parentName "QToolbar" && String.eqb name "addAction"
               then
                 if (n =? 3)%nat then [SignalOrSlot (getArg args 1) (getArg args 2)]
                 else if (n =? 4)%nat then [SignalOrSlot (getArg args 2) (getArg args 3)]
                      else []
               else [])
           ++ (if String.eqb parentName "QState" && String.eqb name "addTransition"
               then if (2 <=? n)%nat then [SignalOrSlot (getArg args 0) (getArg args 1)] else []
               else [])
           ++ (if String.eqb parentName "QMetaObject" && String.eqb name "invokeMethod"
               then if (2 <=? n)%nat then [InvokeMethod (getArg args 0) (getArg args 1)] else []
               else []))%list
    end
end.

(** A constructor call as [visitCXXConstructExpr] reads it: the class of
    the constructor and the arguments. *)
Record CXXConstructExprSite : Type := mkConstructExprSite {
  constructorParent : option ClassId;
  constructArgs : list Expr
}.

Definition callsOfConstructExpr (e : CXXConstructExprSite) : list HandlerCall :=
match constructorParent e with
| None => []
| Some parentName =>
    let args := constructArgs e in
    let n := List.length args in
    if negb (String.prefix "Q" parentName) then []
    else
      ((if String.eqb parentName "QShortcut"
        then (if (3 <=? n)%nat then [SignalOrSlot (getArg args 1) (getArg args 2)] else [])
             ++ (if (4 <=? n)%nat then [SignalOrSlot (getArg args 1) (getArg args 3)] else [])
        else [])
       ++ (if String.eqb parentName "QSignalSpy" || String.eqb parentName "QSignalTransition"
           then if (2 <=? n)%nat then [SignalOrSlot (getArg args 0) (getArg args 1)] else []
           else []))%list
end.

End Dispatch.

Definition runHandlerCall (fuel : nat) (decls : Declarations) (call : HandlerCall)
  : option Annotation :=
  match call with
  | SignalOrSlot obj method => handleSignalOrSlot fuel decls obj method
  | InvokeMethod obj method => handleInvokeMethod fuel decls obj method
  end.

(** The calls are made one after the other; [None] when one of them does
    not return. *)
Fixpoint runHandlerCalls (fuel : nat) (decls : Declarations) (calls : list HandlerCall)
  : option (list Annotation) :=
  match calls with
  | [] => Some []
  | call :: rest =>
      match runHandlerCall fuel decls call with
      | None => None
      | Some a => option_map (cons a) (runHandlerCalls fuel decls rest)
      end
  end.

Definition visitCallExpr (fuel : nat) (decls : Declarations) (e : CallExprSite)
  : option (list Annotation) :=
  runHandlerCalls fuel decls (callsOfCallExpr e).

Definition visitCXXConstructExpr (fuel : nat) (decls : Declarations)
    (e : CXXConstructExprSite) : option (list Annotation) :=
  runHandlerCalls fuel decls (callsOfConstructExpr e).

(** The class and method names [visitCallExpr] compares with. *)
Definition recognizedCalls : list (string * string) :=
  [("QObject", "connect"); ("QObject", "disconnect"); ("QTimer", "singleShot");
   ("QHostInfo", "lookupHost"); ("QNetworkAccessCache", "requestEntry");
   ("QDBusAbstractInterface", "callWithCallback");
   ("QFileDialog", "open"); ("QColorDialog", "open"); ("QFontDialog", "open");
   ("QMessageBox", "open"); ("QInputDialog", "open"); ("QPrintDialog", "open");
   ("QPageSetupDialog", "open"); ("QPrintPreviewDialog", "open");
   ("QProgressDialog", "open");
   ("QMenu", "addAction"); ("QToolbar", "addAction"); ("QState", "addTransition");
   ("QMetaObject", "invokeMethod")]%string.

Definition recognizedConstructors : list string :=
  ["QShortcut"; "QSignalSpy"; "QSignalTransition"]%string.

(* ================================================================== *)
(** ** The resolution as one filter *)

(** What a pruning pass asks of a candidate for argument number [arg]. *)
Definition acceptsArgument (arg : nat) (argument : StringRef) (it : CXXMethodDecl) : bool :=
  negb (getNumParams it <? arg + 1) && matchesParam argument (getParamType it arg).

(** ... and for the arguments from number [arg] on. *)
Fixpoint acceptsArguments (arg : nat) (arguments : list StringRef) (it : CXXMethodDecl)
  : bool :=
  match arguments with
  | [] => true
  | argument :: rest =>
      acceptsArgument arg argument it && acceptsArguments (S arg) rest it
  end.

(** The located candidates that accept every argument and pass the final
    filter, in their order. *)
Definition survivors (arguments : list StringRef) (located : list CXXMethodDecl)
  : list CXXMethodDecl :=
  finalFilter (List.length arguments) (filter (acceptsArguments 0 arguments) located).

(** A candidate that [lookUpCandidates] may return: a method of the
    searched name, declared in a class that has a definition. *)
Definition foundIn (decls : Declarations) (methodName : StringRef) (m : CXXMethodDecl)
  : Prop :=
  hasName methodName m = true
  /\ exists c, hasDefinition (decls c) = true /\ In m (methods (decls c)).

(** A text without its spaces. *)
Definition withoutSpaces (l : list ascii) : list ascii :=
  filter (fun c => negb (isChar " " c)) l.

(** The text does not end with a space. *)
Definition noTrailingSpace (l : list ascii) : Prop :=
  l <> [] -> isChar " " (last l zero) = false.

(* ================================================================== *)
(** ** generator/filesystem.cpp *)

(** [std::replace(first, last, old_value, new_value)]. *)
Fixpoint replaceChar (old new : ascii) (str : list ascii) : list ascii :=
  match str with
  | [] => []
  | c :: rest => (if Ascii.eqb c old then new else c) :: replaceChar old new rest
  end.

(** [make_forward_slashes(std::string &)] and
    [replace_invalid_filename_chars]. *)
Definition make_forward_slashes_string (str : list ascii) : list ascii :=
  replaceChar "\" "/" str.

Definition replace_invalid_filename_chars (str : list ascii) : list ascii :=
  replaceChar ":" "." str.

(** [strchr(str, c)] on the bytes from [str] on: the offset of the first
    [c], looked for up to the terminating null character.  Bytes without
    a terminator are outside what [strchr] may be given; the search then
    ends with the bytes. *)
Fixpoint strchr (str : list ascii) (c : ascii) : option nat :=
  match str with
  | [] => None
  | x :: rest =>
      if Ascii.eqb x c then Some 0
      else if Ascii.eqb x zero then None
      else option_map S (strchr rest c)
  end.

(** [*c = value] in the memory [mem]. *)
Definition store (mem : list ascii) (c : nat) (value : ascii) : list ascii :=
  (firstn c mem ++ value :: skipn (S c) mem)%list.

(** The [while (c)] loop of [make_forward_slashes(char *str)]: [c] is the
    position of the backslash found, [None] for the null pointer.  Every
    iteration moves [c] forward, so the length of the memory bounds the
    iterations. *)
Fixpoint slashLoop (fuel : nat) (mem : list ascii) (c : option nat) : list ascii :=
  match fuel with
  | 0 => mem
  | S fuel' =>
      match c with
      | None => mem
      | Some p =>
          let mem' := store mem p "/" in
          slashLoop fuel' mem'
            (option_map (Nat.add (p + 1)) (strchr (skipn (p + 1) mem') "\"))
      end
  end.

(** [make_forward_slashes(char *str)]: the memory after the call, [str]
    being a position in [mem]. *)
Definition make_forward_slashes (mem : list ascii) (str : nat) : list ascii :=
  slashLoop (List.length mem) mem
    (option_map (Nat.add str) (strchr (skipn str mem) "\")).

Section NaiveUncomplete.

(** [naive_uncomplete] is written over the path functions of LLVM
    ([llvm::sys::path]), which are taken as they are: whether a path has
    a root, its root, the path without it, the components the iterator
    goes through, and [append] of one component to the result. *)
Variable has_root_path : StringRef -> bool.
Variable root_path : StringRef -> StringRef.
Variable relative_path : StringRef -> StringRef.
Variable components : StringRef -> list StringRef.
Variable append : list ascii -> list ascii -> list ascii.

(** The [while] loop over the two iterators: it stops at the first
    components that differ or at the end of either path. *)
Fixpoint skipCommon (path_it base_it : list StringRef)
  : list StringRef * list StringRef :=
  match path_it, base_it with
  | p :: path_rest, b :: base_rest =>
      if negb (eqChars (chars p) (chars b)) then (path_it, base_it)
      else skipCommon path_rest base_rest
  | _, _ => (path_it, base_it)
  end.

(** The function calls itself on the relative parts of rooted paths;
    [None] when [fuel] calls were not enough.  The message written to
    [std::cerr] is left out. *)
Fixpoint naive_uncomplete (fuel : nat) (base path : StringRef) : option (list ascii) :=
  match fuel with
  | 0 => None
  | S fuel' =>
      if has_root_path path then
        if negb (eqChars (chars (root_path path)) (chars (root_path base)))
        then Some (chars path)
        else naive_uncomplete fuel' (relative_path base) (relative_path path)
      else if has_root_path base then Some (chars path)
      else
        let '(path_it, base_it) := skipCommon (components path) (components base) in
        let result :=
          fold_left (fun result _ => append result (list_ascii_of_string ".."))
            base_it [] in
        Some (fold_left (fun result component => append result (chars component))
                path_it result)
  end.

End NaiveUncomplete.

(** Following the components of a relative path from a directory, the
    directory being given by the names that lead to it: [.] stays, [..]
    leaves the last name (and stays where no name is left), any other
    component is entered.  Symbolic links are not considered. *)
Definition followComponent (dir : list (list ascii)) (component : list ascii)
  : list (list ascii) :=
  if eqChars component (list_ascii_of_string ".") then dir
  else if eqChars component (list_ascii_of_string "..") then removelast dir
  else (dir ++ [component])%list.

Definition follow (dir : list (list ascii)) (steps : list (list ascii))
  : list (list ascii) :=
  fold_left followComponent steps dir.

(** A component that names a directory: neither [.] nor [..]. *)
Definition isDirectoryName (component : list ascii) : bool :=
  negb (eqChars component (list_ascii_of_string "."))
  && negb (eqChars component (list_ascii_of_string "..")).

(** The two remainders differ where they start, when both start: the
    part split off before them is all that the two paths share. *)
Definition differAtHead (rest_base rest_path : list (list ascii)) : Prop :=
  match rest_base, rest_path with
  | b :: _, p :: _ => b <> p
  | _, _ => True
  end.

(** Sample path functions, to run [naive_uncomplete] on concrete paths:
    a reading of the POSIX style of [llvm::sys::path].  The first
    component of a path is a name of the form [//net], or the root
    directory [/], or the text up to the first separator; the iterator
    passes runs of separators and gives [.] for a separator that ends
    the path; the root path is [//net], [//net/] or [/]; the relative
    path is the path after its root path.  The theorems on
    [naive_uncomplete] do not depend on them. *)
Definition is_separator (c : ascii) : bool := isChar "/" c.

(** [find_first_of(separators, from)]. *)
Definition find_first_separator (path : StringRef) (from : nat) : option nat :=
  option_map (Nat.add from) (findChar "/" (skipn from (chars path))).

Definition sample_first_component (path : StringRef) : StringRef :=
  if empty path then path
  else if (2 <? size path) && is_separator (charAt path 0)
          && Ascii.eqb (charAt path 0) (charAt path 1)
          && negb (is_separator (charAt path 2))
  then substr path 0 (find_first_separator path 2)
  else if is_separator (charAt path 0) then substr path 0 (Some 1)
  else substr path 0 (find_first_separator path 0).

(** [const_iterator::operator++]: the position and the component after
    the increment; the iterator is at the end when the position is the
    size of the path. *)
Definition sample_increment (path : StringRef) (position : nat) (component : StringRef)
  : nat * StringRef :=
  let position := position + size component in
  if position =? size path then (position, ofString "")
  else
    let was_net :=
      (2 <? size component) && is_separator (charAt component 0)
      && Ascii.eqb (charAt component 1) (charAt component 0)
      && negb (is_separator (charAt component 2)) in
    if is_separator (charAt path position) then
      if was_net then (position, substr path position (Some 1))
      else
        let position :=
          position + countWhile is_separator (skipn position (chars path)) in
        if (position =? size path)
           && negb (eqChars (chars component) (list_ascii_of_string "/"))
        then (position - 1, ofString ".")
        else (position, slice path position (find_first_separator path position))
    else (position, slice path position (find_first_separator path position)).

Fixpoint sample_iterate (fuel : nat) (path : StringRef) (position : nat)
    (component : StringRef) : list StringRef :=
  match fuel with
  | 0 => []
  | S fuel' =>
      if position =? size path then []
      else
        let '(position', component') := sample_increment path position component in
        component :: sample_iterate fuel' path position' component'
  end.

(** The components from [begin(path)] to [end(path)]; every increment
    moves the position forward, so the size of the path bounds their
    number. *)
Definition sample_components (path : StringRef) : list StringRef :=
  sample_iterate (size path) path 0 (sample_first_component path).

Definition sample_root_path (path : StringRef) : StringRef :=
  if empty path then ofString ""
  else
    let b := sample_first_component path in
    let has_net :=
      (2 <? size b) && is_separator (charAt b 0)
      && Ascii.eqb (charAt b 1) (charAt b 0) in
    if has_net then
      let '(position, component) := sample_increment path 0 b in
      if negb (position =? size path) && is_separator (charAt component 0)
      then substr path 0 (Some (size b + size component))
      else b
    else if is_separator (charAt b 0) then b
    else ofString "".

Definition sample_has_root_path (path : StringRef) : bool :=
  negb (empty (sample_root_path path)).

Definition sample_relative_path (path : StringRef) : StringRef :=
  substr path (size (sample_root_path path)) None.

(** [append(path, component)]: a separator is put between the two
    unless the path is empty or ends with one, or the component starts
    with one. *)
Definition sample_append (result component : list ascii) : list ascii :=
  match rev result with
  | [] => component
  | c :: _ =>
      if is_separator c then (result ++ dropWhile is_separator component)%list
      else
        match component with
        | c0 :: _ =>
            if is_separator c0 then (result ++ component)%list
            else (result ++ "/"%char :: component)%list
        | [] => (result ++ ["/"%char])%list
        end
  end.

Definition sample_uncomplete (base path : string) : option string :=
  option_map string_of_list_ascii
    (naive_uncomplete sample_has_root_path sample_root_path sample_relative_path
       sample_components sample_append (S (String.length path))
       (ofString base) (ofString path)).

(* ================================================================== *)
(** * Properties *)

(** ** Erasing elements *)

Lemma subseq_refl {A} (l : list A) : subseq l l.
Proof. induction l; [apply subseq_nil | apply subseq_keep; assumption]. Qed.

Lemma subseq_nil_l {A} (l : list A) : subseq [] l.
Proof. induction l; constructor; auto. Qed.

Lemma subseq_trans {A} (l1 l2 l3 : list A) :
  subseq l1 l2 -> subseq l2 l3 -> subseq l1 l3.
Proof.
  intros H12 H23. revert l1 H12.
  induction H23; intros l0 H12.
  - assumption.
  - constructor. auto.
  - inversion H12; subst.
    + constructor. auto.
    + apply subseq_keep. auto.
Qed.

Lemma subseq_length {A} (l1 l2 : list A) : subseq l1 l2 -> List.length l1 <= List.length l2.
Proof. induction 1; simpl; lia. Qed.

Lemma subseq_of_nil {A} (l : list A) : subseq l [] -> l = [].
Proof. inversion 1; reflexivity. Qed.

Lemma subseq_In {A} (l1 l2 : list A) x : subseq l1 l2 -> In x l1 -> In x l2.
Proof.
  induction 1; simpl; intros Hin; auto.
  destruct Hin; auto.
Qed.

Lemma subseq_filter {A} (p : A -> bool) (l : list A) : subseq (filter p l) l.
Proof.
  induction l as [|x l IH]; simpl.
  - constructor.
  - destruct (p x); [apply subseq_keep | apply subseq_erase]; assumption.
Qed.

Lemma shrinking_nth {A} (sets : list (list A)) :
  shrinking sets ->
  forall i j, i <= j < List.length sets -> subseq (nth j sets []) (nth i sets []).
Proof.
  induction sets as [|a rest IH]; intros Hs i j Hij.
  - simpl in Hij. lia.
  - destruct Hs as [Hhead Hrest].
    destruct i as [|i].
    + destruct j as [|j]; [apply subseq_refl|].
      simpl in Hij.
      destruct rest as [|b rest']; [simpl in Hij; lia|].
      apply subseq_trans with (l2 := b); [|exact Hhead].
      apply (IH Hrest 0 j). simpl in *. lia.
    + destruct j as [|j]; [lia|].
      simpl in Hij. apply (IH Hrest i j). lia.
Qed.

Lemma shrinking_app_last {A} (sets : list (list A)) (a b : list A) :
  shrinking (sets ++ [a]) -> subseq b a -> shrinking ((sets ++ [a]) ++ [b]).
Proof.
  induction sets as [|x rest IH]; simpl; intros Hs Hb.
  - split; [assumption | split; exact I].
  - destruct Hs as [Hhead Hrest]. split.
    + destruct rest; simpl in *; assumption.
    + apply IH; assumption.
Qed.

(** ** The pruning pass and the final filter only erase *)

Lemma pruneCandidates_subseq arg argument candidates :
  subseq (pruneCandidates arg argument candidates) candidates.
Proof.
  induction candidates as [|it rest IH]; simpl.
  - constructor.
  - destruct (getNumParams it <? arg + 1); [apply subseq_erase; exact IH|].
    destruct (matchesParam argument (getParamType it arg));
      [apply subseq_keep | apply subseq_erase]; exact IH.
Qed.

Lemma finalFilter_subseq arg candidates : subseq (finalFilter arg candidates) candidates.
Proof. apply subseq_filter. Qed.

Lemma last_cons {A} (a : A) (l : list A) (d : A) : last (a :: l) d = last l a.
Proof.
  revert a d. induction l as [|x l IH]; intros a d; [reflexivity|].
  change (last (a :: x :: l) d) with (last (x :: l) d).
  rewrite IH. symmetry. apply IH.
Qed.

Section LoopInvariant.
Context {C : Type}.
Variable prune : nat -> StringRef -> list C -> list C.
Hypothesis prune_erases : forall arg argument cs, subseq (prune arg argument cs) cs.

(** The sets after the passes shrink from the set the loop starts
    with, and the loop leaves with the last of them. *)
Lemma argumentLoop_shrinks fuel signature :
  forall argPos arg candidates,
    let run := argumentLoop prune fuel signature argPos arg candidates in
    shrinking (candidates :: map snd (fst run))
    /\ match snd run with
       | Returned => True
       | Done _ _ remaining => remaining = last (map snd (fst run)) candidates
       end.
Proof.
  induction fuel as [|fuel IH]; intros argPos arg candidates; simpl.
  - split; [split; exact I | reflexivity].
  - destruct ((argPos <? size signature)
              && negb match candidates with [] => true | _ :: _ => false end);
      [|simpl; split; [split; exact I | reflexivity]].
    set (searchPos := findTerminator (size signature - argPos) signature argPos).
    destruct (searchPos =? size signature);
      [simpl; split; [split; exact I | exact I]|].
    set (argument := extractArgument signature argPos searchPos).
    destruct (empty argument && isChar ")" (charAt signature searchPos) && (arg =? 0));
      [simpl; split; [split; exact I | reflexivity]|].
    destruct (isChar ")" (charAt signature searchPos)).
    + simpl. split; [|reflexivity].
      split; [apply prune_erases | split; exact I].
    + specialize (IH (searchPos + 1) (arg + 1) (prune arg argument candidates)).
      destruct (argumentLoop prune fuel signature (searchPos + 1) (arg + 1)
                  (prune arg argument candidates)) as [ps exit].
      simpl in *. destruct IH as [IHs IHl]. split.
      * split; [apply prune_erases | exact IHs].
      * destruct exit; [exact I|].
        rewrite IHl. symmetry. apply last_cons.
Qed.
End LoopInvariant.

Lemma last_app_singleton {A} (l : list A) (a d : A) : last (l ++ [a]) d = a.
Proof. induction l as [|x l IH]; simpl; [reflexivity|]. rewrite IH. destruct (l ++ [a]) eqn:E; [destruct l; discriminate|reflexivity]. Qed.

Lemma shrinking_snoc {A} (a : list A) (sets : list (list A)) (b : list A) :
  shrinking (a :: sets) -> subseq b (last sets a) -> shrinking (a :: sets ++ [b]).
Proof.
  revert a. induction sets as [|x rest IH]; intros a Hs Hb.
  - simpl in *. split; [assumption | split; exact I].
  - destruct Hs as [Hhead Hrest].
    change ((x :: rest) ++ [b]) with (x :: rest ++ [b]).
    split; [exact Hhead|].
    apply IH; [exact Hrest|].
    rewrite last_cons in Hb. exact Hb.
Qed.

Lemma narrowCandidates_shrinking signature lParenPos range located :
  shrinking (candidateSets located (narrowCandidates signature lParenPos range located)).
Proof.
  unfold narrowCandidates, candidateSets.
  pose proof (argumentLoop_shrinks pruneCandidates pruneCandidates_subseq
                (S (size signature - (lParenPos + 1))) signature (lParenPos + 1) 0 located)
    as [Hs Hl].
  destruct (argumentLoop pruneCandidates (S (size signature - (lParenPos + 1)))
              signature (lParenPos + 1) 0 located) as [ps exit].
  simpl in Hs, Hl.
  destruct exit as [|argPos arg remaining]; simpl.
  - rewrite app_nil_r. exact Hs.
  - destruct (negb (argPos =? size signature)); simpl.
    + rewrite app_nil_r. exact Hs.
    + assert (Hf : shrinking (located :: map snd ps ++ [finalFilter arg remaining])).
      { apply shrinking_snoc; [exact Hs|]. rewrite <- Hl. apply finalFilter_subseq. }
      destruct (finalFilter arg remaining); exact Hf.
Qed.

Lemma narrowCandidates_last signature lParenPos range located :
  let r := narrowCandidates signature lParenPos range located in
  let sets := candidateSets located r in
  annotation r = NoUse \/ exists used rest, last sets [] = used :: rest.
Proof.
  unfold narrowCandidates, candidateSets.
  destruct (argumentLoop pruneCandidates (S (size signature - (lParenPos + 1)))
              signature (lParenPos + 1) 0 located) as [ps exit].
  destruct exit as [|argPos arg remaining]; simpl; [left; reflexivity|].
  destruct (negb (argPos =? size signature)); simpl; [left; reflexivity|].
  destruct (finalFilter arg remaining) as [|used rest] eqn:E; simpl; [left; reflexivity|].
  right. exists used, rest.
  destruct (map snd ps ++ [used :: rest]) as [|x l] eqn:E2.
  - destruct (map snd ps); discriminate.
  - rewrite <- E2. apply last_app_singleton.
Qed.

(** C1. During one resolution the candidate set only shrinks: every
    pruning pass and the final filter erase elements and add none, so the
    sizes never grow; a set that is empty stays empty, and then no use is
    registered. *)
Theorem candidate_sets_only_shrink :
  forall signature lParenPos range located,
    let r := narrowCandidates signature lParenPos range located in
    let sets := candidateSets located r in
    shrinking sets
    /\ (forall i j, i <= j < List.length sets ->
          List.length (nth j sets []) <= List.length (nth i sets []))
    /\ (forall i j, i <= j < List.length sets -> nth i sets [] = [] -> nth j sets [] = [])
    /\ (In [] sets -> annotation r = NoUse).
Proof.
  intros signature lParenPos range located r sets.
  assert (Hs : shrinking sets) by apply narrowCandidates_shrinking.
  pose proof (shrinking_nth sets Hs) as Hnth.
  split; [exact Hs|]. split; [|split].
  - intros i j Hij. apply subseq_length. apply Hnth. exact Hij.
  - intros i j Hij Hi. specialize (Hnth i j Hij). rewrite Hi in Hnth.
    apply subseq_of_nil. exact Hnth.
  - intros Hin.
    destruct (narrowCandidates_last signature lParenPos range located)
      as [Hno | (used & rest & Hlast)]; [exact Hno|].
    exfalso. fold r in Hlast. fold sets in Hlast.
    apply In_nth with (d := []) in Hin. destruct Hin as (i & Hi & Hnil).
    assert (Hlen : List.length sets <> 0) by lia.
    specialize (Hnth i (List.length sets - 1)).
    assert (Hij : i <= List.length sets - 1 < List.length sets) by lia.
    specialize (Hnth Hij).
    rewrite Hnil in Hnth. apply subseq_of_nil in Hnth.
    assert (Hl : last sets [] = nth (List.length sets - 1) sets []).
    { clear. induction sets as [|a l IH]; [reflexivity|].
      destruct l as [|b l']; [reflexivity|].
      change (last (a :: b :: l') []) with (last (b :: l') []).
      rewrite IH. simpl. rewrite Nat.sub_0_r. reflexivity. }
    rewrite Hl, Hnth in Hlast. discriminate.
Qed.

(** ** The final filter *)

Lemma needsMoreArguments_false arg it :
  needsMoreArguments arg it = false <->
  (minRequiredArguments it <= arg
   \/ (getNumParams it = arg + 1
       /\ getAsString (getParamType it arg) = QPrivateSignal)).
Proof.
  unfold needsMoreArguments.
  rewrite andb_false_iff, negb_false_iff, andb_true_iff.
  rewrite Nat.ltb_ge, Nat.eqb_eq, String.eqb_eq. reflexivity.
Qed.

Lemma finalFilter_In arg candidates it :
  In it (finalFilter arg candidates) <->
  In it candidates
  /\ (minRequiredArguments it <= arg
      \/ (getNumParams it = arg + 1
          /\ getAsString (getParamType it arg) = QPrivateSignal)).
Proof.
  unfold finalFilter. rewrite filter_In, negb_true_iff, needsMoreArguments_false.
  reflexivity.
Qed.

Section LoopCount.
Context {C : Type}.
Variable prune : nat -> StringRef -> list C -> list C.

(** The counter [arg] the loop leaves with is the number of passes. *)
Lemma argumentLoop_counts fuel signature :
  forall argPos arg candidates,
    match snd (argumentLoop prune fuel signature argPos arg candidates) with
    | Returned => True
    | Done _ arg' _ =>
        arg' = arg + List.length (fst (argumentLoop prune fuel signature argPos arg candidates))
    end.
Proof.
  induction fuel as [|fuel IH]; intros argPos arg candidates; simpl.
  - lia.
  - destruct ((argPos <? size signature)
              && negb match candidates with [] => true | _ :: _ => false end);
      [|simpl; lia].
    set (searchPos := findTerminator (size signature - argPos) signature argPos).
    destruct (searchPos =? size signature); [exact I|].
    set (argument := extractArgument signature argPos searchPos).
    destruct (empty argument && isChar ")" (charAt signature searchPos) && (arg =? 0));
      [simpl; lia|].
    destruct (isChar ")" (charAt signature searchPos)); [simpl; lia|].
    specialize (IH (searchPos + 1) (arg + 1) (prune arg argument candidates)).
    destruct (argumentLoop prune fuel signature (searchPos + 1) (arg + 1)
                (prune arg argument candidates)) as [ps exit].
    simpl in *. destruct exit; [exact I | lia].
Qed.
End LoopCount.

(** ** handleInvokeMethod *)

(** C10. At an invokeMethod call site (an object of type pointer to a
    class, a plain string literal that is not empty) a use is registered
    exactly when the lookup by name returns one method, and it is that
    method; when the lookup returns none or several, nothing is
    registered. *)
Theorem invoke_registers_iff_unique :
  forall fuel decls obj method objClass methodName n,
    objectClass obj false = Some objClass ->
    asStringLiteral (IgnoreImpCasts method) = Some (1, methodName, n) ->
    methodName <> EmptyString ->
    (forall used range,
        handleInvokeMethod fuel decls (Some obj) (Some method)
        = Some (RegisterUse used range)
        <-> lookUpCandidates fuel decls (Some objClass) (ofString methodName) = Some [used]
            /\ range = LiteralRange)
    /\ (forall candidates,
          lookUpCandidates fuel decls (Some objClass) (ofString methodName)
          = Some candidates ->
          List.length candidates <> 1 ->
          handleInvokeMethod fuel decls (Some obj) (Some method) = Some NoUse).
Proof.
  intros fuel decls obj method objClass methodName n Hobj Hlit Hname.
  unfold handleInvokeMethod. rewrite Hobj, Hlit. simpl.
  assert (Hempty : empty (ofString methodName) = false).
  { destruct methodName; [contradiction|]. reflexivity. }
  rewrite Hempty.
  destruct (lookUpCandidates fuel decls (Some objClass) (ofString methodName))
    as [[|m [|m' rest]]|].
  - split.
    + intros used range. split; [discriminate | intros [H _]; discriminate].
    + reflexivity.
  - split.
    + intros used range. split.
      * intros H. injection H as -> ->. split; reflexivity.
      * intros [H ->]. injection H as ->. reflexivity.
    + intros candidates H Hlen. injection H as <-. simpl in Hlen. lia.
  - split.
    + intros used range. split; [discriminate | intros [H _]; discriminate].
    + reflexivity.
  - split.
    + intros used range. split; [discriminate | intros [H _]; discriminate].
    + intros candidates H. discriminate.
Qed.

Lemma invoke_registers_iff_unique_witness :
  objectClass (pointerTo "B"%string) false = Some "B"%string
  /\ lookUpCandidates 2 privateImplDecls (Some "B"%string) (ofString "slotName"%string)
     = Some [B_slotName]
  /\ handleInvokeMethod 2 privateImplDecls (Some (pointerTo "B"%string))
       (Some (StringLiteral 1 "slotName"%string 1))
     = Some (RegisterUse B_slotName LiteralRange)
  /\ handleInvokeMethod 2 counterDecls (Some (pointerTo "Counter"%string))
       (Some (StringLiteral 1 "increment"%string 1))
     = Some NoUse.
Proof.
  assert (Hobj : objectClass (pointerTo "B"%string) false = Some "B"%string) by reflexivity.
  assert (Hlook : lookUpCandidates 2 privateImplDecls (Some "B"%string)
                    (ofString "slotName"%string) = Some [B_slotName]) by reflexivity.
  split; [exact Hobj|]. split; [exact Hlook|]. split.
  - apply (invoke_registers_iff_unique 2 privateImplDecls (pointerTo "B"%string)
             (StringLiteral 1 "slotName"%string 1) "B"%string "slotName"%string 1
             Hobj eq_refl ltac:(discriminate)).
    split; [exact Hlook | reflexivity].
  - apply (invoke_registers_iff_unique 2 counterDecls (pointerTo "Counter"%string)
             (StringLiteral 1 "increment"%string 1) "Counter"%string "increment"%string 1
             eq_refl eq_refl ltac:(discriminate))
      with (candidates := [increment0; increment1]).
    + reflexivity.
    + simpl. lia.
Defined.

(** ** The walk of lookUpCandidates *)

(** One iteration of the loop. *)
Lemma lookUpLoop_S fuel decls methodName classIt d_func candidates r :
  lookUpLoop (S fuel) decls methodName classIt d_func candidates r
  = match classIt with
    | None => Some (candidates, r)
    | Some c =>
        if negb (hasDefinition (decls c)) then Some (candidates, r)
        else
          let '(candidates', d_func') :=
            scanMethods (methods (decls c)) methodName candidates d_func in
          match d_func', firstBase (decls c), candidates' with
          | Some d, None, [] =>
              lookUpLoop fuel decls methodName
                (getPointeeCXXRecordDecl (getResultType d)) None candidates' (S r)
          | _, _, _ =>
              lookUpLoop fuel decls methodName (firstBase (decls c)) d_func' candidates' r
          end
    end.
Proof. reflexivity. Qed.

(** The counter of redirections does not steer the walk. *)
Lemma lookUpLoop_counter fuel decls methodName :
  forall classIt d_func candidates r r',
    option_map fst (lookUpLoop fuel decls methodName classIt d_func candidates r)
    = option_map fst (lookUpLoop fuel decls methodName classIt d_func candidates r').
Proof.
  induction fuel as [|fuel IH]; intros classIt d_func candidates r r'.
  - reflexivity.
  - rewrite !lookUpLoop_S.
    destruct classIt as [c|]; [|reflexivity].
    destruct (negb (hasDefinition (decls c))); [reflexivity|].
    destruct (scanMethods (methods (decls c)) methodName candidates d_func)
      as [candidates' d_func'].
    destruct d_func' as [d|]; [|apply IH].
    destruct (firstBase (decls c)); [apply IH|].
    destruct candidates'; apply IH.
Qed.

(** More iterations do not change a walk that has ended. *)
Lemma lookUpLoop_more_fuel fuel decls methodName :
  forall classIt d_func candidates r result,
    lookUpLoop fuel decls methodName classIt d_func candidates r = Some result ->
    lookUpLoop (S fuel) decls methodName classIt d_func candidates r = Some result.
Proof.
  induction fuel as [|fuel IH]; intros classIt d_func candidates r result H.
  - discriminate.
  - rewrite lookUpLoop_S in H. rewrite lookUpLoop_S.
    destruct classIt as [c|]; [|exact H].
    destruct (negb (hasDefinition (decls c))); [exact H|].
    destruct (scanMethods (methods (decls c)) methodName candidates d_func)
      as [candidates' d_func'].
    destruct d_func' as [d|]; [|apply IH; exact H].
    destruct (firstBase (decls c)); [apply IH; exact H|].
    destruct candidates'; apply IH; exact H.
Qed.

(** The loop over the methods of a class that has no method of the
    searched name: no candidate is added, and the accessor kept is the
    one already held or else the first of the class. *)
Lemma scanMethods_no_match ms methodName :
  forall candidates d_func,
    forallb (fun m => negb (hasName methodName m)) ms = true ->
    scanMethods ms methodName candidates d_func
    = (candidates,
       match d_func with
       | Some d => Some d
       | None => List.find isDFunc ms
       end).
Proof.
  induction ms as [|mi rest IH]; intros candidates d_func Hno; simpl.
  - destruct d_func; reflexivity.
  - simpl in Hno. apply andb_true_iff in Hno. destruct Hno as [Hmi Hrest].
    unfold hasName in Hmi. unfold isDFunc.
    destruct (identifier mi) as [name|].
    + apply negb_true_iff in Hmi. rewrite Hmi.
      rewrite (IH _ _ Hrest).
      destruct d_func as [d|]; [reflexivity|].
      destruct (String.eqb name "d_func" && negb (isNull (getResultType mi)));
        reflexivity.
    + rewrite (IH _ _ Hrest). reflexivity.
Qed.

Lemma find_app {A} (p : A -> bool) (l1 l2 : list A) :
  List.find p (l1 ++ l2)
  = match List.find p l1 with Some x => Some x | None => List.find p l2 end.
Proof.
  induction l1 as [|x l1 IH]; simpl; [reflexivity|].
  destruct (p x); [reflexivity | exact IH].
Qed.

Lemma walk_to_redirection decls methodName d :
  forall rest c d_func r fuel,
    baseChain decls c rest ->
    forallb (fun m => negb (hasName methodName m)) (chainMethods decls (c :: rest)) = true ->
    match d_func with
    | Some x => Some x
    | None => List.find isDFunc (chainMethods decls (c :: rest))
    end = Some d ->
    lookUpLoop (S (List.length rest) + fuel) decls methodName (Some c) d_func [] r
    = lookUpLoop fuel decls methodName
        (getPointeeCXXRecordDecl (getResultType d)) None [] (S r).
Proof.
  induction rest as [|c' rest IH]; intros c d_func r fuel Hchain Hno Hd.
  - destruct Hchain as [Hdef Hbase].
    unfold chainMethods in Hno, Hd. simpl in Hno, Hd. rewrite app_nil_r in Hno, Hd.
    cbn [List.length Nat.add]. rewrite lookUpLoop_S.
    rewrite Hdef. cbn [negb].
    rewrite (scanMethods_no_match _ _ _ _ Hno), Hd, Hbase. reflexivity.
  - destruct Hchain as [Hdef [Hbase Hchain]].
    unfold chainMethods in Hno, Hd. simpl in Hno, Hd.
    rewrite forallb_app in Hno. apply andb_true_iff in Hno. destruct Hno as [Hno Hno'].
    rewrite find_app in Hd.
    cbn [List.length Nat.add]. rewrite lookUpLoop_S.
    rewrite Hdef. cbn [negb].
    rewrite (scanMethods_no_match _ _ _ _ Hno), Hbase.
    assert (Hstep :
      forall d',
        match d' with
        | Some d0 =>
            lookUpLoop (S (List.length rest) + fuel) decls methodName (Some c') d' [] r
        | None =>
            lookUpLoop (S (List.length rest) + fuel) decls methodName (Some c') None [] r
        end
        = lookUpLoop (S (List.length rest) + fuel) decls methodName (Some c') d' [] r).
    { intros [d0|]; reflexivity. }
    set (d1 := match d_func with
               | Some x => Some x
               | None => List.find isDFunc (methods (decls c))
               end) in *.
    transitivity (lookUpLoop (S (List.length rest) + fuel) decls methodName (Some c') d1 [] r).
    { destruct d1; reflexivity. }
    apply IH; [exact Hchain | exact Hno' |].
    subst d1. destruct d_func as [x|]; [exact Hd|].
    destruct (List.find isDFunc (methods (decls c))); exact Hd.
Qed.

(** C3, as the code has it.  When the walk from [A] goes through defined
    classes up to one without a base class, meets no method of the
    searched name, and the first [d_func] it meets (any method of that
    name with a return type) returns a pointer to [B], the lookup
    continues as the lookup in [B]; a class that is not defined at the end
    of the chain stops the walk instead.  [1 + length rest] iterations
    are spent on the chain. *)
Theorem locator_redirects_through_d_func :
  forall decls methodName A rest d fuel,
    baseChain decls A rest ->
    forallb (fun m => negb (hasName methodName m)) (chainMethods decls (A :: rest)) = true ->
    List.find isDFunc (chainMethods decls (A :: rest)) = Some d ->
    lookUpCandidates (S (List.length rest) + fuel) decls (Some A) methodName
    = lookUpCandidates fuel decls (getPointeeCXXRecordDecl (getResultType d)) methodName.
Proof.
  intros decls methodName A rest d fuel Hchain Hno Hd.
  unfold lookUpCandidates.
  rewrite (walk_to_redirection decls methodName d rest A None 0 fuel Hchain Hno Hd).
  apply lookUpLoop_counter.
Qed.

Lemma locator_redirects_through_d_func_witness :
  baseChain privateImplDecls "A"%string []
  /\ lookUpCandidates 3 privateImplDecls (Some "A"%string) (ofString "slotName")
     = lookUpCandidates 2 privateImplDecls (Some "B"%string) (ofString "slotName")
  /\ lookUpCandidates 3 privateImplDecls (Some "A"%string) (ofString "slotName")
     = Some [B_slotName]
  /\ handleSignalOrSlot 3 privateImplDecls (Some (pointerTo "A"%string))
       (Some (StringLiteral 1 "1slotName(int)" 1))
     = Some (RegisterUse B_slotName LiteralRange).
Proof.
  assert (Hchain : baseChain privateImplDecls "A"%string []) by (split; reflexivity).
  pose proof (locator_redirects_through_d_func privateImplDecls (ofString "slotName")
                "A"%string [] A_d_func 2 Hchain eq_refl eq_refl) as Hredirect.
  split; [exact Hchain|]. split; [exact Hredirect|]. split.
  - etransitivity; [exact Hredirect | reflexivity].
  - reflexivity.
Defined.

(** The claim as the specification words it: the signature
    [slotName(int)], without a marker character before the name.  The
    name the code looks up is [lotName], [B] has no such method, and no
    use is registered. *)
Lemma redirect_example_without_marker :
  option_map (fun p => string_of_list_ascii (chars (snd p)))
    (parseSignature (ofString "slotName(int)")) = Some "lotName"%string
  /\ lookUpCandidates 3 privateImplDecls (Some "A"%string) (ofString "lotName") = Some []
  /\ handleSignalOrSlot 3 privateImplDecls (Some (pointerTo "A"%string))
       (Some (StringLiteral 1 "slotName(int)" 1))
     = Some NoUse
  /\ handleSignalOrSlot 3 privateImplDecls (Some (pointerTo "A"%string))
       (Some (StringLiteral 1 "slotName(int)" 1))
     <> Some (RegisterUse B_slotName LiteralRange).
Proof.
  repeat split; try reflexivity. discriminate.
Qed.

(** ** A walk that does not end *)

(** The walk from [Self] for a name that neither class has: one
    iteration goes from [Self] to its base [QObject] with [Self::d_func]
    kept, the next is redirected from [QObject] back to [Self]. *)
Lemma self_walk_step fuel methodName r :
  equals methodName "d_func" = false ->
  equals methodName "deleteLater" = false ->
  lookUpLoop (S (S fuel)) selfDecls methodName (Some "Self"%string) None [] r
  = lookUpLoop fuel selfDecls methodName (Some "Self"%string) None [] (S r).
Proof.
  intros Hd Hl. rewrite !lookUpLoop_S. simpl. rewrite Hd, Hl. reflexivity.
Qed.

Lemma self_walk_never_ends methodName :
  equals methodName "d_func" = false ->
  equals methodName "deleteLater" = false ->
  forall fuel r,
    lookUpLoop fuel selfDecls methodName (Some "Self"%string) None [] r = None.
Proof.
  intros Hd Hl fuel.
  assert (Hboth : forall r,
             lookUpLoop fuel selfDecls methodName (Some "Self"%string) None [] r = None
             /\ lookUpLoop (S fuel) selfDecls methodName (Some "Self"%string) None [] r
                = None).
  { induction fuel as [|fuel IH]; intros r.
    - split; [reflexivity|].
      rewrite lookUpLoop_S. simpl. try rewrite Hd. reflexivity.
    - split; [apply IH|].
      rewrite (self_walk_step fuel methodName r Hd Hl). apply IH. }
  intros r. apply Hboth.
Qed.

(** C4, on the code.  For [class Self : public QObject { Self
    *d_func(); }] the walk for a name the classes do not have is
    redirected from [QObject] to [Self] again and again: no number of
    iterations ends it, and [handleSignalOrSlot] does not return.  And a
    redirection is taken more than once where the walk does end: from
    [P] it goes through [P::d_func] to [Q] and through [Q::d_func] to
    [R]. *)
Theorem locator_walk_may_not_end :
  (forall fuel,
      lookUpCandidates fuel selfDecls (Some "Self"%string) (ofString "run") = None)
  /\ (forall fuel,
        handleSignalOrSlot fuel selfDecls (Some (pointerTo "Self"%string))
          (Some (StringLiteral 1 "1run()" 1)) = None)
  /\ lookUpLoop 4 twoStepDecls (ofString "run") (Some "P"%string) None [] 0
     = Some ([R_run], 2).
Proof.
  split; [|split].
  - intros fuel. unfold lookUpCandidates.
    rewrite (self_walk_never_ends (ofString "run") eq_refl eq_refl). reflexivity.
  - intros fuel. unfold handleSignalOrSlot.
    change (objectClass (pointerTo "Self"%string) true) with (Some "Self"%string).
    cbn [signalOrSlotLiteral IgnoreImpCasts asStringLiteral Nat.eqb negb].
    unfold resolveSignature.
    change (parseSignature (ofString "1run()"))
      with (Some (ofString "1run()", 4, mkStringRef (Buffer (ofString "1run()")) 1 3)).
    cbv iota beta. unfold lookUpCandidates.
    rewrite (self_walk_never_ends
               (mkStringRef (Buffer (ofString "1run()")) 1 3) eq_refl eq_refl).
    reflexivity.
  - reflexivity.
Qed.

(** ** Resolutions of example signatures *)

(** A marker character as the SIGNAL and SLOT macros put one before the
    name ([1] or [2]): anything that is not trimmed, not a parenthesis and
    not the null character. *)
Ltac each_marker marker Htrim Hl Hr Hz :=
  destruct marker as [[] [] [] [] [] [] [] []];
  try discriminate Htrim;
  try (exfalso; apply Hl; reflexivity);
  try (exfalso; apply Hr; reflexivity);
  try (exfalso; apply Hz; reflexivity).

(** The claim C2 as the specification words it: the three signatures
    without a marker character.  The code takes the name from index 1 on,
    looks up [ncrement], finds no candidate, and registers nothing for
    [increment(int)] and [increment()]. *)
Lemma counter_without_marker :
  option_map (fun p => string_of_list_ascii (chars (snd p)))
    (parseSignature (ofString "increment(int)")) = Some "ncrement"%string
  /\ handleSignalOrSlot 2 counterDecls (Some (pointerTo "Counter"%string))
       (Some (StringLiteral 1 "increment(int)" 1)) = Some NoUse
  /\ handleSignalOrSlot 2 counterDecls (Some (pointerTo "Counter"%string))
       (Some (StringLiteral 1 "increment()" 1)) = Some NoUse
  /\ handleSignalOrSlot 2 counterDecls (Some (pointerTo "Counter"%string))
       (Some (StringLiteral 1 "increment(int)" 1))
     <> Some (RegisterUse increment1 LiteralRange).
Proof.
  split; [reflexivity|]. split; [reflexivity|]. split; [reflexivity|].
  intros H. vm_compute in H. discriminate H.
Qed.

(** C2, as the code has it: with a marker character before the name,
    [increment(int)] resolves to the overload with an [int],
    [increment()] to the one without parameters, and
    [increment(QString)] to nothing. *)
Theorem counter_overloads_resolve :
  forall (marker : ascii) (fuel : nat),
    isTrimChar marker = false ->
    marker <> "("%char -> marker <> ")"%char -> marker <> zero ->
    2 <= fuel ->
    handleSignalOrSlot fuel counterDecls (Some (pointerTo "Counter"%string))
      (Some (StringLiteral 1 (String marker "increment(int)") 1))
    = Some (RegisterUse increment1 LiteralRange)
    /\ handleSignalOrSlot fuel counterDecls (Some (pointerTo "Counter"%string))
         (Some (StringLiteral 1 (String marker "increment()") 1))
       = Some (RegisterUse increment0 LiteralRange)
    /\ handleSignalOrSlot fuel counterDecls (Some (pointerTo "Counter"%string))
         (Some (StringLiteral 1 (String marker "increment(QString)") 1))
       = Some NoUse.
Proof.
  intros marker fuel Htrim Hl Hr Hz Hfuel.
  destruct fuel as [|[|fuel]]; [lia | lia |].
  each_marker marker Htrim Hl Hr Hz; repeat split; vm_compute; reflexivity.
Qed.

Lemma counter_overloads_resolve_witness :
  handleSignalOrSlot 2 counterDecls (Some (pointerTo "Counter"%string))
    (Some (StringLiteral 1 "2increment(int)" 1))
  = Some (RegisterUse increment1 LiteralRange)
  /\ handleSignalOrSlot 2 counterDecls (Some (pointerTo "Counter"%string))
       (Some (StringLiteral 1 "2increment()" 1))
     = Some (RegisterUse increment0 LiteralRange)
  /\ handleSignalOrSlot 2 counterDecls (Some (pointerTo "Counter"%string))
       (Some (StringLiteral 1 "2increment(QString)" 1))
     = Some NoUse.
Proof.
  apply (counter_overloads_resolve "2"%char 2).
  - reflexivity.
  - discriminate.
  - discriminate.
  - discriminate.
  - lia.
Defined.

(** The claim C6 as the specification words it: [f(QMap<int,QString>,int)]
    has its [(] at index 1, below 2, so the code rejects it before any
    argument is read; nothing is tokenized, and a class that declares
    [f(QMap<int, QString>, int)] gets no use registered. *)
Lemma nested_signature_without_marker :
  find (ofString "f(QMap<int,QString>,int)") "(" = Some 1
  /\ parseSignature (ofString "f(QMap<int,QString>,int)") = None
  /\ tokenize (ofString "f(QMap<int,QString>,int)") = None
  /\ handleSignalOrSlot 2 tableDecls (Some (pointerTo "Table"%string))
       (Some (StringLiteral 1 "f(QMap<int,QString>,int)" 1)) = Some NoUse.
Proof. repeat split; reflexivity. Qed.

(** C6, as the code has it: with a marker character before the name the
    signature is accepted and gives the two arguments [QMap<int,QString>]
    and [int]; the comma inside the angle brackets does not split the
    first one, and the method of [Table] is found. *)
Theorem nested_signature_two_arguments :
  forall (marker : ascii) (fuel : nat),
    isTrimChar marker = false ->
    marker <> "("%char -> marker <> ")"%char -> marker <> zero ->
    2 <= fuel ->
    tokenize (ofString (String marker "f(QMap<int,QString>,int)"))
    = Some (list_ascii_of_string "f",
            [list_ascii_of_string "QMap<int,QString>"; list_ascii_of_string "int"])
    /\ handleSignalOrSlot fuel tableDecls (Some (pointerTo "Table"%string))
         (Some (StringLiteral 1 (String marker "f(QMap<int,QString>,int)") 1))
       = Some (RegisterUse Table_f LiteralRange).
Proof.
  intros marker fuel Htrim Hl Hr Hz Hfuel.
  destruct fuel as [|[|fuel]]; [lia | lia |].
  each_marker marker Htrim Hl Hr Hz; split; vm_compute; reflexivity.
Qed.

Lemma nested_signature_two_arguments_witness :
  tokenize (ofString "1f(QMap<int,QString>,int)")
  = Some (list_ascii_of_string "f",
          [list_ascii_of_string "QMap<int,QString>"; list_ascii_of_string "int"])
  /\ handleSignalOrSlot 2 tableDecls (Some (pointerTo "Table"%string))
       (Some (StringLiteral 1 "1f(QMap<int,QString>,int)" 1))
     = Some (RegisterUse Table_f LiteralRange).
Proof.
  apply (nested_signature_two_arguments "1"%char 2).
  - reflexivity.
  - discriminate.
  - discriminate.
  - discriminate.
  - lia.
Defined.

(** ** The comparison of type texts *)

(** The claim C8 as the specification words it: the argument
    [unsigned int] against a parameter of type [int], and the other way
    round.  The first characters [u] and [i] differ, neither is a space
    nor an [n], and the loop stops: unequal. *)
Lemma unsigned_int_is_not_int :
  judgedEqual "unsigned int" intType = false
  /\ judgedEqual "int" unsignedIntType = false
  /\ compareLoop 20 (list_ascii_of_string "unsigned int") 0 12
       (list_ascii_of_string "int") 0 3 = (0, 0).
Proof. repeat split; reflexivity. Qed.

(** C8, as the code has it: [const QString &] equals a parameter of type
    [QString] (and of type [const QString &]); the text [nsigned ] is
    skipped where it follows a matched [u], which makes [uint] equal to
    [unsigned int] in either role, while [unsigned int] and [int] are
    unequal; [QString] and [QStringList] are unequal in either role. *)
Theorem normalizer_examples :
  judgedEqual "const QString &" QStringType = true
  /\ judgedEqual "const QString &" constQStringRef = true
  /\ judgedEqual "QString" constQStringRef = true
  /\ judgedEqual "uint" unsignedIntType = true
  /\ judgedEqual "unsigned int" (Named "uint" false None) = true
  /\ judgedEqual "unsigned  int" unsignedIntType = true
  /\ judgedEqual "unsigned int" intType = false
  /\ judgedEqual "int" unsignedIntType = false
  /\ judgedEqual "QString" QStringListType = false
  /\ judgedEqual "QStringList" QStringType = false.
Proof. repeat split; reflexivity. Qed.

(** ** The scan for the end of an argument *)

Lemma skipTemplate_S fuel signature searchPos depth templDepth :
  skipTemplate (S fuel) signature searchPos depth templDepth
  = if (searchPos <? size signature) && (0 <=? depth)%Z && (0 <=? templDepth)%Z
    then skipTemplate fuel signature (S searchPos)
           (fst (nestStep (charAt signature searchPos) depth templDepth))
           (snd (nestStep (charAt signature searchPos) depth templDepth))
    else searchPos.
Proof.
  simpl. destruct (nestStep (charAt signature searchPos) depth templDepth). reflexivity.
Qed.

Lemma findTerminator_S fuel signature searchPos :
  findTerminator (S fuel) signature searchPos
  = if (searchPos <? size signature)
       && negb (isChar "," (charAt signature searchPos))
       && negb (isChar ")" (charAt signature searchPos))
    then
      if isChar "<" (charAt signature searchPos) then
        findTerminator fuel signature
          (skipTemplate (size signature - S searchPos) signature (S searchPos) 0 0)
      else findTerminator fuel signature (S searchPos)
    else searchPos.
Proof. reflexivity. Qed.

Lemma countersAfter_S signature pos n depth templDepth :
  countersAfter signature pos (S n) depth templDepth
  = countersAfter signature (S pos) n
      (fst (nestStep (charAt signature pos) depth templDepth))
      (snd (nestStep (charAt signature pos) depth templDepth)).
Proof.
  simpl. destruct (nestStep (charAt signature pos) depth templDepth). reflexivity.
Qed.

Lemma nonNegative_iff depth templDepth :
  nonNegative (depth, templDepth) <-> ((0 <=? depth)%Z && (0 <=? templDepth)%Z = true).
Proof.
  unfold nonNegative. simpl. rewrite andb_true_iff, !Z.leb_le. reflexivity.
Qed.

(** The inner loop never steps back and never leaves the signature. *)
Lemma skipTemplate_bounds fuel signature :
  forall searchPos depth templDepth,
    searchPos <= skipTemplate fuel signature searchPos depth templDepth
    /\ (searchPos <= size signature ->
        skipTemplate fuel signature searchPos depth templDepth <= size signature).
Proof.
  induction fuel as [|fuel IH]; intros searchPos depth templDepth.
  - simpl. lia.
  - rewrite skipTemplate_S.
    destruct ((searchPos <? size signature) && (0 <=? depth)%Z && (0 <=? templDepth)%Z)
      eqn:Hcond; [|lia].
    apply andb_true_iff in Hcond. destruct Hcond as [Hcond _].
    apply andb_true_iff in Hcond. destruct Hcond as [Hlt _].
    apply Nat.ltb_lt in Hlt.
    destruct (IH (S searchPos)
                (fst (nestStep (charAt signature searchPos) depth templDepth))
                (snd (nestStep (charAt signature searchPos) depth templDepth)))
      as [Hge Hle].
    split; [lia | intros _; apply Hle; lia].
Qed.

(** [size signature - searchPos] iterations are all the inner loop can
    make: with that many or more the result is the same. *)
Lemma skipTemplate_fuel signature :
  forall fuel1 fuel2 searchPos depth templDepth,
    size signature - searchPos <= fuel1 ->
    size signature - searchPos <= fuel2 ->
    skipTemplate fuel1 signature searchPos depth templDepth
    = skipTemplate fuel2 signature searchPos depth templDepth.
Proof.
  induction fuel1 as [|fuel1 IH]; intros fuel2 searchPos depth templDepth H1 H2.
  - destruct fuel2 as [|fuel2]; [reflexivity|].
    rewrite skipTemplate_S.
    assert (Hlt : (searchPos <? size signature) = false) by (apply Nat.ltb_ge; lia).
    rewrite Hlt. reflexivity.
  - destruct fuel2 as [|fuel2].
    + rewrite skipTemplate_S.
      assert (Hlt : (searchPos <? size signature) = false) by (apply Nat.ltb_ge; lia).
      rewrite Hlt. reflexivity.
    + rewrite !skipTemplate_S.
      destruct ((searchPos <? size signature) && (0 <=? depth)%Z && (0 <=? templDepth)%Z);
        [|reflexivity].
      apply IH; lia.
Qed.

(** The outer loop never steps back and never leaves the signature. *)
Lemma findTerminator_bounds fuel signature :
  forall searchPos,
    searchPos <= findTerminator fuel signature searchPos
    /\ (searchPos <= size signature ->
        findTerminator fuel signature searchPos <= size signature).
Proof.
  induction fuel as [|fuel IH]; intros searchPos.
  - simpl. lia.
  - rewrite findTerminator_S.
    destruct ((searchPos <? size signature)
              && negb (isChar "," (charAt signature searchPos))
              && negb (isChar ")" (charAt signature searchPos))) eqn:Hcond; [|lia].
    apply andb_true_iff in Hcond. destruct Hcond as [Hcond _].
    apply andb_true_iff in Hcond. destruct Hcond as [Hlt _].
    apply Nat.ltb_lt in Hlt.
    destruct (isChar "<" (charAt signature searchPos)).
    + destruct (skipTemplate_bounds (size signature - S searchPos) signature
                  (S searchPos) 0 0) as [Hge Hle].
      destruct (IH (skipTemplate (size signature - S searchPos) signature
                      (S searchPos) 0 0)) as [Hge' Hle'].
      split; [lia | intros _; apply Hle'; apply Hle; lia].
    + destruct (IH (S searchPos)) as [Hge Hle].
      split; [lia | intros _; apply Hle; lia].
Qed.

Lemma findTerminator_fuel signature :
  forall fuel1 fuel2 searchPos,
    size signature - searchPos <= fuel1 ->
    size signature - searchPos <= fuel2 ->
    findTerminator fuel1 signature searchPos = findTerminator fuel2 signature searchPos.
Proof.
  induction fuel1 as [|fuel1 IH]; intros fuel2 searchPos H1 H2.
  - destruct fuel2 as [|fuel2]; [reflexivity|].
    rewrite findTerminator_S.
    assert (Hlt : (searchPos <? size signature) = false) by (apply Nat.ltb_ge; lia).
    rewrite Hlt. reflexivity.
  - destruct fuel2 as [|fuel2].
    + rewrite findTerminator_S.
      assert (Hlt : (searchPos <? size signature) = false) by (apply Nat.ltb_ge; lia).
      rewrite Hlt. reflexivity.
    + rewrite !findTerminator_S.
      destruct ((searchPos <? size signature)
                && negb (isChar "," (charAt signature searchPos))
                && negb (isChar ")" (charAt signature searchPos))); [|reflexivity].
      destruct (isChar "<" (charAt signature searchPos)).
      * pose proof (skipTemplate_bounds (size signature - S searchPos) signature
                      (S searchPos) 0 0) as [Hge _].
        apply IH; lia.
      * apply IH; lia.
Qed.

(** The inner loop stops at the first position where a counter is
    negative, or at the end of the signature. *)
Lemma skipTemplate_stops signature :
  forall steps fuel searchPos depth templDepth,
    searchPos + steps <= size signature ->
    steps <= fuel ->
    (forall n, n < steps -> nonNegative (countersAfter signature searchPos n depth templDepth)) ->
    (searchPos + steps = size signature
     \/ ~ nonNegative (countersAfter signature searchPos steps depth templDepth)) ->
    skipTemplate fuel signature searchPos depth templDepth = searchPos + steps.
Proof.
  induction steps as [|steps IH]; intros fuel searchPos depth templDepth Hsize Hfuel Hopen Hend.
  - rewrite Nat.add_0_r in *.
    destruct fuel as [|fuel]; [reflexivity|].
    rewrite skipTemplate_S.
    destruct Hend as [Hend | Hend].
    + assert (Hlt : (searchPos <? size signature) = false) by (apply Nat.ltb_ge; lia).
      rewrite Hlt. reflexivity.
    + simpl in Hend. rewrite nonNegative_iff in Hend.
      apply not_true_is_false in Hend.
      rewrite <- andb_assoc, Hend, andb_false_r. reflexivity.
  - destruct fuel as [|fuel]; [lia|].
    rewrite skipTemplate_S.
    assert (Hlt : (searchPos <? size signature) = true) by (apply Nat.ltb_lt; lia).
    pose proof (Hopen 0 ltac:(lia)) as H0. simpl in H0.
    rewrite nonNegative_iff in H0.
    rewrite <- andb_assoc, Hlt, H0. cbn [andb].
    rewrite (IH fuel (S searchPos)); [lia | lia | lia | |].
    + intros n Hn. rewrite <- countersAfter_S. apply Hopen. lia.
    + rewrite <- countersAfter_S. destruct Hend as [Hend | Hend]; [left; lia | right; exact Hend].
Qed.

(** The inner loop goes past every position that lies in the group. *)
Lemma skipTemplate_passes signature :
  forall steps fuel searchPos depth templDepth,
    searchPos + steps < size signature ->
    steps < fuel ->
    (forall n, n <= steps -> nonNegative (countersAfter signature searchPos n depth templDepth)) ->
    searchPos + steps < skipTemplate fuel signature searchPos depth templDepth.
Proof.
  induction steps as [|steps IH]; intros fuel searchPos depth templDepth Hsize Hfuel Hopen.
  - destruct fuel as [|fuel]; [lia|].
    rewrite skipTemplate_S.
    assert (Hlt : (searchPos <? size signature) = true) by (apply Nat.ltb_lt; lia).
    pose proof (Hopen 0 ltac:(lia)) as H0. simpl in H0. rewrite nonNegative_iff in H0.
    rewrite <- andb_assoc, Hlt, H0. cbn [andb].
    pose proof (skipTemplate_bounds fuel signature (S searchPos)
                  (fst (nestStep (charAt signature searchPos) depth templDepth))
                  (snd (nestStep (charAt signature searchPos) depth templDepth)))
      as [Hge _].
    lia.
  - destruct fuel as [|fuel]; [lia|].
    rewrite skipTemplate_S.
    assert (Hlt : (searchPos <? size signature) = true) by (apply Nat.ltb_lt; lia).
    pose proof (Hopen 0 ltac:(lia)) as H0. simpl in H0. rewrite nonNegative_iff in H0.
    rewrite <- andb_assoc, Hlt, H0. cbn [andb].
    assert (Hrec : S searchPos + steps
                   < skipTemplate fuel signature (S searchPos)
                       (fst (nestStep (charAt signature searchPos) depth templDepth))
                       (snd (nestStep (charAt signature searchPos) depth templDepth))).
    { apply IH; [lia | lia |].
      intros n Hn. rewrite <- countersAfter_S. apply Hopen. lia. }
    lia.
Qed.

Lemma TopLevel_bounds signature argPos p :
  argPos <= size signature -> TopLevel signature argPos p ->
  argPos <= p <= size signature.
Proof.
  intros Hsize Htop. induction Htop; lia.
Qed.

(** The scan from [argPos] is the scan from any position it visits
    outside the groups. *)
Lemma findTerminator_from_TopLevel signature argPos p :
  argPos <= size signature ->
  TopLevel signature argPos p ->
  findTerminator (size signature - argPos) signature argPos
  = findTerminator (size signature - p) signature p.
Proof.
  intros Hsize Htop. induction Htop as [|p Htop IH Hlt Hcomma Hparen Hangle
                                        |p q Htop IH Hlt Hangle Hq Hopen Hend].
  - reflexivity.
  - rewrite IH.
    replace (size signature - p) with (S (size signature - S p)) by lia.
    rewrite findTerminator_S.
    apply Nat.ltb_lt in Hlt. rewrite Hlt, Hcomma, Hparen, Hangle. reflexivity.
  - rewrite IH.
    pose proof (TopLevel_bounds signature argPos p Hsize Htop) as Hp.
    replace (size signature - p) with (S (size signature - S p)) by lia.
    rewrite findTerminator_S.
    assert (Hcomma : isChar "," (charAt signature p) = false).
    { unfold isChar in *. apply Ascii.eqb_eq in Hangle. rewrite Hangle. reflexivity. }
    assert (Hparen : isChar ")" (charAt signature p) = false).
    { unfold isChar in *. apply Ascii.eqb_eq in Hangle. rewrite Hangle. reflexivity. }
    apply Nat.ltb_lt in Hlt. rewrite Hlt, Hcomma, Hparen, Hangle. cbn [andb negb].
    rewrite (skipTemplate_stops signature (q - S p) (size signature - S p) (S p) 0 0);
      [| lia | lia | exact Hopen |].
    + replace (S p + (q - S p)) with q by lia.
      apply findTerminator_fuel; lia.
    + destruct Hend as [Hend | Hend]; [left; lia | right; exact Hend].
Qed.

(** C5, as the code has it.  The scan for the end of an argument tracks
    nesting only from a [<] that it meets outside every group: from there
    the two counters run, and no position that lies in that group, be it
    a comma, is taken for the end of the argument.  (Brackets outside
    angle brackets open no group.) *)
Theorem angle_group_hides_separators :
  forall signature argPos p k,
    argPos <= size signature ->
    TopLevel signature argPos p ->
    isChar "<" (charAt signature p) = true ->
    inAngleGroup signature p k ->
    k < size signature ->
    k < findTerminator (size signature - argPos) signature argPos.
Proof.
  intros signature argPos p k Hsize Htop Hangle [Hpk Hopen] Hk.
  rewrite (findTerminator_from_TopLevel signature argPos p Hsize Htop).
  replace (size signature - p) with (S (size signature - S p)) by lia.
  rewrite findTerminator_S.
  assert (Hcomma : isChar "," (charAt signature p) = false).
  { unfold isChar in *. apply Ascii.eqb_eq in Hangle. rewrite Hangle. reflexivity. }
  assert (Hparen : isChar ")" (charAt signature p) = false).
  { unfold isChar in *. apply Ascii.eqb_eq in Hangle. rewrite Hangle. reflexivity. }
  assert (Hlt : (p <? size signature) = true) by (apply Nat.ltb_lt; lia).
  rewrite Hlt, Hcomma, Hparen, Hangle. cbn [andb negb].
  pose proof (skipTemplate_passes signature (k - S p) (size signature - S p) (S p) 0 0)
    as Hpass.
  assert (Hskip : S p + (k - S p)
                  < skipTemplate (size signature - S p) signature (S p) 0 0).
  { apply Hpass; [lia | lia |].
    intros [|n] Hn; [split; simpl; lia|]. apply Hopen. lia. }
  pose proof (findTerminator_bounds (size signature - S p) signature
                (skipTemplate (size signature - S p) signature (S p) 0 0)) as [Hge _].
  lia.
Qed.

Lemma angle_group_hides_separators_witness :
  let signature := ofString "1f(QMap<int,QString>,int)" in
  charAt signature 7 = "<"%char
  /\ charAt signature 11 = ","%char
  /\ inAngleGroup signature 7 11
  /\ 11 < findTerminator (size signature - 3) signature 3
  /\ findTerminator (size signature - 3) signature 3 = 20.
Proof.
  intros signature.
  assert (Htop : TopLevel signature 3 7).
  { do 4 (apply TopChar; [| vm_compute; lia | reflexivity | reflexivity | reflexivity]).
    apply TopStart. }
  assert (Hin : inAngleGroup signature 7 11).
  { split; [lia|]. intros n Hn.
    assert (Hcases : n = 0 \/ n = 1 \/ n = 2) by lia.
    destruct Hcases as [-> | [-> | ->]]; split; vm_compute; discriminate. }
  split; [reflexivity|]. split; [reflexivity|]. split; [exact Hin|]. split.
  - apply (angle_group_hides_separators signature 3 7 11).
    + vm_compute. lia.
    + exact Htop.
    + reflexivity.
    + exact Hin.
    + vm_compute. lia.
  - reflexivity.
Defined.

(** The claim C5 as the specification words it, for a group opened by a
    bracket or a parenthesis outside angle brackets: in [1f(a[b,c])] the
    comma at index 6 lies between the [[] at 4 and the []] at 8, and the
    scan takes it for the end of the first argument, which comes out as
    [a[b]; in [1f(A(1,2))] the comma between the parentheses splits as
    well, and the signature is rejected at the first [)]. *)
Lemma bracket_group_is_split :
  let signature := ofString "1f(a[b,c])" in
  charAt signature 4 = "["%char
  /\ charAt signature 6 = ","%char
  /\ charAt signature 8 = "]"%char
  /\ findTerminator (size signature - 3) signature 3 = 6
  /\ tokenize signature
     = Some (list_ascii_of_string "f",
             [list_ascii_of_string "a[b"; list_ascii_of_string "c]"])
  /\ findTerminator 7 (ofString "1f(A(1,2))") 3 = 6
  /\ tokenize (ofString "1f(A(1,2))") = None.
Proof. repeat split; reflexivity. Qed.

(** ** Windows and their characters *)

Lemma wellFormed_ofChars l : wellFormed (ofChars l).
Proof. unfold wellFormed. simpl. lia. Qed.

Lemma chars_ofChars l : chars (ofChars l) = l.
Proof. unfold chars. simpl. apply firstn_all. Qed.

Lemma length_chars s : wellFormed s -> List.length (chars s) = Length s.
Proof.
  unfold wellFormed, chars. intros Hwf.
  rewrite length_firstn, length_skipn. lia.
Qed.

Lemma length_chars_le s : List.length (chars s) <= Length s.
Proof. unfold chars. apply firstn_le_length. Qed.

Lemma charAt_chars s i : i < Length s -> charAt s i = nth i (chars s) zero.
Proof.
  intros Hi. unfold charAt, chars.
  rewrite nth_firstn. apply Nat.ltb_lt in Hi. rewrite Hi.
  rewrite nth_skipn. reflexivity.
Qed.

Lemma skipn_cons_nth {A} (l : list A) pos x rest d :
  skipn pos l = x :: rest ->
  pos < List.length l /\ nth pos l d = x /\ skipn (S pos) l = rest.
Proof.
  revert pos. induction l as [|y l IH]; intros pos H.
  - rewrite skipn_nil in H. discriminate.
  - destruct pos as [|pos].
    + simpl in H. injection H as -> ->. simpl. repeat split. lia.
    + simpl in H. destruct (IH pos H) as (Hlt & Hnth & Hskip).
      simpl. repeat split; [lia | exact Hnth | exact Hskip].
Qed.

(** What the scan reads at [pos] when the characters from [pos] on are
    known. *)
Lemma chars_from signature pos x rest :
  skipn pos (chars signature) = x :: rest ->
  pos < size signature
  /\ charAt signature pos = x
  /\ skipn (S pos) (chars signature) = rest.
Proof.
  intros H. destruct (skipn_cons_nth _ _ _ _ zero H) as (Hlt & Hnth & Hskip).
  pose proof (length_chars_le signature) as Hle.
  assert (Hpos : pos < Length signature) by lia.
  unfold size. repeat split; [exact Hpos | | exact Hskip].
  rewrite charAt_chars by exact Hpos. exact Hnth.
Qed.

(** A window inside a window. *)
Lemma chars_window s start n :
  start + n <= Length s ->
  chars (mkStringRef (Buffer s) (Data s + start) n)
  = firstn n (skipn start (chars s)).
Proof.
  intros Hle. unfold chars. simpl.
  rewrite skipn_firstn_comm, firstn_firstn, skipn_skipn.
  replace (Nat.min n (Length s - start)) with n by lia.
  replace (start + Data s) with (Data s + start) by lia. reflexivity.
Qed.

Lemma wellFormed_window s start n :
  wellFormed s -> start + n <= Length s ->
  wellFormed (mkStringRef (Buffer s) (Data s + start) n).
Proof. unfold wellFormed. simpl. lia. Qed.

Lemma countWhile_le p l : countWhile p l <= List.length l.
Proof. induction l as [|x l IH]; simpl; [lia|]. destruct (p x); simpl; lia. Qed.

Lemma skipn_countWhile p l : skipn (countWhile p l) l = dropWhile p l.
Proof.
  induction l as [|x l IH]; simpl; [reflexivity|].
  destruct (p x); [exact IH | reflexivity].
Qed.

Lemma wellFormed_ltrim s : wellFormed s -> wellFormed (ltrim s).
Proof.
  intros Hwf. pose proof (countWhile_le isTrimChar (chars s)) as Hle.
  rewrite (length_chars s Hwf) in Hle.
  unfold ltrim. apply wellFormed_window; [exact Hwf | lia].
Qed.

Lemma chars_ltrim s : wellFormed s -> chars (ltrim s) = dropWhile isTrimChar (chars s).
Proof.
  intros Hwf. pose proof (countWhile_le isTrimChar (chars s)) as Hle.
  pose proof (length_chars s Hwf) as Hlen. rewrite Hlen in Hle.
  unfold ltrim. rewrite chars_window by lia.
  rewrite firstn_all2 by (rewrite length_skipn; lia).
  apply skipn_countWhile.
Qed.

Lemma wellFormed_rtrim s : wellFormed s -> wellFormed (rtrim s).
Proof. unfold wellFormed, rtrim. simpl. lia. Qed.

Lemma chars_rtrim s :
  wellFormed s -> chars (rtrim s) = rev (dropWhile isTrimChar (rev (chars s))).
Proof.
  intros Hwf. pose proof (length_chars s Hwf) as Hlen.
  rewrite <- skipn_countWhile, skipn_rev, rev_involutive, Hlen.
  unfold rtrim.
  replace (Data s) with (Data s + 0) at 1 by lia.
  rewrite chars_window by lia. reflexivity.
Qed.

Lemma wellFormed_trim s : wellFormed s -> wellFormed (trim s).
Proof. intros Hwf. apply wellFormed_rtrim, wellFormed_ltrim, Hwf. Qed.

Lemma chars_trim s : wellFormed s -> chars (trim s) = trimChars (chars s).
Proof.
  intros Hwf. unfold trim, trimChars.
  rewrite chars_rtrim by (apply wellFormed_ltrim; exact Hwf).
  rewrite chars_ltrim by exact Hwf. reflexivity.
Qed.

Lemma isPrefix_length p l : isPrefix p l = true -> List.length p <= List.length l.
Proof.
  revert l. induction p as [|x p IH]; intros l H; simpl; [lia|].
  destruct l as [|y l]; [discriminate|].
  simpl in H. apply andb_true_iff in H. destruct H as [_ H].
  specialize (IH l H). simpl. lia.
Qed.

Lemma isPrefix_firstn p l n :
  List.length p <= n -> isPrefix p (firstn n l) = isPrefix p l.
Proof.
  revert l n. induction p as [|x p IH]; intros l n Hn; [reflexivity|].
  simpl in Hn. destruct n as [|n]; [lia|].
  destruct l as [|y l]; [reflexivity|].
  simpl. rewrite IH by lia. reflexivity.
Qed.

Lemma length_list_ascii_of_string t :
  List.length (list_ascii_of_string t) = String.length t.
Proof. induction t as [|c t IH]; simpl; [reflexivity | rewrite IH; reflexivity]. Qed.

Lemma starts_with_chars s prefix :
  wellFormed s ->
  starts_with s prefix = isPrefix (list_ascii_of_string prefix) (chars s).
Proof.
  intros Hwf. unfold starts_with, chars.
  destruct (String.length prefix <=? Length s) eqn:Hlen.
  - apply Nat.leb_le in Hlen.
    rewrite isPrefix_firstn by (rewrite length_list_ascii_of_string; exact Hlen).
    reflexivity.
  - apply Nat.leb_gt in Hlen. simpl.
    destruct (isPrefix (list_ascii_of_string prefix)
                (firstn (Length s) (skipn (Data s) (Buffer s)))) eqn:Hp; [|reflexivity].
    apply isPrefix_length in Hp.
    rewrite length_list_ascii_of_string in Hp.
    pose proof (firstn_le_length (Length s) (skipn (Data s) (Buffer s))). lia.
Qed.

Lemma ends_with_chars s suffix :
  wellFormed s ->
  ends_with s suffix = isPrefix (rev (list_ascii_of_string suffix)) (rev (chars s)).
Proof.
  intros Hwf. unfold ends_with.
  destruct (String.length suffix <=? Length s) eqn:Hlen; [reflexivity|].
  apply Nat.leb_gt in Hlen. simpl.
  destruct (isPrefix (rev (list_ascii_of_string suffix)) (rev (chars s))) eqn:Hp;
    [|reflexivity].
  apply isPrefix_length in Hp.
  rewrite !length_rev, length_list_ascii_of_string, (length_chars s Hwf) in Hp. lia.
Qed.

Lemma wellFormed_substr s start n : wellFormed s -> wellFormed (substr s start n).
Proof. unfold wellFormed, substr. destruct n; simpl; lia. Qed.

Lemma chars_substr s start n :
  start + n <= Length s ->
  chars (substr s start (Some n)) = firstn n (skipn start (chars s)).
Proof.
  intros Hle. unfold substr.
  replace (Nat.min start (Length s)) with start by lia.
  replace (Nat.min n (Length s - start)) with n by lia.
  apply chars_window. exact Hle.
Qed.

Lemma wellFormed_slice s start stop : wellFormed s -> wellFormed (slice s start stop).
Proof. unfold wellFormed, slice. destruct stop; simpl; lia. Qed.

Lemma chars_slice s start stop :
  start <= stop <= Length s ->
  chars (slice s start (Some stop)) = firstn (stop - start) (skipn start (chars s)).
Proof.
  intros Hle. unfold slice.
  replace (Nat.min start (Length s)) with start by lia.
  replace (Nat.min (Nat.max start stop) (Length s)) with stop by lia.
  apply chars_window. lia.
Qed.

(** The argument the code extracts is the fragment of the
    specification. *)
Lemma const_reference_length t :
  isPrefix (list_ascii_of_string "const ") t = true ->
  isPrefix (list_ascii_of_string "&") (rev t) = true ->
  7 <= List.length t.
Proof.
  intros Hp Hs. pose proof (isPrefix_length _ _ Hp) as Hlen.
  destruct t as [|c1 [|c2 [|c3 [|c4 [|c5 [|c6 [|c7 t]]]]]]]; simpl in Hlen; try lia;
    [|simpl; lia].
  cbn [isPrefix list_ascii_of_string rev app] in Hp, Hs.
  repeat rewrite andb_true_iff in Hp. rewrite andb_true_iff in Hs.
  destruct Hp as (_ & _ & _ & _ & _ & H6 & _). destruct Hs as [Hs _].
  apply Ascii.eqb_eq in H6, Hs. subst c6. discriminate Hs.
Qed.

Lemma chars_extractArgument signature argPos a sep rest :
  wellFormed signature ->
  skipn argPos (chars signature) = (a ++ sep :: rest)%list ->
  chars (extractArgument signature argPos (argPos + List.length a)) = fragment a
  /\ wellFormed (extractArgument signature argPos (argPos + List.length a)).
Proof.
  intros Hwf Hskip.
  assert (Hlen : argPos + List.length a <= Length signature).
  { pose proof (f_equal (@List.length ascii) Hskip) as H.
    rewrite length_skipn, length_app, (length_chars signature Hwf) in H.
    simpl in H. lia. }
  unfold extractArgument, fragment.
  replace (argPos + List.length a - argPos) with (List.length a) by lia.
  set (sub := substr signature argPos (Some (List.length a))).
  assert (Hsubwf : wellFormed sub) by (apply wellFormed_substr; exact Hwf).
  assert (Hsub : chars sub = a).
  { unfold sub. rewrite chars_substr by exact Hlen. rewrite Hskip.
    rewrite firstn_app, Nat.sub_diag, firstn_all. simpl. apply app_nil_r. }
  assert (Htwf : wellFormed (trim sub)) by (apply wellFormed_trim; exact Hsubwf).
  assert (Ht : chars (trim sub) = trimChars a).
  { rewrite chars_trim by exact Hsubwf. rewrite Hsub. reflexivity. }
  rewrite starts_with_chars, ends_with_chars by exact Htwf.
  rewrite Ht. change (rev (list_ascii_of_string "&")) with (list_ascii_of_string "&").
  destruct (isPrefix (list_ascii_of_string "const ") (trimChars a)) eqn:Hp;
    [|split; [exact Ht | exact Htwf]].
  destruct (isPrefix (list_ascii_of_string "&") (rev (trimChars a))) eqn:Hs;
    [|split; [exact Ht | exact Htwf]].
  cbn [andb].
  pose proof (const_reference_length _ Hp Hs) as H7.
  pose proof (length_chars _ Htwf) as Hl. rewrite Ht in Hl.
  split.
  - rewrite chars_trim by (apply wellFormed_slice; exact Htwf).
    unfold size. rewrite chars_slice by lia.
    rewrite Ht, <- Hl.
    replace (List.length (trimChars a) - 1 - 6) with (List.length (trimChars a) - 7) by lia.
    reflexivity.
  - apply wellFormed_trim, wellFormed_slice. exact Htwf.
Qed.

(** ** The scan over an argument without separators outside its groups *)

Lemma skipn_after {A} (l a rest : list A) pos :
  skipn pos l = (a ++ rest)%list -> skipn (pos + List.length a) l = rest.
Proof.
  intros H. rewrite Nat.add_comm, <- skipn_skipn, H.
  rewrite skipn_app, Nat.sub_diag, skipn_all. reflexivity.
Qed.

Lemma chars_from_length signature pos a sep rest :
  skipn pos (chars signature) = (a ++ sep :: rest)%list ->
  pos + List.length a < size signature.
Proof.
  intros H. apply skipn_after in H.
  destruct (chars_from signature _ _ _ H) as [Hlt _]. exact Hlt.
Qed.

Lemma findTerminator_clean signature sep rest :
  isChar "," sep || isChar ")" sep = true ->
  forall a group pos,
    topLevelClean group a = true ->
    skipn pos (chars signature) = (a ++ sep :: rest)%list ->
    match group with
    | None =>
        forall fuel, List.length a <= fuel ->
          findTerminator fuel signature pos = pos + List.length a
    | Some (depth, templDepth) =>
        (0 <= depth)%Z -> (0 <= templDepth)%Z ->
        forall fuel1 fuel2, List.length a <= fuel1 -> List.length a <= fuel2 ->
          findTerminator fuel2 signature
            (skipTemplate fuel1 signature pos depth templDepth)
          = pos + List.length a
    end.
Proof.
  intros Hsep. induction a as [|c a IH]; intros group pos Hclean Hskip.
  - destruct group as [[depth templDepth]|]; [discriminate Hclean|].
    intros fuel _. simpl in Hskip.
    destruct (chars_from signature pos sep rest Hskip) as (Hlt & Hc & _).
    rewrite Nat.add_0_r. destruct fuel as [|fuel]; [reflexivity|].
    rewrite findTerminator_S, Hc.
    apply orb_true_iff in Hsep. destruct Hsep as [Hs | Hs]; rewrite Hs.
    + rewrite andb_false_r. reflexivity.
    + rewrite andb_false_r. reflexivity.
  - change ((c :: a) ++ sep :: rest)%list with (c :: (a ++ sep :: rest))%list in Hskip.
    pose proof (chars_from_length signature pos (c :: a) sep rest Hskip) as Hsize.
    destruct (chars_from signature pos c _ Hskip) as (Hlt & Hc & Hnext).
    apply Nat.ltb_lt in Hlt.
    cbn [List.length] in *.
    replace (pos + S (List.length a)) with (S pos + List.length a) in * by lia.
    destruct group as [[depth templDepth]|].
    + intros Hd Ht fuel1 fuel2 H1 H2.
      destruct fuel1 as [|fuel1]; [lia|].
      rewrite skipTemplate_S, Hc, Hlt.
      apply Z.leb_le in Hd, Ht. rewrite Hd, Ht. cbn [andb].
      cbn [topLevelClean] in Hclean.
      destruct (nestStep c depth templDepth) as [depth' templDepth'].
      cbn [fst snd].
      destruct ((0 <=? depth')%Z && (0 <=? templDepth')%Z) eqn:Hopen.
      * apply andb_true_iff in Hopen. destruct Hopen as [Hd' Ht'].
        apply Z.leb_le in Hd', Ht'.
        apply (IH (Some (depth', templDepth')) (S pos) Hclean Hnext Hd' Ht'); lia.
      * assert (Hstop : skipTemplate fuel1 signature (S pos) depth' templDepth' = S pos).
        { destruct fuel1 as [|fuel1]; [reflexivity|].
          rewrite skipTemplate_S, <- andb_assoc, Hopen, andb_false_r. reflexivity. }
        rewrite Hstop.
        apply (IH None (S pos) Hclean Hnext). lia.
    + intros fuel Hfuel.
      destruct fuel as [|fuel]; [lia|].
      rewrite findTerminator_S, Hc, Hlt.
      cbn [topLevelClean] in Hclean.
      destruct (isChar "," c || isChar ")" c) eqn:Hterm; [discriminate Hclean|].
      apply orb_false_iff in Hterm. destruct Hterm as [Hcomma Hparen].
      rewrite Hcomma, Hparen. cbn [andb negb].
      destruct (isChar "<" c).
      * apply (IH (Some (0, 0)%Z) (S pos) Hclean Hnext); lia.
      * apply (IH None (S pos) Hclean Hnext). lia.
Qed.

(** ** The loop over the arguments of a built signature *)

Lemma argumentLoop_S {C} (prune : nat -> StringRef -> list C -> list C)
    fuel signature argPos arg candidates :
  argumentLoop prune (S fuel) signature argPos arg candidates
  = if (argPos <? size signature)
       && negb (match candidates with [] => true | _ => false end)
    then
      let searchPos := findTerminator (size signature - argPos) signature argPos in
      if searchPos =? size signature then ([], Returned)
      else
        let argument := extractArgument signature argPos searchPos in
        let argPos' := searchPos + 1 in
        if empty argument && isChar ")" (charAt signature searchPos) && (arg =? 0)
        then ([], Done argPos' arg candidates)
        else
          let candidates' := prune arg argument candidates in
          let arg' := arg + 1 in
          if isChar ")" (charAt signature searchPos)
          then ([(argument, candidates')], Done argPos' arg' candidates')
          else
            let '(passes, exit) :=
              argumentLoop prune fuel signature argPos' arg' candidates' in
            ((argument, candidates') :: passes, exit)
    else ([], Done argPos arg candidates).
Proof. reflexivity. Qed.

Lemma empty_chars s : wellFormed s -> empty s = true <-> chars s = [].
Proof.
  intros Hwf. unfold empty. rewrite Nat.eqb_eq, <- (length_chars s Hwf).
  split; [apply length_zero_iff_nil | intros ->; reflexivity].
Qed.

(** One argument of a built signature: where the scan stops, and what is
    extracted. *)
Lemma argument_scanned signature argPos a sep rest :
  wellFormed signature ->
  isChar "," sep || isChar ")" sep = true ->
  topLevelClean None a = true ->
  skipn argPos (chars signature) = (a ++ sep :: rest)%list ->
  let searchPos := findTerminator (size signature - argPos) signature argPos in
  searchPos = argPos + List.length a
  /\ (argPos <? size signature) = true
  /\ (searchPos =? size signature) = false
  /\ charAt signature searchPos = sep
  /\ skipn (searchPos + 1) (chars signature) = rest
  /\ chars (extractArgument signature argPos searchPos) = fragment a
  /\ (empty (extractArgument signature argPos searchPos) = true <-> fragment a = []).
Proof.
  intros Hwf Hsep Hclean Hskip searchPos.
  pose proof (chars_from_length signature argPos a sep rest Hskip) as Hsize.
  assert (Hpos : searchPos = argPos + List.length a).
  { apply (findTerminator_clean signature sep rest Hsep a None argPos Hclean Hskip). lia. }
  pose proof (skipn_after _ _ _ _ Hskip) as Hat.
  destruct (chars_from signature _ _ _ Hat) as (_ & Hc & Hnext).
  destruct (chars_extractArgument signature argPos a sep rest Hwf Hskip) as [Hfrag Hargwf].
  rewrite Hpos. repeat split.
  - apply Nat.ltb_lt. lia.
  - apply Nat.eqb_neq. lia.
  - exact Hc.
  - rewrite Nat.add_1_r. exact Hnext.
  - exact Hfrag.
  - intros H. rewrite <- Hfrag. apply (empty_chars _ Hargwf). exact H.
  - intros H. apply (empty_chars _ Hargwf). rewrite Hfrag. exact H.
Qed.

Lemma argumentLoop_arguments signature :
  wellFormed signature ->
  forall more a argPos arg fuel,
    skipn argPos (chars signature) = (joinArgs (a :: more) ++ [")"%char])%list ->
    Forall (fun x => topLevelClean None x = true) (a :: more) ->
    (arg = 0 -> more = [] -> fragment a <> []) ->
    List.length more < fuel ->
    map (fun p => chars (fst p)) (fst (argumentLoop keepAll fuel signature argPos arg [tt]))
    = map fragment (a :: more)
    /\ snd (argumentLoop keepAll fuel signature argPos arg [tt])
       = Done (size signature) (arg + S (List.length more)) [tt].
Proof.
  intros Hwf. induction more as [|b more IH]; intros a argPos arg fuel Hskip Hclean Hblank Hfuel.
  - destruct fuel as [|fuel]; [lia|].
    cbn [joinArgs] in Hskip.
    apply Forall_inv in Hclean.
    destruct (argument_scanned signature argPos a ")"%char [] Hwf eq_refl Hclean Hskip)
      as (Hpos & Hlt & Hend & Hc & Hnext & Hfrag & Hempty).
    rewrite argumentLoop_S. cbv zeta.
    rewrite Hlt, Hend, Hc. cbn [negb andb isChar Ascii.eqb Bool.eqb].
    assert (Hcond : empty (extractArgument signature argPos
                             (findTerminator (size signature - argPos) signature argPos))
                    && (arg =? 0) = false).
    { destruct (arg =? 0) eqn:Harg; [|apply andb_false_r].
      apply Nat.eqb_eq in Harg. rewrite andb_true_r.
      apply not_true_is_false. intros H. apply Hempty in H.
      exact (Hblank Harg eq_refl H). }
    rewrite andb_true_r, Hcond.
    cbn [fst snd map]. rewrite Hfrag. split; [reflexivity|].
    f_equal.
    pose proof (f_equal (@List.length ascii) Hnext) as Hlen.
    rewrite length_skipn, (length_chars signature Hwf) in Hlen. simpl in Hlen.
    apply Nat.ltb_lt in Hlt. apply Nat.eqb_neq in Hend.
    pose proof (findTerminator_bounds (size signature - argPos) signature argPos) as [_ Hle].
    unfold size in *. lia.
  - destruct fuel as [|fuel]; [simpl in Hfuel; lia|].
    change (joinArgs (a :: b :: more))
      with (a ++ ","%char :: joinArgs (b :: more))%list in Hskip.
    rewrite <- app_assoc in Hskip.
    change ((","%char :: joinArgs (b :: more)) ++ [")"%char])%list
      with (","%char :: (joinArgs (b :: more) ++ [")"%char]))%list in Hskip.
    pose proof (Forall_inv Hclean) as Ha. apply Forall_inv_tail in Hclean.
    destruct (argument_scanned signature argPos a ","%char _ Hwf eq_refl Ha Hskip)
      as (Hpos & Hlt & Hend & Hc & Hnext & Hfrag & Hempty).
    rewrite argumentLoop_S. cbv zeta.
    rewrite Hlt, Hend, Hc. cbn [negb andb isChar Ascii.eqb Bool.eqb].
    rewrite andb_false_r. cbn [andb].
    assert (Hkeep : forall i x (cs : list unit), keepAll i x cs = cs) by reflexivity.
    rewrite !Hkeep.
    destruct (IH b (findTerminator (size signature - argPos) signature argPos + 1)
                (arg + 1) fuel Hnext Hclean ltac:(lia) ltac:(simpl in Hfuel; lia))
      as [IHargs IHexit].
    destruct (argumentLoop keepAll fuel signature
                (findTerminator (size signature - argPos) signature argPos + 1)
                (arg + 1) [tt]) as [ps exit].
    cbn [fst snd map] in *. rewrite Hfrag, IHargs. split; [reflexivity|].
    rewrite IHexit. f_equal. simpl. lia.
Qed.

(** A signature without arguments: the first slot is empty and ends at
    the closing parenthesis. *)
Lemma argumentLoop_no_arguments signature argPos fuel :
  wellFormed signature ->
  skipn argPos (chars signature) = [")"%char] ->
  argumentLoop keepAll (S fuel) signature argPos 0 [tt]
  = ([], Done (size signature) 0 [tt]).
Proof.
  intros Hwf Hskip.
  destruct (argument_scanned signature argPos [] ")"%char [] Hwf eq_refl eq_refl Hskip)
    as (Hpos & Hlt & Hend & Hc & Hnext & Hfrag & Hempty).
  rewrite argumentLoop_S. cbv zeta.
  rewrite Hlt, Hend, Hc. cbn [negb andb isChar Ascii.eqb Bool.eqb].
  assert (He : empty (extractArgument signature argPos
                        (findTerminator (size signature - argPos) signature argPos))
               = true) by (apply Hempty; reflexivity).
  rewrite He. cbn [andb Nat.eqb].
  f_equal. f_equal.
  pose proof (f_equal (@List.length ascii) Hnext) as Hlen.
  rewrite length_skipn, (length_chars signature Hwf) in Hlen. simpl in Hlen.
  apply Nat.ltb_lt in Hlt. apply Nat.eqb_neq in Hend.
  pose proof (findTerminator_bounds (size signature - argPos) signature argPos) as [_ Hle].
  unfold size in *. lia.
Qed.

(** ** The signature built from a name and arguments *)

Lemma findChar_lacks c l : lacks c l -> findChar c l = None.
Proof.
  unfold lacks. induction l as [|x l IH]; intros Hno; simpl; [reflexivity|].
  destruct (Ascii.eqb x c) eqn:E.
  - apply Ascii.eqb_eq in E. exfalso. apply Hno. left. exact E.
  - rewrite IH; [reflexivity|]. intros Hin. apply Hno. right. exact Hin.
Qed.

Lemma findChar_app c l1 l2 :
  lacks c l1 ->
  findChar c (l1 ++ l2) = option_map (Nat.add (List.length l1)) (findChar c l2).
Proof.
  unfold lacks. induction l1 as [|x l1 IH]; intros Hno; simpl.
  - destruct (findChar c l2); reflexivity.
  - destruct (Ascii.eqb x c) eqn:E.
    + apply Ascii.eqb_eq in E. exfalso. apply Hno. left. exact E.
    + rewrite IH by (intros Hin; apply Hno; right; exact Hin).
      destruct (findChar c l2); reflexivity.
Qed.

Lemma findChar_In c l : In c l -> exists n, findChar c l = Some n.
Proof.
  induction l as [|x l IH]; intros Hin; [contradiction|].
  simpl. destruct (Ascii.eqb x c) eqn:E; [exists 0; reflexivity|].
  destruct Hin as [Hx | Hin].
  - subst x. rewrite Ascii.eqb_refl in E. discriminate.
  - destruct (IH Hin) as [n Hn]. rewrite Hn. exists (S n). reflexivity.
Qed.

Lemma In_joinArgs c args :
  In c (joinArgs args) -> c = ","%char \/ exists a, In a args /\ In c a.
Proof.
  induction args as [|a [|b more] IH]; intros Hin.
  - contradiction.
  - right. exists a. split; [left; reflexivity | exact Hin].
  - change (joinArgs (a :: b :: more))
      with (a ++ ","%char :: joinArgs (b :: more))%list in Hin.
    apply in_app_or in Hin. destruct Hin as [Hin | [Hin | Hin]].
    + right. exists a. split; [left; reflexivity | exact Hin].
    + left. symmetry. exact Hin.
    + destruct (IH Hin) as [Hc | (x & Hx & Hcx)]; [left; exact Hc|].
      right. exists x. split; [right; exact Hx | exact Hcx].
Qed.

Lemma length_joinArgs a more : List.length more <= List.length (joinArgs (a :: more)).
Proof.
  revert a. induction more as [|b more IH]; intros a; [simpl; lia|].
  change (joinArgs (a :: b :: more)) with (a ++ ","%char :: joinArgs (b :: more))%list.
  rewrite length_app. cbn [List.length]. specialize (IH b). lia.
Qed.

(** Nothing is trimmed from a text that starts and ends with characters
    [trim] keeps. *)
Lemma trim_ofChars x mid y :
  isTrimChar x = false -> isTrimChar y = false ->
  trim (ofChars (x :: mid ++ [y])) = ofChars (x :: mid ++ [y]).
Proof.
  intros Hx Hy. unfold trim.
  assert (Hl : ltrim (ofChars (x :: mid ++ [y])) = ofChars (x :: mid ++ [y])).
  { unfold ltrim. rewrite chars_ofChars. cbn [countWhile]. rewrite Hx.
    reflexivity. }
  rewrite Hl. unfold rtrim. rewrite chars_ofChars.
  change (x :: mid ++ [y])%list with ((x :: mid) ++ [y])%list.
  rewrite rev_unit. cbn [countWhile]. rewrite Hy.
  reflexivity.
Qed.

Section BuiltSignature.

Variables (marker : ascii) (name : list ascii) (args : list (list ascii)).

Hypothesis marker_kept : isTrimChar marker = false.
Hypothesis marker_not_lparen : marker <> "("%char.
Hypothesis marker_not_rparen : marker <> ")"%char.
Hypothesis marker_not_null : marker <> zero.
Hypothesis name_not_empty : name <> [].
Hypothesis name_lacks_lparen : lacks "(" name.
Hypothesis name_lacks_rparen : lacks ")" name.
Hypothesis name_lacks_null : lacks zero name.
Hypothesis args_lack_null : Forall (lacks zero) args.

Local Abbreviation signature := (ofChars (buildSignature marker name args)).

Lemma built_chars : chars signature = buildSignature marker name args.
Proof. apply chars_ofChars. Qed.

Lemma built_size :
  size signature = S (List.length name + S (List.length (joinArgs args) + 1)).
Proof.
  unfold signature, size, ofChars, buildSignature. cbn [Length].
  cbn [List.length]. rewrite length_app. cbn [List.length].
  rewrite length_app. reflexivity.
Qed.

Lemma built_trim : trim signature = signature.
Proof.
  unfold signature, buildSignature.
  replace (name ++ "("%char :: joinArgs args ++ [")"%char])%list
    with ((name ++ "("%char :: joinArgs args) ++ [")"%char])%list
    by (rewrite <- app_assoc; reflexivity).
  apply trim_ofChars; [exact marker_kept | reflexivity].
Qed.

Lemma built_no_null : find signature zero = None.
Proof.
  unfold find. rewrite built_chars. apply findChar_lacks.
  unfold lacks, buildSignature. intros [Hm | Hin].
  - apply marker_not_null. exact Hm.
  - apply in_app_or in Hin. destruct Hin as [Hin | [Hin | Hin]].
    + exact (name_lacks_null Hin).
    + discriminate Hin.
    + apply in_app_or in Hin. destruct Hin as [Hin | [Hin | []]]; [|discriminate Hin].
      apply In_joinArgs in Hin. destruct Hin as [Hc | (a & Ha & Hca)]; [discriminate Hc|].
      rewrite Forall_forall in args_lack_null. exact (args_lack_null a Ha Hca).
Qed.

Lemma built_lparen : find signature "(" = Some (S (List.length name)).
Proof.
  unfold find. rewrite built_chars. unfold buildSignature.
  change (marker :: name ++ "("%char :: joinArgs args ++ [")"%char])%list
    with ((marker :: name) ++ "("%char :: joinArgs args ++ [")"%char])%list.
  rewrite findChar_app.
  - simpl. rewrite Nat.add_0_r. reflexivity.
  - intros [Hm | Hin]; [apply marker_not_lparen; exact Hm | exact (name_lacks_lparen Hin)].
Qed.

Lemma built_rparen :
  exists r, find signature ")" = Some r /\ S (List.length name) < r.
Proof.
  unfold find. rewrite built_chars. unfold buildSignature.
  replace (marker :: name ++ "("%char :: joinArgs args ++ [")"%char])%list
    with ((marker :: name ++ ["("%char]) ++ joinArgs args ++ [")"%char])%list
    by (simpl; rewrite <- app_assoc; reflexivity).
  rewrite findChar_app.
  - destruct (findChar_In ")"%char (joinArgs args ++ [")"%char])) as [n Hn].
    { apply in_or_app. right. left. reflexivity. }
    rewrite Hn. eexists. split; [reflexivity|].
    simpl. rewrite length_app. simpl. lia.
  - intros [Hm | Hin]; [apply marker_not_rparen; exact Hm|].
    apply in_app_or in Hin. destruct Hin as [Hin | [Hin | []]].
    + exact (name_lacks_rparen Hin).
    + discriminate Hin.
Qed.

(** The signature passes the tests of [handleSignalOrSlot], with the
    name read from index 1 up to the parenthesis. *)
Lemma parseSignature_built :
  parseSignature signature
  = Some (signature, S (List.length name),
          trim (slice signature 1 (Some (S (List.length name))))).
Proof.
  unfold parseSignature. cbv zeta. rewrite built_trim.
  assert (Hsize : (size signature <? 4) = false).
  { apply Nat.ltb_ge. rewrite built_size.
    destruct name; [contradiction | simpl; lia]. }
  rewrite Hsize, built_no_null, built_lparen.
  destruct built_rparen as (r & Hr & Hlt). rewrite Hr.
  cbn [posLt orb].
  assert (H1 : (r <? S (List.length name)) = false) by (apply Nat.ltb_ge; lia).
  assert (H2 : (S (List.length name) <? 2) = false).
  { apply Nat.ltb_ge. destruct name; [contradiction | simpl; lia]. }
  rewrite H1, H2. reflexivity.
Qed.

Lemma built_name :
  chars (trim (slice signature 1 (Some (S (List.length name))))) = trimChars name.
Proof.
  assert (Hwf : wellFormed signature) by apply wellFormed_ofChars.
  rewrite chars_trim by (apply wellFormed_slice; exact Hwf).
  rewrite chars_slice.
  - rewrite built_chars. unfold buildSignature. cbn [skipn].
    rewrite Nat.sub_succ, Nat.sub_0_r, firstn_app, Nat.sub_diag, firstn_all.
    simpl. rewrite app_nil_r. reflexivity.
  - pose proof built_size as Hs. unfold size in Hs. lia.
Qed.

Lemma built_arguments_from :
  skipn (S (List.length name) + 1) (chars signature)
  = (joinArgs args ++ [")"%char])%list.
Proof.
  rewrite built_chars. unfold buildSignature.
  replace (marker :: name ++ "("%char :: joinArgs args ++ [")"%char])%list
    with ((marker :: name ++ ["("%char]) ++ joinArgs args ++ [")"%char])%list
    by (simpl; rewrite <- app_assoc; reflexivity).
  replace (S (List.length name) + 1)
    with (List.length (marker :: name ++ ["("%char]))%list
    by (simpl; rewrite length_app; simpl; lia).
  rewrite skipn_app, Nat.sub_diag, skipn_all. reflexivity.
Qed.

Hypothesis args_clean : Forall (fun a => topLevelClean None a = true) args.
Hypothesis not_one_blank : forall a, args = [a] -> fragment a <> [].

Lemma tokenize_built :
  tokenize signature = Some (trimChars name, map fragment args).
Proof.
  assert (Hwf : wellFormed signature) by apply wellFormed_ofChars.
  unfold tokenize. rewrite parseSignature_built.
  unfold signatureArguments. cbv zeta.
  pose proof built_arguments_from as Hskip.
  pose proof args_clean as Hclean.
  assert (Hcase : args = [] \/ exists a more, args = a :: more).
  { clear. destruct args as [|a more]; [left; reflexivity | right; eauto]. }
  destruct Hcase as [Eargs | (a & more & Eargs)].
  - replace (joinArgs args) with (joinArgs []) in Hskip by (rewrite Eargs; reflexivity).
    cbn [joinArgs app] in Hskip.
    rewrite (argumentLoop_no_arguments signature _ _ Hwf Hskip).
    rewrite Nat.eqb_refl. cbn [option_map map]. rewrite built_name.
    replace (map fragment args) with (map fragment []) by (rewrite Eargs; reflexivity).
    reflexivity.
  - replace (joinArgs args) with (joinArgs (a :: more)) in Hskip
      by (rewrite Eargs; reflexivity).
    rewrite Eargs in Hclean.
    assert (Hfuel : List.length more
                    < S (size signature - (S (List.length name) + 1))).
    { pose proof (length_joinArgs a more). rewrite built_size, Eargs. lia. }
    destruct (argumentLoop_arguments signature Hwf more a _ 0 _ Hskip Hclean
                (fun _ Hmore =>
                   not_one_blank a (eq_trans Eargs (f_equal (cons a) Hmore))) Hfuel)
      as [Hargs Hexit].
    destruct (argumentLoop keepAll (S (size signature - (S (List.length name) + 1)))
                signature (S (List.length name) + 1) 0 [tt]) as [ps exit].
    cbn [fst snd] in Hargs, Hexit. subst exit.
    rewrite Nat.eqb_refl. cbn [option_map].
    rewrite built_name, map_map, Hargs.
    replace (map fragment args) with (map fragment (a :: more))
      by (rewrite Eargs; reflexivity).
    reflexivity.
Qed.

End BuiltSignature.

(** C7, as the code has it.  The built signature has a marker character
    before the name, as the code takes the name from index 1.  The name
    is not empty and has no parenthesis; no argument has a [,] or a [)]
    outside angle brackets, every angle group ends inside its argument
    (brackets outside angle brackets open no group for the scan), there
    is no null character, and the arguments are not one argument whose
    fragment is empty: a blank argument, or [const ] ... [&] with
    nothing but blanks between, which reads as no argument.  Then the
    code recovers the name, trimmed, and every argument as its fragment:
    trimmed, and without a [const ] ... [&] wrapper. *)
Theorem tokenizer_round_trip :
  forall (marker : ascii) (name : list ascii) (args : list (list ascii)),
    isTrimChar marker = false ->
    marker <> "("%char -> marker <> ")"%char -> marker <> zero ->
    name <> [] ->
    lacks "(" name -> lacks ")" name -> lacks zero name ->
    Forall (lacks zero) args ->
    Forall (fun a => topLevelClean None a = true) args ->
    (forall a, args = [a] -> fragment a <> []) ->
    tokenize (ofChars (buildSignature marker name args))
    = Some (trimChars name, map fragment args).
Proof.
  intros marker name args Hkept Hl Hr Hz Hname Hnl Hnr Hnz Haz Hclean Hblank.
  apply tokenize_built; assumption.
Qed.

Lemma tokenizer_round_trip_witness :
  tokenize (ofString "1 resize (QMap<int,QString>, const QString & ,int)")
  = Some (list_ascii_of_string "resize",
          [list_ascii_of_string "QMap<int,QString>";
           list_ascii_of_string "QString";
           list_ascii_of_string "int"]).
Proof.
  apply (tokenizer_round_trip "1"%char (list_ascii_of_string " resize ")
           [list_ascii_of_string "QMap<int,QString>";
            list_ascii_of_string " const QString & ";
            list_ascii_of_string "int"]).
  - reflexivity.
  - discriminate.
  - discriminate.
  - discriminate.
  - discriminate.
  - unfold lacks. simpl. intuition discriminate.
  - unfold lacks. simpl. intuition discriminate.
  - unfold lacks. simpl. intuition discriminate.
  - repeat constructor; unfold lacks; simpl; intuition discriminate.
  - repeat constructor.
  - intros a H. discriminate H.
Defined.

(** The claim C7 as the specification words it, the signature being the
    name, [(], the joined arguments and [)]: for the name [resize] and
    the one argument [int] the code takes the name from index 1 and
    recovers [esize]; for the name [f] the parenthesis is at index 1 and
    the signature is rejected. *)
Lemma round_trip_without_marker :
  topLevelClean None (list_ascii_of_string "int") = true
  /\ tokenize (ofChars (list_ascii_of_string "resize"
                        ++ "("%char :: joinArgs [list_ascii_of_string "int"]
                        ++ [")"%char]))
     = Some (list_ascii_of_string "esize", [list_ascii_of_string "int"])
  /\ tokenize (ofChars (list_ascii_of_string "resize"
                        ++ "("%char :: joinArgs [list_ascii_of_string "int"]
                        ++ [")"%char]))
     <> Some (list_ascii_of_string "resize", [list_ascii_of_string "int"])
  /\ tokenize (ofChars (list_ascii_of_string "f"
                        ++ "("%char :: joinArgs [list_ascii_of_string "int"]
                        ++ [")"%char]))
     = None.
Proof.
  split; [reflexivity|]. split; [reflexivity|]. split; [|reflexivity].
  intros H. vm_compute in H. discriminate H.
Qed.

(** What else the round trip does not recover, with a marker in place:
    one blank argument reads as no argument, and so does the one
    argument [const &], whose fragment is empty; an argument
    [const int &] comes back as [int], and a comma between brackets that
    are not inside angle brackets splits the argument. *)
Lemma round_trip_limits :
  tokenize (ofChars (buildSignature "1" (list_ascii_of_string "f")
                       [list_ascii_of_string " "]))
  = Some (list_ascii_of_string "f", [])
  /\ fragment (list_ascii_of_string "const &") = []
  /\ tokenize (ofChars (buildSignature "1" (list_ascii_of_string "f")
                          [list_ascii_of_string "const &"]))
     = Some (list_ascii_of_string "f", [])
  /\ tokenize (ofChars (buildSignature "1" (list_ascii_of_string "f")
                          [list_ascii_of_string "const int &"]))
     = Some (list_ascii_of_string "f", [list_ascii_of_string "int"])
  /\ tokenize (ofChars (buildSignature "1" (list_ascii_of_string "f")
                          [list_ascii_of_string "a[b,c]"]))
     = Some (list_ascii_of_string "f",
             [list_ascii_of_string "a[b"; list_ascii_of_string "c]"]).
Proof. repeat split; reflexivity. Qed.

(** ** The iteration counts of the model are enough *)

Lemma compareLoop_S fuel sigBuffer sigIt sigEnd parBuffer parIt parEnd :
  compareLoop (S fuel) sigBuffer sigIt sigEnd parBuffer parIt parEnd
  = if negb (sigIt =? sigEnd) && negb (parIt =? parEnd) then
      match nth_error sigBuffer sigIt, nth_error parBuffer parIt with
      | Some s, Some p =>
          if Ascii.eqb s p then
            compareLoop fuel sigBuffer (S sigIt) sigEnd parBuffer (S parIt) parEnd
          else if isChar " " s then
            compareLoop fuel sigBuffer (S sigIt) sigEnd parBuffer parIt parEnd
          else if isChar " " p then
            compareLoop fuel sigBuffer sigIt sigEnd parBuffer (S parIt) parEnd
          else if isChar "n" s
                  && starts_with (mkStringRef sigBuffer sigIt 9) "nsigned " then
            compareLoop fuel sigBuffer (sigIt + 8) sigEnd parBuffer parIt parEnd
          else if isChar "n" p
                  && starts_with (mkStringRef parBuffer parIt 9) "nsigned " then
            compareLoop fuel sigBuffer sigIt sigEnd parBuffer (parIt + 8) parEnd
          else (sigIt, parIt)
      | _, _ => (sigIt, parIt)
      end
    else (sigIt, parIt).
Proof. reflexivity. Qed.

(** Every iteration of the comparison moves an iterator forward inside
    its storage, so the two lengths together bound the iterations: with
    that many or more the result is the same. *)
Lemma compareLoop_fuel sigBuffer sigEnd parBuffer parEnd :
  forall fuel1 fuel2 sigIt parIt,
    (List.length sigBuffer - sigIt) + (List.length parBuffer - parIt) <= fuel1 ->
    (List.length sigBuffer - sigIt) + (List.length parBuffer - parIt) <= fuel2 ->
    compareLoop fuel1 sigBuffer sigIt sigEnd parBuffer parIt parEnd
    = compareLoop fuel2 sigBuffer sigIt sigEnd parBuffer parIt parEnd.
Proof.
  assert (Hout : forall fuel sigIt parIt,
             (List.length sigBuffer - sigIt) + (List.length parBuffer - parIt) <= 0 ->
             compareLoop fuel sigBuffer sigIt sigEnd parBuffer parIt parEnd
             = (sigIt, parIt)).
  { intros [|fuel] sigIt parIt Hm; [reflexivity|].
    rewrite compareLoop_S.
    assert (Hs : nth_error sigBuffer sigIt = None) by (apply nth_error_None; lia).
    rewrite Hs. destruct (negb (sigIt =? sigEnd) && negb (parIt =? parEnd)); reflexivity. }
  induction fuel1 as [|fuel1 IH]; intros fuel2 sigIt parIt H1 H2.
  - rewrite (Hout fuel2) by exact H1. reflexivity.
  - destruct fuel2 as [|fuel2].
    + rewrite (Hout (S fuel1)) by exact H2. reflexivity.
    + rewrite !compareLoop_S.
      destruct (negb (sigIt =? sigEnd) && negb (parIt =? parEnd)); [|reflexivity].
      destruct (nth_error sigBuffer sigIt) as [s|] eqn:Hs; [|reflexivity].
      destruct (nth_error parBuffer parIt) as [p|] eqn:Hp; [|reflexivity].
      assert (Hsl : sigIt < List.length sigBuffer)
        by (apply nth_error_Some; rewrite Hs; discriminate).
      assert (Hpl : parIt < List.length parBuffer)
        by (apply nth_error_Some; rewrite Hp; discriminate).
      destruct (Ascii.eqb s p); [apply IH; lia|].
      destruct (isChar " " s); [apply IH; lia|].
      destruct (isChar " " p); [apply IH; lia|].
      destruct (isChar "n" s && starts_with (mkStringRef sigBuffer sigIt 9) "nsigned ");
        [apply IH; lia|].
      destruct (isChar "n" p && starts_with (mkStringRef parBuffer parIt 9) "nsigned ");
        [apply IH; lia | reflexivity].
Qed.

(** An iterator that a skip has carried past its end never equals the end
    again: the candidate is erased whatever the loop reads afterwards. *)
Lemma compareLoop_monotone sigBuffer sigEnd parBuffer parEnd :
  forall fuel sigIt parIt,
    sigIt <= fst (compareLoop fuel sigBuffer sigIt sigEnd parBuffer parIt parEnd)
    /\ parIt <= snd (compareLoop fuel sigBuffer sigIt sigEnd parBuffer parIt parEnd).
Proof.
  induction fuel as [|fuel IH]; intros sigIt parIt; [simpl; lia|].
  rewrite compareLoop_S.
  destruct (negb (sigIt =? sigEnd) && negb (parIt =? parEnd)); [|simpl; lia].
  destruct (nth_error sigBuffer sigIt) as [s|]; [|simpl; lia].
  destruct (nth_error parBuffer parIt) as [p|]; [|simpl; lia].
  destruct (Ascii.eqb s p); [specialize (IH (S sigIt) (S parIt)); lia|].
  destruct (isChar " " s); [specialize (IH (S sigIt) parIt); lia|].
  destruct (isChar " " p); [specialize (IH sigIt (S parIt)); lia|].
  destruct (isChar "n" s && starts_with (mkStringRef sigBuffer sigIt 9) "nsigned ");
    [specialize (IH (sigIt + 8) parIt); lia|].
  destruct (isChar "n" p && starts_with (mkStringRef parBuffer parIt 9) "nsigned ");
    [specialize (IH sigIt (parIt + 8)); lia | simpl; lia].
Qed.

Section LoopFuel.
Context {C : Type}.
Variable prune : nat -> StringRef -> list C -> list C.

(** Every iteration of the loop over the arguments moves [argPos]
    forward, so [size signature - argPos] iterations are all it can
    make. *)
Lemma argumentLoop_fuel signature :
  forall fuel1 fuel2 argPos arg candidates,
    size signature - argPos <= fuel1 ->
    size signature - argPos <= fuel2 ->
    argumentLoop prune fuel1 signature argPos arg candidates
    = argumentLoop prune fuel2 signature argPos arg candidates.
Proof.
  assert (Hout : forall fuel argPos arg candidates,
             size signature - argPos <= 0 ->
             argumentLoop prune fuel signature argPos arg candidates
             = ([], Done argPos arg candidates)).
  { intros [|fuel] argPos arg candidates Hm; [reflexivity|].
    rewrite argumentLoop_S.
    assert (Hlt : (argPos <? size signature) = false) by (apply Nat.ltb_ge; lia).
    rewrite Hlt. reflexivity. }
  induction fuel1 as [|fuel1 IH]; intros fuel2 argPos arg candidates H1 H2.
  - rewrite (Hout fuel2) by exact H1. reflexivity.
  - destruct fuel2 as [|fuel2].
    + rewrite (Hout (S fuel1)) by exact H2. reflexivity.
    + rewrite !argumentLoop_S. cbv zeta.
      destruct ((argPos <? size signature)
                && negb match candidates with [] => true | _ :: _ => false end);
        [|reflexivity].
      pose proof (findTerminator_bounds (size signature - argPos) signature argPos)
        as [Hge _].
      set (searchPos := findTerminator (size signature - argPos) signature argPos) in *.
      destruct (searchPos =? size signature); [reflexivity|].
      destruct (empty (extractArgument signature argPos searchPos)
                && isChar ")" (charAt signature searchPos) && (arg =? 0));
        [reflexivity|].
      destruct (isChar ")" (charAt signature searchPos)); [reflexivity|].
      rewrite (IH fuel2); [reflexivity | lia | lia].
Qed.

(** The arguments handed to the pruning passes are the first arguments
    of the tokenizer, and all of them when candidates are left at the
    end. *)
Lemma argumentLoop_follows_tokenizer signature :
  forall fuel argPos arg candidates,
    (exists k,
        map fst (fst (argumentLoop prune fuel signature argPos arg candidates))
        = firstn k (map fst (fst (argumentLoop keepAll fuel signature argPos arg [tt]))))
    /\ match snd (argumentLoop prune fuel signature argPos arg candidates) with
       | Done argPos' arg' (_ :: _) =>
           map fst (fst (argumentLoop prune fuel signature argPos arg candidates))
           = map fst (fst (argumentLoop keepAll fuel signature argPos arg [tt]))
           /\ snd (argumentLoop keepAll fuel signature argPos arg [tt])
              = Done argPos' arg' [tt]
       | _ => True
       end.
Proof.
  induction fuel as [|fuel IH]; intros argPos arg candidates.
  - simpl. split; [exists 0; reflexivity|].
    destruct candidates; [exact I | split; reflexivity].
  - rewrite !argumentLoop_S. cbv zeta.
    destruct (argPos <? size signature); cbn [andb];
      [|split; [exists 0; reflexivity|];
        destruct candidates; [exact I | split; reflexivity]].
    destruct candidates as [|c cs]; cbn [negb];
      [split; [exists 0; reflexivity | exact I]|].
    set (searchPos := findTerminator (size signature - argPos) signature argPos).
    destruct (searchPos =? size signature);
      [split; [exists 0; reflexivity | exact I]|].
    set (argument := extractArgument signature argPos searchPos).
    destruct (empty argument && isChar ")" (charAt signature searchPos) && (arg =? 0));
      [split; [exists 0; reflexivity | split; reflexivity]|].
    assert (Hkeep : forall i x (l : list unit), keepAll i x l = l) by reflexivity.
    rewrite !Hkeep.
    destruct (isChar ")" (charAt signature searchPos)).
    + cbn [fst snd map]. split; [exists 1; reflexivity|].
      destruct (prune arg argument (c :: cs)); [exact I | split; reflexivity].
    + destruct (IH (searchPos + 1) (arg + 1) (prune arg argument (c :: cs)))
        as [[k Hk] Hexit].
      destruct (argumentLoop prune fuel signature (searchPos + 1) (arg + 1)
                  (prune arg argument (c :: cs))) as [ps exit].
      destruct (argumentLoop keepAll fuel signature (searchPos + 1) (arg + 1) [tt])
        as [ps0 exit0].
      cbn [fst snd map] in *. split.
      * exists (S k). cbn [firstn]. rewrite Hk. reflexivity.
      * destruct exit as [|argPos' arg' [|c' cs']]; [exact I | exact I |].
        destruct Hexit as [Hargs Hexit0]. rewrite Hargs. split; [reflexivity | exact Hexit0].
Qed.
End LoopFuel.

(** When a use is registered, the arguments the pruning passes saw are
    the arguments of the tokenizer. *)
Lemma registered_use_saw_all_arguments signature lParenPos range located used range' :
  annotation (narrowCandidates signature lParenPos range located) = RegisterUse used range' ->
  signatureArguments signature lParenPos
  = Some (map fst (passes (narrowCandidates signature lParenPos range located))).
Proof.
  unfold narrowCandidates, signatureArguments. cbv zeta.
  pose proof (argumentLoop_follows_tokenizer pruneCandidates signature
                (S (size signature - (lParenPos + 1))) (lParenPos + 1) 0 located)
    as [_ Hexit].
  destruct (argumentLoop pruneCandidates (S (size signature - (lParenPos + 1)))
              signature (lParenPos + 1) 0 located) as [ps exit].
  destruct (argumentLoop keepAll (S (size signature - (lParenPos + 1)))
              signature (lParenPos + 1) 0 [tt]) as [ps0 exit0].
  cbn [fst snd] in Hexit.
  destruct exit as [|argPos arg remaining]; [discriminate|].
  destruct (argPos =? size signature) eqn:Hend; cbn [negb]; [|discriminate].
  destruct remaining as [|c cs]; [discriminate|].
  destruct Hexit as [Hargs Hexit0]. subst exit0. rewrite Hend.
  intros _. rewrite <- Hargs.
  destruct (finalFilter arg (c :: cs)); reflexivity.
Qed.

(** ** Further examples *)

(** The final filter at work: [changed(int)] finds the private signal
    [changed(int, QPrivateSignal)], while [moved(int)] does not find
    [moved(int, int)]. *)
Lemma final_filter_examples :
  handleSignalOrSlot 2 emitterDecls (Some (pointerTo "Emitter"%string))
    (Some (StringLiteral 1 "2changed(int)" 1))
  = Some (RegisterUse Emitter_changed LiteralRange)
  /\ handleSignalOrSlot 2 emitterDecls (Some (pointerTo "Emitter"%string))
       (Some (StringLiteral 1 "2moved(int)" 1))
     = Some NoUse
  /\ finalFilter 1 [Emitter_changed; Emitter_moved] = [Emitter_changed].
Proof. repeat split; reflexivity. Qed.

(** A signature assembled from two literals by the SIGNAL macro: the use
    is registered on the range of the macro argument. *)
Lemma concatenated_literal_range :
  handleSignalOrSlot 2 counterDecls (Some (pointerTo "Counter"%string))
    (Some (ImplicitCastExpr
             (CallExpr (Named "const char *" false None) (Some "qFlagLocation"%string)
                [ImplicitCastExpr (StringLiteral 1 "2increment(int)" 2)])))
  = Some (RegisterUse increment1 MacroArgumentRange).
Proof. reflexivity. Qed.

(** Unlike [handleInvokeMethod], [handleSignalOrSlot] takes the first of
    several candidates that are left. *)
Lemma first_candidate_wins :
  let twice := fun c : ClassId =>
                 if String.eqb c "Counter" then mkRecord true [increment1; increment1] []
                 else undefinedClass in
  handleSignalOrSlot 2 twice (Some (pointerTo "Counter"%string))
    (Some (StringLiteral 1 "1increment(int)" 1))
  = Some (RegisterUse increment1 LiteralRange)
  /\ handleInvokeMethod 2 twice (Some (pointerTo "Counter"%string))
       (Some (StringLiteral 1 "increment" 1))
     = Some NoUse.
Proof. split; reflexivity. Qed.

(** A resolution is either rejected before the lookup or is the
    narrowing of the located candidates. *)
Lemma resolveSignature_narrows fuel decls objClass literal numConcatenated r :
  resolveSignature fuel decls objClass literal numConcatenated = Some r ->
  (parseSignature (ofString literal) = None /\ r = mkResolution [] None NoUse)
  \/ exists signature lParenPos methodName located range,
       parseSignature (ofString literal) = Some (signature, lParenPos, methodName)
       /\ lookUpCandidates fuel decls (Some objClass) methodName = Some located
       /\ r = narrowCandidates signature lParenPos range located.
Proof.
  unfold resolveSignature.
  destruct (parseSignature (ofString literal)) as [[[signature lParenPos] methodName]|].
  - destruct (lookUpCandidates fuel decls (Some objClass) methodName) as [located|] eqn:Hlook;
      [|discriminate].
    intros H. injection H as <-. right.
    exists signature, lParenPos, methodName, located.
    eexists. split; [reflexivity|]. split; [exact Hlook | reflexivity].
  - intros H. injection H as <-. left. split; reflexivity.
Qed.

(** With the bound of [sameTypeText] or any larger one the comparison
    gives the same result. *)
Lemma sameTypeText_fuel argument typeString fuel :
  List.length (Buffer argument) + List.length (Buffer typeString) <= fuel ->
  compareLoop fuel (Buffer argument) (Data argument) (Data argument + Length argument)
    (Buffer typeString) (Data typeString) (Data typeString + Length typeString)
  = compareLoop (List.length (Buffer argument) + List.length (Buffer typeString))
      (Buffer argument) (Data argument) (Data argument + Length argument)
      (Buffer typeString) (Data typeString) (Data typeString + Length typeString).
Proof. intros Hfuel. apply compareLoop_fuel; lia. Qed.

(** The walk leaves the loop at a class without definition: the accessor
    met before is not followed. *)
Lemma undefined_base_stops_walk :
  lookUpCandidates 2 halfDecls (Some "Half"%string) (ofString "slotName") = Some []
  /\ handleSignalOrSlot 2 halfDecls (Some (pointerTo "Half"%string))
       (Some (StringLiteral 1 "1slotName(int)" 1)) = Some NoUse.
Proof. split; reflexivity. Qed.

(** An argument without [,], [)] and [<] is read as one argument. *)
Lemma plain_argument_clean a :
  forallb (fun c => negb (isChar "," c || isChar ")" c || isChar "<" c)) a = true ->
  topLevelClean None a = true.
Proof.
  induction a as [|c a IH]; intros H; [reflexivity|].
  simpl in H. apply andb_true_iff in H. destruct H as [Hc Ha].
  apply negb_true_iff in Hc. apply orb_false_iff in Hc. destruct Hc as [Hc Hangle].
  cbn [topLevelClean]. rewrite Hc, Hangle. apply IH. exact Ha.
Qed.

(** The candidate sets of the resolution of [1increment(int)] in
    [Counter]: both overloads are located, the pass for the argument
    erases [increment()], the final filter erases nothing. *)
Lemma candidate_sets_example :
  option_map (candidateSets [increment0; increment1])
    (resolveSignature 2 counterDecls "Counter"%string "1increment(int)" 1)
  = Some [[increment0; increment1]; [increment1]; [increment1]].
Proof. reflexivity. Qed.

(** ** What lookUpCandidates returns *)

(** The loop over the methods of one class appends the methods of the
    searched name, in their order, and keeps the accessor already held or
    else the first of the class. *)
Lemma scanMethods_collects ms methodName :
  forall candidates d_func,
    scanMethods ms methodName candidates d_func
    = ((candidates ++ filter (hasName methodName) ms)%list,
       match d_func with
       | Some d => Some d
       | None => List.find isDFunc ms
       end).
Proof.
  induction ms as [|mi rest IH]; intros candidates d_func.
  - simpl. rewrite app_nil_r. destruct d_func; reflexivity.
  - assert (Hname : hasName methodName mi
                    = match identifier mi with
                      | Some name => equals methodName name
                      | None => false
                      end) by reflexivity.
    assert (Hdf : isDFunc mi
                  = match identifier mi with
                    | Some name =>
                        String.eqb name "d_func" && negb (isNull (getResultType mi))
                    | None => false
                    end) by reflexivity.
    cbn [scanMethods filter List.find]. rewrite Hname, Hdf.
    destruct (identifier mi) as [name|].
    + rewrite IH. destruct (equals methodName name).
      * rewrite <- app_assoc. f_equal.
        destruct d_func as [d|]; [reflexivity|].
        destruct (String.eqb name "d_func" && negb (isNull (getResultType mi)));
          reflexivity.
      * f_equal. destruct d_func as [d|]; [reflexivity|].
        destruct (String.eqb name "d_func" && negb (isNull (getResultType mi)));
          reflexivity.
    + rewrite IH. reflexivity.
Qed.

Lemma lookUpLoop_sound fuel decls methodName :
  forall classIt d_func candidates r result,
    Forall (foundIn decls methodName) candidates ->
    lookUpLoop fuel decls methodName classIt d_func candidates r = Some result ->
    Forall (foundIn decls methodName) (fst result).
Proof.
  induction fuel as [|fuel IH]; intros classIt d_func candidates r result Hall H.
  - discriminate.
  - rewrite lookUpLoop_S in H.
    destruct classIt as [c|]; [|injection H as <-; exact Hall].
    destruct (hasDefinition (decls c)) eqn:Hdef; cbn [negb] in H;
      [|injection H as <-; exact Hall].
    rewrite scanMethods_collects in H.
    assert (Hall' : Forall (foundIn decls methodName)
                      (candidates ++ filter (hasName methodName) (methods (decls c)))).
    { apply Forall_app. split; [exact Hall|].
      apply Forall_forall. intros m Hm. apply filter_In in Hm. destruct Hm as [Hin Hname].
      split; [exact Hname|]. exists c. split; assumption. }
    destruct (match d_func with
              | Some d => Some d
              | None => List.find isDFunc (methods (decls c))
              end) as [d|].
    + destruct (firstBase (decls c)); [exact (IH _ _ _ _ _ Hall' H)|].
      destruct (candidates ++ filter (hasName methodName) (methods (decls c)))%list;
        exact (IH _ _ _ _ _ Hall' H).
    + exact (IH _ _ _ _ _ Hall' H).
Qed.

(** X1. Every method [lookUpCandidates] returns has the searched name
    and is declared in a class that has a definition. *)
Theorem lookup_returns_named_methods :
  forall fuel decls objClass methodName candidates,
    lookUpCandidates fuel decls objClass methodName = Some candidates ->
    forall m, In m candidates ->
      hasName methodName m = true
      /\ exists c, hasDefinition (decls c) = true /\ In m (methods (decls c)).
Proof.
  intros fuel decls objClass methodName candidates H m Hin.
  unfold lookUpCandidates in H.
  destruct (lookUpLoop fuel decls methodName objClass None [] 0) as [result|] eqn:Hloop;
    [|discriminate].
  injection H as <-.
  pose proof (lookUpLoop_sound fuel decls methodName _ _ _ _ _ (Forall_nil _) Hloop) as Hall.
  rewrite Forall_forall in Hall. exact (Hall m Hin).
Qed.

Lemma lookup_returns_named_methods_witness :
  hasName (ofString "slotName") B_slotName = true
  /\ exists c, hasDefinition (privateImplDecls c) = true
               /\ In B_slotName (methods (privateImplDecls c)).
Proof.
  apply (lookup_returns_named_methods 3 privateImplDecls (Some "A"%string)
           (ofString "slotName") [B_slotName]).
  - reflexivity.
  - left. reflexivity.
Defined.

(** The walk along a chain of bases that takes no redirection: some
    method of the name is found, or there is no accessor. *)
Lemma walk_collects decls methodName :
  forall rest c d_func candidates r fuel,
    baseChain decls c rest ->
    ((candidates ++ filter (hasName methodName) (chainMethods decls (c :: rest)))%list <> []
     \/ (d_func = None /\ List.find isDFunc (chainMethods decls (c :: rest)) = None)) ->
    lookUpLoop (S (S (List.length rest)) + fuel) decls methodName (Some c) d_func
      candidates r
    = Some ((candidates ++ filter (hasName methodName) (chainMethods decls (c :: rest)))%list,
            r).
Proof.
  induction rest as [|c' rest IH]; intros c d_func candidates r fuel Hchain Hcase.
  - destruct Hchain as [Hdef Hbase].
    unfold chainMethods in *. cbn [flat_map] in *. rewrite app_nil_r in *.
    cbn [List.length Nat.add]. rewrite lookUpLoop_S, Hdef. cbn [negb].
    rewrite scanMethods_collects, Hbase.
    assert (Hnext : forall d cs,
               lookUpLoop (S fuel) decls methodName None d cs r = Some (cs, r))
      by reflexivity.
    destruct Hcase as [Hne | [-> Hnone]].
    + destruct (match d_func with
                | Some d => Some d
                | None => List.find isDFunc (methods (decls c))
                end); [|apply Hnext].
      destruct (candidates ++ filter (hasName methodName) (methods (decls c)))%list
        eqn:E; [contradiction | apply Hnext].
    + rewrite Hnone. apply Hnext.
  - destruct Hchain as [Hdef [Hbase Hchain]].
    change (chainMethods decls (c :: c' :: rest))
      with (methods (decls c) ++ chainMethods decls (c' :: rest))%list in *.
    rewrite filter_app, app_assoc in *. rewrite find_app in Hcase.
    cbn [List.length Nat.add]. rewrite lookUpLoop_S, Hdef. cbn [negb].
    rewrite scanMethods_collects, Hbase.
    set (d1 := match d_func with
               | Some d => Some d
               | None => List.find isDFunc (methods (decls c))
               end).
    set (cands1 := (candidates ++ filter (hasName methodName) (methods (decls c)))%list) in *.
    transitivity (lookUpLoop (S (S (List.length rest)) + fuel) decls methodName
                    (Some c') d1 cands1 r).
    { destruct d1; [destruct cands1|]; reflexivity. }
    apply IH; [exact Hchain|].
    destruct Hcase as [Hne | [-> Hnone]]; [left; exact Hne|].
    right. subst d1.
    destruct (List.find isDFunc (methods (decls c))); [discriminate Hnone|].
    split; [reflexivity | exact Hnone].
Qed.

(** X2. Along a chain of defined classes that ends without a base class,
    when some method of the searched name exists in the chain or no class
    of it has a [d_func], the lookup returns exactly the methods of that
    name: each class in declaration order, the classes in walk order. *)
Theorem lookup_collects_along_bases :
  forall decls methodName A rest fuel,
    baseChain decls A rest ->
    (filter (hasName methodName) (chainMethods decls (A :: rest)) <> []
     \/ List.find isDFunc (chainMethods decls (A :: rest)) = None) ->
    lookUpCandidates (S (S (List.length rest)) + fuel) decls (Some A) methodName
    = Some (filter (hasName methodName) (chainMethods decls (A :: rest))).
Proof.
  intros decls methodName A rest fuel Hchain Hcase.
  unfold lookUpCandidates.
  rewrite (walk_collects decls methodName rest A None [] 0 fuel Hchain).
  - reflexivity.
  - destruct Hcase as [Hne | Hnone]; [left; exact Hne | right; split; [reflexivity | exact Hnone]].
Qed.

Lemma lookup_collects_along_bases_witness :
  baseChain selfDecls "Self"%string ["QObject"%string]
  /\ lookUpCandidates 3 selfDecls (Some "Self"%string) (ofString "d_func")
     = Some [Self_d_func; QObject_d_func].
Proof.
  assert (Hchain : baseChain selfDecls "Self"%string ["QObject"%string]).
  { split; [reflexivity|]. split; [reflexivity|]. split; reflexivity. }
  split; [exact Hchain|].
  apply (lookup_collects_along_bases selfDecls (ofString "d_func") "Self"%string
           ["QObject"%string] 0 Hchain).
  left. discriminate.
Defined.

(** ** The resolution as one filter *)

Lemma pruneCandidates_filter arg argument candidates :
  pruneCandidates arg argument candidates
  = filter (acceptsArgument arg argument) candidates.
Proof.
  induction candidates as [|it rest IH]; [reflexivity|].
  cbn [pruneCandidates filter]. unfold acceptsArgument at 1.
  destruct (getNumParams it <? arg + 1); cbn [negb andb]; [exact IH|].
  destruct (matchesParam argument (getParamType it arg)); rewrite IH; reflexivity.
Qed.

Lemma filter_all {A} (l : list A) : filter (fun _ => true) l = l.
Proof. induction l as [|x l IH]; simpl; [reflexivity | rewrite IH; reflexivity]. Qed.

Lemma filter_filter_and {A} (p q : A -> bool) (l : list A) :
  filter q (filter p l) = filter (fun x => p x && q x) l.
Proof.
  induction l as [|x l IH]; [reflexivity|].
  simpl. destruct (p x); simpl; [|exact IH].
  destruct (q x); rewrite IH; reflexivity.
Qed.

(** The loop with the pruning passes against the loop of the tokenizer,
    from the same position: where the tokenizer leaves, the pruning loop
    leaves with the candidates that accept the arguments read, or it has
    left before with none, and then none accepts them. *)
Lemma argumentLoop_filters signature :
  forall fuel argPos arg candidates,
    match snd (argumentLoop keepAll fuel signature argPos arg [tt]) with
    | Returned =>
        snd (argumentLoop pruneCandidates fuel signature argPos arg candidates) = Returned
        \/ exists p n,
             snd (argumentLoop pruneCandidates fuel signature argPos arg candidates)
             = Done p n []
    | Done p n _ =>
        let arguments :=
          map fst (fst (argumentLoop keepAll fuel signature argPos arg [tt])) in
        snd (argumentLoop pruneCandidates fuel signature argPos arg candidates)
        = Done p n (filter (acceptsArguments arg arguments) candidates)
        \/ ((exists p' n',
                snd (argumentLoop pruneCandidates fuel signature argPos arg candidates)
                = Done p' n' [])
            /\ filter (acceptsArguments arg arguments) candidates = [])
    end.
Proof.
  assert (Hkeep : forall i x (l : list unit), keepAll i x l = l) by reflexivity.
  induction fuel as [|fuel IH]; intros argPos arg candidates.
  - simpl. left. rewrite filter_all. reflexivity.
  - rewrite !argumentLoop_S. cbv zeta.
    destruct (argPos <? size signature); cbn [andb negb];
      [|cbn [fst snd map acceptsArguments]; left; rewrite filter_all; reflexivity].
    destruct candidates as [|c cs].
    { cbn [negb fst snd].
      destruct (snd (if findTerminator (size signature - argPos) signature argPos
                        =? size signature
                     then ([], Returned)
                     else _)) as [|p n l].
      - right. exists argPos, arg. reflexivity.
      - right. split; [exists argPos, arg; reflexivity | reflexivity]. }
    cbn [negb].
    set (searchPos := findTerminator (size signature - argPos) signature argPos).
    destruct (searchPos =? size signature); [left; reflexivity|].
    set (argument := extractArgument signature argPos searchPos).
    destruct (empty argument && isChar ")" (charAt signature searchPos) && (arg =? 0)).
    { cbn [fst snd map acceptsArguments]. left. rewrite filter_all. reflexivity. }
    rewrite !Hkeep. rewrite pruneCandidates_filter.
    destruct (isChar ")" (charAt signature searchPos)).
    { cbn [fst snd map]. left. f_equal.
      apply filter_ext. intros it. cbn [acceptsArguments]. rewrite andb_true_r.
      reflexivity. }
    specialize (IH (searchPos + 1) (arg + 1)
                  (filter (acceptsArgument arg argument) (c :: cs))).
    destruct (argumentLoop keepAll fuel signature (searchPos + 1) (arg + 1) [tt])
      as [ps0 exit0].
    destruct (argumentLoop pruneCandidates fuel signature (searchPos + 1) (arg + 1)
                (filter (acceptsArgument arg argument) (c :: cs))) as [ps exit].
    cbn [fst snd map] in *.
    assert (Hboth : filter (acceptsArguments (arg + 1) (map fst ps0))
                      (filter (acceptsArgument arg argument) (c :: cs))
                    = filter (acceptsArguments arg (argument :: map fst ps0)) (c :: cs)).
    { rewrite filter_filter_and. apply filter_ext. intros it.
      cbn [acceptsArguments]. rewrite Nat.add_1_r. reflexivity. }
    destruct exit0 as [|p n l]; [exact IH|].
    cbv zeta in IH. rewrite Hboth in IH. exact IH.
Qed.

(** The annotation of a resolution is that of the first located
    candidate that accepts every argument of the tokenizer and passes the
    final filter. *)
Lemma narrowCandidates_first_survivor signature lParenPos range located :
  annotation (narrowCandidates signature lParenPos range located)
  = match signatureArguments signature lParenPos with
    | None => NoUse
    | Some arguments =>
        match survivors arguments located with
        | [] => NoUse
        | used :: _ => RegisterUse used range
        end
    end.
Proof.
  unfold narrowCandidates, signatureArguments, survivors. cbv zeta.
  pose proof (argumentLoop_filters signature (S (size signature - (lParenPos + 1)))
                (lParenPos + 1) 0 located) as Hloop.
  pose proof (argumentLoop_counts keepAll (S (size signature - (lParenPos + 1)))
                signature (lParenPos + 1) 0 [tt]) as Hcount.
  destruct (argumentLoop keepAll (S (size signature - (lParenPos + 1)))
              signature (lParenPos + 1) 0 [tt]) as [ps0 exit0].
  destruct (argumentLoop pruneCandidates (S (size signature - (lParenPos + 1)))
              signature (lParenPos + 1) 0 located) as [ps exit].
  cbn [fst snd] in *.
  destruct exit0 as [|p n l].
  - destruct Hloop as [-> | (p & n & ->)]; [reflexivity|].
    destruct (negb (p =? size signature)); reflexivity.
  - cbv zeta in Hloop. cbn [Nat.add] in Hcount. subst n.
    destruct (p =? size signature) eqn:Hp.
    + rewrite length_map.
      destruct Hloop as [-> | [(p' & n' & ->) Hnone]].
      * rewrite Hp. cbn [negb].
        destruct (finalFilter (List.length ps0)
                    (filter (acceptsArguments 0 (map fst ps0)) located)); reflexivity.
      * rewrite Hnone.
        destruct (negb (p' =? size signature)); reflexivity.
    + destruct Hloop as [-> | [(p' & n' & ->) _]].
      * rewrite Hp. reflexivity.
      * destruct (negb (p' =? size signature)); reflexivity.
Qed.

(** C9. The final filter is reached when the signature's arguments are
    read to the end and some located candidate accepts them all.  It
    then takes the candidates the last pruning pass left, [supplied]
    being the number of arguments: a candidate is kept when it requires
    at most [supplied] arguments, or when it has exactly [supplied + 1]
    parameters and the extra one prints as [QPrivateSignal]; every
    other candidate is dropped, and the order of the kept ones is
    unchanged.  What is registered is the first candidate kept, and
    nothing when none is kept: a method that is registered passed the
    filter. *)
Theorem final_filter_sentinel :
  forall signature lParenPos range located arguments,
    signatureArguments signature lParenPos = Some arguments ->
    filter (acceptsArguments 0 arguments) located <> [] ->
    let r := narrowCandidates signature lParenPos range located in
    let supplied := List.length arguments in
    let before := last (map snd (passes r)) located in
    let kept := fun it =>
      minRequiredArguments it <= supplied
      \/ (getNumParams it = supplied + 1
          /\ getAsString (getParamType it supplied) = QPrivateSignal) in
    List.length (passes r) = supplied
    /\ before = filter (acceptsArguments 0 arguments) located
    /\ exists survivors,
         filtered r = Some survivors
         /\ survivors = finalFilter supplied before
         /\ subseq survivors before
         /\ (forall it, In it survivors <-> In it before /\ kept it)
         /\ annotation r
            = match survivors with
              | [] => NoUse
              | used :: _ => RegisterUse used range
              end
         /\ forall used range',
              annotation r = RegisterUse used range' ->
              range' = range /\ In used before /\ kept used.
Proof.
  intros signature lParenPos range located arguments Hargs Hsome.
  unfold narrowCandidates. unfold signatureArguments in Hargs. cbv zeta in *.
  pose proof (argumentLoop_filters signature (S (size signature - (lParenPos + 1)))
                (lParenPos + 1) 0 located) as Hloop.
  pose proof (argumentLoop_counts keepAll (S (size signature - (lParenPos + 1)))
                signature (lParenPos + 1) 0 [tt]) as Hcount0.
  pose proof (argumentLoop_counts pruneCandidates
                (S (size signature - (lParenPos + 1))) signature (lParenPos + 1) 0 located)
    as Hcount.
  pose proof (argumentLoop_shrinks pruneCandidates pruneCandidates_subseq
                (S (size signature - (lParenPos + 1))) signature (lParenPos + 1) 0 located)
    as [_ Hlast].
  destruct (argumentLoop keepAll (S (size signature - (lParenPos + 1)))
              signature (lParenPos + 1) 0 [tt]) as [ps0 exit0].
  destruct exit0 as [|p n l]; [discriminate Hargs|].
  destruct (p =? size signature) eqn:Hp; [|discriminate Hargs].
  injection Hargs as <-.
  cbn [fst snd] in Hloop, Hcount0. cbv zeta in Hloop.
  destruct Hloop as [Hexit | [_ Hnone]]; [|contradiction].
  destruct (argumentLoop pruneCandidates (S (size signature - (lParenPos + 1)))
              signature (lParenPos + 1) 0 located) as [ps exit].
  cbn [fst snd] in Hexit, Hcount, Hlast. subst exit.
  cbn [Nat.add] in Hcount, Hcount0.
  rewrite Hp. cbn [negb].
  rewrite length_map.
  assert (Hn : List.length ps = List.length ps0) by congruence.
  set (before := filter (acceptsArguments 0 (map fst ps0)) located) in *.
  assert (Hpasses :
            passes (match finalFilter n before with
                    | [] => mkResolution ps (Some (finalFilter n before)) NoUse
                    | used :: _ =>
                        mkResolution ps (Some (finalFilter n before))
                          (RegisterUse used range)
                    end) = ps) by (destruct (finalFilter n before); reflexivity).
  assert (Hfiltered :
            filtered (match finalFilter n before with
                      | [] => mkResolution ps (Some (finalFilter n before)) NoUse
                      | used :: _ =>
                          mkResolution ps (Some (finalFilter n before))
                            (RegisterUse used range)
                      end) = Some (finalFilter n before))
    by (destruct (finalFilter n before); reflexivity).
  assert (Hannotation :
            annotation (match finalFilter n before with
                        | [] => mkResolution ps (Some (finalFilter n before)) NoUse
                        | used :: _ =>
                            mkResolution ps (Some (finalFilter n before))
                              (RegisterUse used range)
                        end)
            = match finalFilter n before with
              | [] => NoUse
              | used :: _ => RegisterUse used range
              end) by (destruct (finalFilter n before); reflexivity).
  rewrite Hpasses, Hfiltered, Hannotation. subst n.
  split; [exact Hn|]. split; [symmetry; exact Hlast|].
  exists (finalFilter (List.length ps0) before).
  rewrite <- Hlast.
  split; [reflexivity|]. split; [reflexivity|].
  split; [apply finalFilter_subseq|].
  split; [intros it; apply finalFilter_In|]. split; [reflexivity|].
  intros used range' Hused.
  destruct (finalFilter (List.length ps0) before) as [|first rest] eqn:Hfilter;
    [discriminate Hused|].
  injection Hused as <- <-. split; [reflexivity|].
  apply (finalFilter_In (List.length ps0) before first).
  rewrite Hfilter. left. reflexivity.
Qed.

Lemma final_filter_sentinel_witness :
  let signature := ofString "2moved(int)" in
  let located := [Slider_moved; Slider_movedPrivate] in
  let arguments :=
    match signatureArguments signature 6 with Some a => a | None => [] end in
  let r := narrowCandidates signature 6 LiteralRange located in
  let supplied := List.length arguments in
  let before := last (map snd (passes r)) located in
  let kept := fun it =>
    minRequiredArguments it <= supplied
    \/ (getNumParams it = supplied + 1
        /\ getAsString (getParamType it supplied) = QPrivateSignal) in
  List.length (passes r) = supplied
  /\ before = filter (acceptsArguments 0 arguments) located
  /\ exists survivors,
       filtered r = Some survivors
       /\ survivors = finalFilter supplied before
       /\ subseq survivors before
       /\ (forall it, In it survivors <-> In it before /\ kept it)
       /\ annotation r
          = match survivors with
            | [] => NoUse
            | used :: _ => RegisterUse used LiteralRange
            end
       /\ forall used range',
            annotation r = RegisterUse used range' ->
            range' = LiteralRange /\ In used before /\ kept used.
Proof.
  apply (final_filter_sentinel (ofString "2moved(int)") 6 LiteralRange
           [Slider_moved; Slider_movedPrivate]).
  - reflexivity.
  - vm_compute. discriminate.
Defined.

(** Two overloads, the first with two [int] parameters, the second a
    private signal: for one argument both are left by the pruning pass,
    the final filter keeps the second alone, and it is registered; for
    two arguments the first is registered. *)
Lemma private_signal_overload :
  let r := narrowCandidates (ofString "2moved(int)") 6 LiteralRange
             [Slider_moved; Slider_movedPrivate] in
  map snd (passes r) = [[Slider_moved; Slider_movedPrivate]]
  /\ filtered r = Some [Slider_movedPrivate]
  /\ annotation r = RegisterUse Slider_movedPrivate LiteralRange
  /\ handleSignalOrSlot 2 sliderDecls (Some (pointerTo "Slider"%string))
       (Some (StringLiteral 1 "2moved(int)" 1))
     = Some (RegisterUse Slider_movedPrivate LiteralRange)
  /\ handleSignalOrSlot 2 sliderDecls (Some (pointerTo "Slider"%string))
       (Some (StringLiteral 1 "2moved(int,int)" 1))
     = Some (RegisterUse Slider_moved LiteralRange).
Proof. repeat split; reflexivity. Qed.

(** X3. The loop that erases candidates argument by argument, the final
    filter and the choice of the first candidate amount to this: read the
    arguments as the tokenizer does; if that fails register nothing;
    otherwise register the first located candidate, in the order of the
    lookup, that accepts every argument at its position and passes the
    final filter, and nothing when there is none. *)
Theorem resolution_is_first_survivor :
  forall signature lParenPos range located,
    annotation (narrowCandidates signature lParenPos range located)
    = match signatureArguments signature lParenPos with
      | None => NoUse
      | Some arguments =>
          match survivors arguments located with
          | [] => NoUse
          | used :: _ => RegisterUse used range
          end
      end.
Proof. exact narrowCandidates_first_survivor. Qed.

Lemma acceptsArguments_params arguments :
  forall arg it,
    acceptsArguments arg arguments it = true ->
    arg + List.length arguments <= getNumParams it \/ arguments = [].
Proof.
  induction arguments as [|a rest IH]; intros arg it H; [right; reflexivity|].
  left. cbn [acceptsArguments] in H. apply andb_true_iff in H. destruct H as [Ha Hrest].
  unfold acceptsArgument in Ha. apply andb_true_iff in Ha. destruct Ha as [Hn _].
  apply negb_true_iff, Nat.ltb_ge in Hn.
  destruct (IH (S arg) it Hrest) as [Hle | ->]; simpl in *; lia.
Qed.

(** X4. Whatever [handleSignalOrSlot] registers was asked for: the
    literal is a signature whose arguments the tokenizer reads, and the
    registered method has the name written in it, a parameter for every
    argument, every argument matching the parameter at its position, and
    it passes the final filter for that number of arguments. *)
Theorem registered_use_is_sound :
  forall fuel decls objClass literal numConcatenated r used range,
    resolveSignature fuel decls objClass literal numConcatenated = Some r ->
    annotation r = RegisterUse used range ->
    exists signature lParenPos methodName arguments,
      parseSignature (ofString literal) = Some (signature, lParenPos, methodName)
      /\ signatureArguments signature lParenPos = Some arguments
      /\ hasName methodName used = true
      /\ List.length arguments <= getNumParams used
      /\ acceptsArguments 0 arguments used = true
      /\ needsMoreArguments (List.length arguments) used = false.
Proof.
  intros fuel decls objClass literal numConcatenated r used range Hres Hann.
  destruct (resolveSignature_narrows _ _ _ _ _ _ Hres)
    as [[_ ->] | (signature & lParenPos & methodName & located & range' & Hparse & Hlook & ->)];
    [discriminate Hann|].
  rewrite narrowCandidates_first_survivor in Hann.
  destruct (signatureArguments signature lParenPos) as [arguments|] eqn:Hargs;
    [|discriminate Hann].
  destruct (survivors arguments located) as [|first rest] eqn:Hsurv; [discriminate Hann|].
  injection Hann as -> _.
  assert (Hin : In used (survivors arguments located)) by (rewrite Hsurv; left; reflexivity).
  unfold survivors, finalFilter in Hin.
  apply filter_In in Hin. destruct Hin as [Hin Hfinal].
  apply filter_In in Hin. destruct Hin as [Hin Haccepts].
  apply negb_true_iff in Hfinal.
  exists signature, lParenPos, methodName, arguments.
  split; [exact Hparse|]. split; [exact Hargs|]. split.
  { pose proof (lookUpLoop_sound fuel decls methodName (Some objClass) None [] 0) as Hs.
    unfold lookUpCandidates in Hlook.
    destruct (lookUpLoop fuel decls methodName (Some objClass) None [] 0)
      as [result|]; [|discriminate Hlook].
    injection Hlook as <-.
    specialize (Hs result (Forall_nil _) eq_refl).
    rewrite Forall_forall in Hs. exact (proj1 (Hs used Hin)). }
  split; [|split; [exact Haccepts | exact Hfinal]].
  destruct (acceptsArguments_params arguments 0 used Haccepts) as [Hle | ->];
    [exact Hle | simpl; lia].
Qed.

Lemma registered_use_is_sound_witness :
  exists signature lParenPos methodName arguments,
    parseSignature (ofString "2changed(int)") = Some (signature, lParenPos, methodName)
    /\ signatureArguments signature lParenPos = Some arguments
    /\ hasName methodName Emitter_changed = true
    /\ List.length arguments <= getNumParams Emitter_changed
    /\ acceptsArguments 0 arguments Emitter_changed = true
    /\ needsMoreArguments (List.length arguments) Emitter_changed = false.
Proof.
  apply (registered_use_is_sound 2 emitterDecls "Emitter"%string "2changed(int)"%string 1
           (narrowCandidates (ofString "2changed(int)") 8 LiteralRange
              [Emitter_changed])
           Emitter_changed LiteralRange).
  - reflexivity.
  - reflexivity.
Defined.

(** ** Where the scan for the end of an argument stops *)

Lemma findTerminator_stops signature :
  forall fuel searchPos,
    size signature - searchPos <= fuel ->
    searchPos <= size signature ->
    findTerminator fuel signature searchPos < size signature ->
    isChar "," (charAt signature (findTerminator fuel signature searchPos))
    || isChar ")" (charAt signature (findTerminator fuel signature searchPos)) = true.
Proof.
  induction fuel as [|fuel IH]; intros searchPos Hfuel Hle Hlt.
  - simpl in Hlt. lia.
  - rewrite findTerminator_S in *.
    destruct (searchPos <? size signature) eqn:Hin; cbn [andb] in *;
      [|apply Nat.ltb_ge in Hin; lia].
    apply Nat.ltb_lt in Hin.
    destruct (isChar "," (charAt signature searchPos)) eqn:Hcomma; cbn [negb andb] in *;
      [rewrite Hcomma; reflexivity|].
    destruct (isChar ")" (charAt signature searchPos)) eqn:Hparen; cbn [negb andb] in *;
      [rewrite Hparen; apply orb_true_r|].
    destruct (isChar "<" (charAt signature searchPos)).
    + pose proof (skipTemplate_bounds (size signature - S searchPos) signature
                    (S searchPos) 0 0) as [Hge Hbound].
      apply IH; [lia | apply Hbound; lia | exact Hlt].
    + apply IH; [lia | lia | exact Hlt].
Qed.

(** X5. The position the scan for the end of an argument returns lies
    between the start of the argument and the end of the signature, and
    when it is not the end of the signature the character there is [,]
    or [)]: the reads of [signature[searchPos]] that follow are in
    range. *)
Theorem scan_stops_at_separator_or_end :
  forall signature argPos,
    argPos <= size signature ->
    argPos <= findTerminator (size signature - argPos) signature argPos <= size signature
    /\ (findTerminator (size signature - argPos) signature argPos < size signature ->
        isChar "," (charAt signature
                      (findTerminator (size signature - argPos) signature argPos))
        || isChar ")" (charAt signature
                         (findTerminator (size signature - argPos) signature argPos))
        = true).
Proof.
  intros signature argPos Hle.
  pose proof (findTerminator_bounds (size signature - argPos) signature argPos)
    as [Hge Hbound].
  split; [split; [exact Hge | exact (Hbound Hle)]|].
  apply findTerminator_stops; [lia | exact Hle].
Qed.

Lemma scan_stops_at_separator_or_end_witness :
  3 <= findTerminator (size (ofString "1f(QMap<int,QString") - 3)
         (ofString "1f(QMap<int,QString") 3
    <= size (ofString "1f(QMap<int,QString")
  /\ (findTerminator (size (ofString "1f(QMap<int,QString") - 3)
        (ofString "1f(QMap<int,QString") 3
      < size (ofString "1f(QMap<int,QString") ->
      isChar "," (charAt (ofString "1f(QMap<int,QString")
                    (findTerminator (size (ofString "1f(QMap<int,QString") - 3)
                       (ofString "1f(QMap<int,QString") 3))
      || isChar ")" (charAt (ofString "1f(QMap<int,QString")
                       (findTerminator (size (ofString "1f(QMap<int,QString") - 3)
                          (ofString "1f(QMap<int,QString") 3))
      = true).
Proof.
  apply (scan_stops_at_separator_or_end (ofString "1f(QMap<int,QString") 3).
  vm_compute. lia.
Defined.

(** ** Texts that differ in spaces only *)

Lemma skipn_nth_error {A} (l : list A) n x rest :
  skipn n l = x :: rest -> nth_error l n = Some x /\ skipn (S n) l = rest.
Proof.
  revert n. induction l as [|y l IH]; intros n H.
  - rewrite skipn_nil in H. discriminate.
  - destruct n as [|n]; simpl in *.
    + injection H as -> ->. split; reflexivity.
    + apply IH. exact H.
Qed.

Lemma noTrailingSpace_tail c l : noTrailingSpace (c :: l) -> noTrailingSpace l.
Proof.
  unfold noTrailingSpace. intros H Hne. destruct l as [|x l]; [contradiction|].
  apply H. discriminate.
Qed.

Lemma withoutSpaces_nil l :
  withoutSpaces l = [] -> noTrailingSpace l -> l = [].
Proof.
  unfold noTrailingSpace. induction l as [|c l IH]; intros Hw Hlast; [reflexivity|].
  exfalso.
  assert (Hl : l = []).
  { apply IH.
    - unfold withoutSpaces in *. simpl in Hw.
      destruct (negb (isChar " " c)); [discriminate Hw | exact Hw].
    - exact (noTrailingSpace_tail c l Hlast). }
  subst l. specialize (Hlast ltac:(discriminate)). simpl in Hlast.
  unfold withoutSpaces in Hw. simpl in Hw. rewrite Hlast in Hw. discriminate Hw.
Qed.

Lemma compareLoop_spaces sigBuffer parBuffer :
  forall fuel la lb sigIt parIt ra rb,
    skipn sigIt sigBuffer = (la ++ ra)%list ->
    skipn parIt parBuffer = (lb ++ rb)%list ->
    withoutSpaces la = withoutSpaces lb ->
    noTrailingSpace la -> noTrailingSpace lb ->
    List.length la + List.length lb <= fuel ->
    compareLoop fuel sigBuffer sigIt (sigIt + List.length la)
      parBuffer parIt (parIt + List.length lb)
    = (sigIt + List.length la, parIt + List.length lb).
Proof.
  induction fuel as [|fuel IH]; intros la lb sigIt parIt ra rb Hsa Hsb Hw Hta Htb Hfuel.
  - destruct la; destruct lb; simpl in Hfuel; try lia.
    simpl. rewrite !Nat.add_0_r. reflexivity.
  - rewrite compareLoop_S.
    destruct la as [|s la].
    { assert (Hlb : lb = []) by (apply withoutSpaces_nil; [symmetry; exact Hw | exact Htb]).
      subst lb. simpl. rewrite !Nat.add_0_r, Nat.eqb_refl. reflexivity. }
    destruct lb as [|p lb].
    { assert (Hla : s :: la = []) by (apply withoutSpaces_nil; [exact Hw | exact Hta]).
      discriminate Hla. }
    assert (Hs : (sigIt =? sigIt + List.length (s :: la)) = false)
      by (apply Nat.eqb_neq; simpl; lia).
    assert (Hp : (parIt =? parIt + List.length (p :: lb)) = false)
      by (apply Nat.eqb_neq; simpl; lia).
    rewrite Hs, Hp. cbn [negb andb].
    destruct (skipn_nth_error _ _ _ _ Hsa) as [Hns Hsa'].
    destruct (skipn_nth_error _ _ _ _ Hsb) as [Hnp Hsb'].
    rewrite Hns, Hnp.
    pose proof (noTrailingSpace_tail _ _ Hta) as Hta'.
    pose proof (noTrailingSpace_tail _ _ Htb) as Htb'.
    cbn [List.length] in *.
    replace (sigIt + S (List.length la)) with (S sigIt + List.length la) by lia.
    replace (parIt + S (List.length lb)) with (S parIt + List.length lb) by lia.
    unfold withoutSpaces in Hw. cbn [filter] in Hw.
    destruct (Ascii.eqb s p) eqn:Hsp.
    + apply Ascii.eqb_eq in Hsp. subst p.
      apply (IH la lb (S sigIt) (S parIt) ra rb Hsa' Hsb'); [|exact Hta' | exact Htb' | lia].
      unfold withoutSpaces.
      destruct (negb (isChar " " s)); [injection Hw as Hw; exact Hw | exact Hw].
    + destruct (isChar " " s) eqn:Hspace_s; cbn [negb] in Hw.
      * replace (S parIt + List.length lb) with (parIt + List.length (p :: lb))
          by (simpl; lia).
        apply (IH la (p :: lb) (S sigIt) parIt ra rb Hsa' Hsb);
          [|exact Hta' | exact Htb | simpl; lia].
        unfold withoutSpaces. cbn [filter]. exact Hw.
      * destruct (isChar " " p) eqn:Hspace_p; cbn [negb] in Hw.
        -- replace (S sigIt + List.length la) with (sigIt + List.length (s :: la))
             by (simpl; lia).
           apply (IH (s :: la) lb sigIt (S parIt) ra rb Hsa Hsb');
             [|exact Hta | exact Htb' | simpl; lia].
           unfold withoutSpaces. cbn [filter]. rewrite Hspace_s. exact Hw.
        -- injection Hw as Heq _. subst p. rewrite Ascii.eqb_refl in Hsp. discriminate Hsp.
Qed.

(** X6. Two texts that are the same once their spaces are left out, and
    that do not end with a space, are judged equal by the comparison of
    the pruning pass. *)
Theorem texts_equal_up_to_spaces_match :
  forall argument typeString,
    wellFormed argument -> wellFormed typeString ->
    noTrailingSpace (chars argument) -> noTrailingSpace (chars typeString) ->
    withoutSpaces (chars argument) = withoutSpaces (chars typeString) ->
    sameTypeText argument typeString = true.
Proof.
  intros argument typeString Hwa Hwt Hta Htt Hw.
  unfold sameTypeText.
  pose proof (length_chars argument Hwa) as Hla.
  pose proof (length_chars typeString Hwt) as Hlt.
  rewrite <- Hla, <- Hlt.
  rewrite (compareLoop_spaces (Buffer argument) (Buffer typeString) _
             (chars argument) (chars typeString) (Data argument) (Data typeString)
             (skipn (Length argument) (skipn (Data argument) (Buffer argument)))
             (skipn (Length typeString) (skipn (Data typeString) (Buffer typeString)))).
  - rewrite !Nat.eqb_refl. reflexivity.
  - unfold chars. rewrite firstn_skipn. reflexivity.
  - unfold chars. rewrite firstn_skipn. reflexivity.
  - exact Hw.
  - exact Hta.
  - exact Htt.
  - unfold wellFormed in *. lia.
Qed.

Lemma texts_equal_up_to_spaces_match_witness :
  sameTypeText (ofString "QMap<int,QString>  *") (ofString "QMap<int, QString> *") = true.
Proof.
  apply texts_equal_up_to_spaces_match.
  - apply wellFormed_ofChars.
  - apply wellFormed_ofChars.
  - intros _. reflexivity.
  - intros _. reflexivity.
  - reflexivity.
Defined.

(** ** The call sites the visitors dispatch *)

Lemma runHandlerCalls_length fuel decls calls annotations :
  runHandlerCalls fuel decls calls = Some annotations ->
  List.length annotations = List.length calls.
Proof.
  revert annotations. induction calls as [|call rest IH]; intros annotations H.
  - injection H as <-. reflexivity.
  - cbn [runHandlerCalls] in H.
    destruct (runHandlerCall fuel decls call); [|discriminate H].
    destruct (runHandlerCalls fuel decls rest) as [l|]; [|discriminate H].
    injection H as <-. simpl. rewrite (IH l eq_refl). reflexivity.
Qed.

(** Case analysis on the conditions left in the goal. *)
Ltac split_conditions :=
  repeat match goal with
         | |- context [if ?b then _ else _] => destruct b
         | |- context [match ?o with Some _ => _ | None => _ end] => destruct o
         end.

(** The class name is one of the given names, each tried in turn with
    [tac], or none of them. *)
Ltac by_class P tac :=
  repeat match goal with
         | |- context [String.eqb P ?s] =>
             let E := fresh "E" in
             destruct (String.eqb P s) eqn:E;
             [apply String.eqb_eq in E; subst P; tac|]
         end.

Lemma callsOfCallExpr_bound e : List.length (callsOfCallExpr e) <= 2.
Proof.
  unfold callsOfCallExpr.
  destruct (calleeMethod e) as [methodDecl|]; [|simpl; lia].
  destruct (identifier methodDecl) as [name|]; [|simpl; lia].
  cbv zeta. generalize (parent methodDecl) as P. intros P.
  destruct (negb (String.prefix "Q" P)); [simpl; lia|].
  by_class P ltac:(cbn [String.eqb Ascii.eqb Bool.eqb andb orb app];
                   rewrite ?andb_false_r; cbn [app];
                   split_conditions; simpl; lia).
  rewrite ?andb_false_r. cbn [andb orb app]. simpl. lia.
Qed.

Lemma callsOfCallExpr_recognized e :
  callsOfCallExpr e <> [] ->
  exists methodDecl name,
    calleeMethod e = Some methodDecl
    /\ identifier methodDecl = Some name
    /\ In (parent methodDecl, name) recognizedCalls.
Proof.
  unfold callsOfCallExpr.
  destruct (calleeMethod e) as [methodDecl|]; [|intros H; exfalso; apply H; reflexivity].
  destruct (identifier methodDecl) as [name|] eqn:Hid;
    [|intros H; exfalso; apply H; reflexivity].
  cbv zeta. intros H. exists methodDecl, name.
  split; [reflexivity|]. split; [exact Hid|].
  revert H. generalize (parent methodDecl) as P. intros P.
  destruct (negb (String.prefix "Q" P)); [intros H; exfalso; apply H; reflexivity|].
  by_class P ltac:(cbn [String.eqb Ascii.eqb Bool.eqb andb orb app];
                   rewrite ?andb_false_r; cbn [app];
                   repeat match goal with
                          | |- context [String.eqb name ?s] =>
                              let E := fresh "E" in
                              destruct (String.eqb name s) eqn:E;
                              [apply String.eqb_eq in E; subst name;
                               intros _; simpl; tauto|]
                          end;
                   cbn [andb orb app]; intros H; exfalso; apply H; reflexivity).
  rewrite ?andb_false_r. cbn [andb orb app]. intros H. exfalso. apply H. reflexivity.
Qed.

(** X7. One call expression leads to at most two calls of the handlers,
    so at most two uses are registered for it. *)
Theorem call_expression_registers_at_most_two :
  forall fuel decls e annotations,
    visitCallExpr fuel decls e = Some annotations ->
    List.length annotations <= 2.
Proof.
  intros fuel decls e annotations H.
  rewrite (runHandlerCalls_length _ _ _ _ H). apply callsOfCallExpr_bound.
Qed.

(** X8. A call expression that makes [visitCallExpr] call a handler is a
    call of a method of one of the listed classes with the listed name;
    for every other callee nothing is looked up and nothing is
    registered.  The list has [QToolbar] as the source spells it. *)
Theorem call_expression_is_recognized :
  forall fuel decls e annotations,
    visitCallExpr fuel decls e = Some annotations ->
    annotations <> [] ->
    exists methodDecl name,
      calleeMethod e = Some methodDecl
      /\ identifier methodDecl = Some name
      /\ In (parent methodDecl, name) recognizedCalls.
Proof.
  intros fuel decls e annotations H Hne.
  apply callsOfCallExpr_recognized. intros Hnil.
  unfold visitCallExpr in H. rewrite Hnil in H. injection H as <-.
  apply Hne. reflexivity.
Qed.

(** A call [QObject::connect(counter, SIGNAL(increment(int)), counter,
    SLOT(increment()))] of the static method, for the class [Counter]. *)
Lemma connect_example :
  visitCallExpr 2 counterDecls
    (mkCallExprSite
       (Some (mkMethod "QObject"%string (Some "connect"%string) [] 4 voidType)) true
       [pointerTo "Counter"%string; StringLiteral 1 "2increment(int)" 1;
        pointerTo "Counter"%string; StringLiteral 1 "1increment()" 1]
       None)
  = Some [RegisterUse increment1 LiteralRange; RegisterUse increment0 LiteralRange].
Proof. reflexivity. Qed.

Lemma call_expression_registers_at_most_two_witness :
  List.length [RegisterUse increment1 LiteralRange; RegisterUse increment0 LiteralRange]
  <= 2.
Proof.
  apply (call_expression_registers_at_most_two 2 counterDecls
           (mkCallExprSite
              (Some (mkMethod "QObject"%string (Some "connect"%string) [] 4 voidType)) true
              [pointerTo "Counter"%string; StringLiteral 1 "2increment(int)" 1;
               pointerTo "Counter"%string; StringLiteral 1 "1increment()" 1]
              None)).
  reflexivity.
Defined.

Lemma call_expression_is_recognized_witness :
  exists methodDecl name,
    calleeMethod
      (mkCallExprSite
         (Some (mkMethod "QMetaObject"%string (Some "invokeMethod"%string) [] 2 voidType)) true
         [pointerTo "B"%string; StringLiteral 1 "slotName" 1] None)
    = Some methodDecl
    /\ identifier methodDecl = Some name
    /\ In (parent methodDecl, name) recognizedCalls.
Proof.
  apply (call_expression_is_recognized 2 privateImplDecls _
           [RegisterUse B_slotName LiteralRange]).
  - reflexivity.
  - discriminate.
Defined.

(** The class that Qt names QToolBar is not in the list: its
    [addAction] is never dispatched, whatever the arguments. *)
Lemma qtoolbar_is_not_dispatched fuel decls e methodDecl :
  calleeMethod e = Some methodDecl ->
  parent methodDecl = "QToolBar"%string ->
  visitCallExpr fuel decls e = Some [].
Proof.
  intros Hm Hp. unfold visitCallExpr.
  destruct (callsOfCallExpr e) as [|call rest] eqn:Hcalls; [reflexivity|].
  exfalso.
  destruct (callsOfCallExpr_recognized e) as (m & name & Hm' & _ & Hin).
  { rewrite Hcalls. discriminate. }
  rewrite Hm in Hm'. injection Hm' as <-. rewrite Hp in Hin.
  simpl in Hin.
  repeat (destruct Hin as [Hin | Hin]; [discriminate Hin|]). exact Hin.
Qed.

Lemma callsOfConstructExpr_bound e : List.length (callsOfConstructExpr e) <= 2.
Proof.
  unfold callsOfConstructExpr.
  destruct (constructorParent e) as [P|]; [|simpl; lia].
  cbv zeta. destruct (negb (String.prefix "Q" P)); [simpl; lia|].
  by_class P ltac:(cbn [String.eqb Ascii.eqb Bool.eqb andb orb app];
                   split_conditions; simpl; lia).
  simpl. lia.
Qed.

Lemma callsOfConstructExpr_recognized e :
  callsOfConstructExpr e <> [] ->
  exists parentName,
    constructorParent e = Some parentName /\ In parentName recognizedConstructors.
Proof.
  unfold callsOfConstructExpr.
  destruct (constructorParent e) as [P|]; [|intros H; exfalso; apply H; reflexivity].
  cbv zeta. intros H. exists P. split; [reflexivity|]. revert H.
  destruct (negb (String.prefix "Q" P)); [intros H; exfalso; apply H; reflexivity|].
  by_class P ltac:(intros _; simpl; tauto).
  intros H. exfalso. apply H. reflexivity.
Qed.

(** X9. A constructor call leads to at most two calls of
    [handleSignalOrSlot], and to none unless the class constructed is
    QShortcut, QSignalSpy or QSignalTransition. *)
Theorem construct_expression_dispatch :
  forall fuel decls e annotations,
    visitCXXConstructExpr fuel decls e = Some annotations ->
    List.length annotations <= 2
    /\ (annotations <> [] ->
        exists parentName,
          constructorParent e = Some parentName
          /\ In parentName recognizedConstructors).
Proof.
  intros fuel decls e annotations H. split.
  - rewrite (runHandlerCalls_length _ _ _ _ H). apply callsOfConstructExpr_bound.
  - intros Hne. apply callsOfConstructExpr_recognized. intros Hnil.
    unfold visitCXXConstructExpr in H. rewrite Hnil in H. injection H as <-.
    apply Hne. reflexivity.
Qed.

Lemma construct_expression_dispatch_witness :
  List.length [RegisterUse increment1 LiteralRange; NoUse] <= 2
  /\ ([RegisterUse increment1 LiteralRange; NoUse] <> [] ->
      exists parentName,
        constructorParent
          (mkConstructExprSite (Some "QShortcut"%string)
             [OtherExpr intType; pointerTo "Counter"%string;
              StringLiteral 1 "1increment(int)" 1;
              StringLiteral 1 "1increment(bool)" 1])
        = Some parentName
        /\ In parentName recognizedConstructors).
Proof.
  apply (construct_expression_dispatch 2 counterDecls
           (mkConstructExprSite (Some "QShortcut"%string)
              [OtherExpr intType; pointerTo "Counter"%string;
               StringLiteral 1 "1increment(int)" 1;
               StringLiteral 1 "1increment(bool)" 1])).
  reflexivity.
Defined.

(** ** Replacing characters in file names *)

Lemma replaceChar_length old new str :
  List.length (replaceChar old new str) = List.length str.
Proof. induction str as [|c rest IH]; simpl; [reflexivity | rewrite IH; reflexivity]. Qed.

Lemma replaceChar_lacks old new str :
  old <> new -> lacks old (replaceChar old new str).
Proof.
  unfold lacks. intros Hne. induction str as [|c rest IH]; simpl; [tauto|].
  intros [H | H]; [|exact (IH H)].
  destruct (Ascii.eqb c old) eqn:E.
  - apply Hne. symmetry. exact H.
  - apply Ascii.eqb_neq in E. apply E. exact H.
Qed.

Lemma replaceChar_unchanged old new str :
  lacks old str -> replaceChar old new str = str.
Proof.
  unfold lacks. induction str as [|c rest IH]; intros Hno; [reflexivity|].
  simpl. destruct (Ascii.eqb c old) eqn:E.
  - apply Ascii.eqb_eq in E. exfalso. apply Hno. left. exact E.
  - rewrite IH; [reflexivity|]. intros H. apply Hno. right. exact H.
Qed.

Lemma replaceChar_keeps old new other str :
  other <> new -> lacks other str -> lacks other (replaceChar old new str).
Proof.
  unfold lacks. intros Hne. induction str as [|c rest IH]; intros Hno; simpl; [tauto|].
  intros [H | H].
  - destruct (Ascii.eqb c old).
    + apply Hne. symmetry. exact H.
    + apply Hno. left. exact H.
  - apply IH; [|exact H]. intros Hin. apply Hno. right. exact Hin.
Qed.

Lemma replaceChar_commute old1 new1 old2 new2 str :
  old1 <> old2 -> new1 <> old2 -> new2 <> old1 ->
  replaceChar old2 new2 (replaceChar old1 new1 str)
  = replaceChar old1 new1 (replaceChar old2 new2 str).
Proof.
  intros Hoo Hn1 Hn2. induction str as [|c rest IH]; [reflexivity|].
  simpl. rewrite IH. f_equal.
  destruct (Ascii.eqb c old1) eqn:E1; destruct (Ascii.eqb c old2) eqn:E2.
  - apply Ascii.eqb_eq in E1, E2. exfalso. apply Hoo. congruence.
  - apply Ascii.eqb_neq in Hn1. rewrite ?Hn1, ?E1, ?E2. reflexivity.
  - apply Ascii.eqb_neq in Hn2. rewrite ?Hn2, ?E1, ?E2. reflexivity.
  - rewrite ?E1, ?E2. reflexivity.
Qed.

(** X10. After [make_forward_slashes] on a string no backslash is left
    and the length is the same; a string without backslash is not
    changed, so a second call changes nothing. *)
Theorem forward_slashes_postcondition :
  forall str,
    lacks "\" (make_forward_slashes_string str)
    /\ List.length (make_forward_slashes_string str) = List.length str
    /\ (lacks "\" str -> make_forward_slashes_string str = str)
    /\ make_forward_slashes_string (make_forward_slashes_string str)
       = make_forward_slashes_string str.
Proof.
  intros str. unfold make_forward_slashes_string.
  assert (Hno : lacks "\" (replaceChar "\" "/" str))
    by (apply replaceChar_lacks; discriminate).
  split; [exact Hno|]. split; [apply replaceChar_length|]. split.
  - apply replaceChar_unchanged.
  - apply replaceChar_unchanged. exact Hno.
Qed.

(** X11. [replace_invalid_filename_chars] leaves no colon and keeps the
    length; it can be applied before or after [make_forward_slashes]
    with the same result, which has neither a colon nor a backslash. *)
Theorem filename_replacements_commute :
  forall str,
    lacks ":" (replace_invalid_filename_chars str)
    /\ List.length (replace_invalid_filename_chars str) = List.length str
    /\ replace_invalid_filename_chars (make_forward_slashes_string str)
       = make_forward_slashes_string (replace_invalid_filename_chars str)
    /\ lacks ":" (replace_invalid_filename_chars (make_forward_slashes_string str))
    /\ lacks "\" (replace_invalid_filename_chars (make_forward_slashes_string str)).
Proof.
  intros str. unfold replace_invalid_filename_chars, make_forward_slashes_string.
  split; [apply replaceChar_lacks; discriminate|].
  split; [apply replaceChar_length|].
  split; [apply replaceChar_commute; discriminate|].
  split; [apply replaceChar_lacks; discriminate|].
  apply replaceChar_keeps; [discriminate|].
  apply replaceChar_lacks. discriminate.
Qed.

(** ** The loop over a C string *)

Lemma store_at done x rest value :
  store (done ++ x :: rest) (List.length done) value = (done ++ value :: rest)%list.
Proof.
  induction done as [|a done IH]; [reflexivity|].
  change (store ((a :: done) ++ x :: rest) (List.length (a :: done)) value)
    with (a :: store (done ++ x :: rest) (List.length done) value).
  rewrite IH. reflexivity.
Qed.

Lemma skipn_past {A} (done rest : list A) :
  skipn (List.length done) (done ++ rest) = rest.
Proof. rewrite skipn_app, Nat.sub_diag, skipn_all. reflexivity. Qed.

(** The number of backslashes bounds the iterations. *)
Lemma slashLoop_string rest :
  forall s done fuel,
    lacks zero s ->
    List.length s <= fuel ->
    slashLoop fuel (done ++ s ++ zero :: rest)
      (option_map (Nat.add (List.length done)) (strchr (s ++ zero :: rest) "\"))
    = (done ++ make_forward_slashes_string s ++ zero :: rest)%list.
Proof.
  unfold lacks, make_forward_slashes_string.
  induction s as [|x s IH]; intros done fuel Hno Hfuel.
  - simpl. destruct fuel; reflexivity.
  - assert (Hno' : ~ In zero s) by (intros H; apply Hno; right; exact H).
    assert (Hx : Ascii.eqb x zero = false).
    { apply Ascii.eqb_neq. intros H. apply Hno. left. exact H. }
    simpl in Hfuel. destruct fuel as [|fuel]; [lia|].
    cbn [app strchr replaceChar]. rewrite Hx.
    destruct (Ascii.eqb x "\") eqn:E.
    + cbn [option_map slashLoop]. rewrite Nat.add_0_r.
      rewrite store_at.
      replace (List.length done + 1) with (List.length (done ++ ["/"%char]))%list
        by (rewrite length_app; simpl; lia).
      replace (done ++ "/"%char :: s ++ zero :: rest)%list
        with ((done ++ ["/"%char]) ++ s ++ zero :: rest)%list
        by (rewrite <- app_assoc; reflexivity).
      rewrite skipn_past.
      rewrite (IH (done ++ ["/"%char])%list fuel Hno' ltac:(lia)).
      rewrite <- app_assoc. reflexivity.
    + replace (option_map (Nat.add (List.length done))
                 (option_map S (strchr (s ++ zero :: rest) "\")))
        with (option_map (Nat.add (List.length (done ++ [x])%list))
                (strchr (s ++ zero :: rest) "\")).
      * replace (done ++ x :: s ++ zero :: rest)%list
          with ((done ++ [x]) ++ s ++ zero :: rest)%list
          by (rewrite <- app_assoc; reflexivity).
        rewrite (IH (done ++ [x])%list (S fuel) Hno' ltac:(lia)).
        rewrite <- app_assoc. reflexivity.
      * rewrite length_app. simpl.
        destruct (strchr (s ++ zero :: rest) "\"); simpl; [f_equal; lia | reflexivity].
Qed.

(** X12. The overload of [make_forward_slashes] for a C string does to
    the string what the overload for [std::string] does: in memory that
    holds, from [str] on, a text without null character and then the
    terminator, the text is replaced by the one of
    [make_forward_slashes], and the bytes before [str], the terminator
    and the bytes after it are as they were. *)
Theorem forward_slashes_on_c_string :
  forall before s rest,
    lacks zero s ->
    make_forward_slashes (before ++ s ++ zero :: rest) (List.length before)
    = (before ++ make_forward_slashes_string s ++ zero :: rest)%list.
Proof.
  intros before s rest Hno. unfold make_forward_slashes.
  rewrite skipn_past. apply slashLoop_string; [exact Hno|].
  rewrite !length_app. simpl. lia.
Qed.

Lemma forward_slashes_on_c_string_witness :
  make_forward_slashes (list_ascii_of_string "xy" ++ list_ascii_of_string "C:\a\b.h"
                        ++ zero :: list_ascii_of_string "\tail")%list 2
  = (list_ascii_of_string "xy" ++ list_ascii_of_string "C:/a/b.h"
     ++ zero :: list_ascii_of_string "\tail")%list.
Proof.
  apply (forward_slashes_on_c_string (list_ascii_of_string "xy")
           (list_ascii_of_string "C:\a\b.h") (list_ascii_of_string "\tail")).
  unfold lacks. simpl. intuition discriminate.
Defined.


(** ** The signature taken from the literal *)

Lemma findChar_Some c l :
  forall n,
    findChar c l = Some n ->
    n < List.length l /\ nth n l zero = c /\ lacks c (firstn n l).
Proof.
  unfold lacks. induction l as [|x l IH]; intros n Hfind; [discriminate|].
  simpl in Hfind. destruct (Ascii.eqb x c) eqn:E.
  - injection Hfind as <-. apply Ascii.eqb_eq in E. simpl.
    repeat split; [lia | exact E | intros []].
  - destruct (findChar c l) as [k|]; [|discriminate].
    injection Hfind as <-. destruct (IH k eq_refl) as (Hk & Hnth & Hno).
    simpl. repeat split; [lia | exact Hnth |].
    intros [Hx | Hin]; [|exact (Hno Hin)].
    subst x. rewrite Ascii.eqb_refl in E. discriminate.
Qed.

Lemma findChar_None c l : findChar c l = None -> lacks c l.
Proof.
  intros Hnone Hin. destruct (findChar_In c l Hin) as [n Hn]. congruence.
Qed.

Lemma In_dropWhile p x l : In x (dropWhile p l) -> In x l.
Proof.
  induction l as [|y l IH]; intros Hin; [exact Hin|].
  simpl in Hin. destruct (p y); [right; apply IH; exact Hin | exact Hin].
Qed.

Lemma lacks_trimChars c l : lacks c l -> lacks c (trimChars l).
Proof.
  unfold lacks, trimChars. intros Hno Hin. apply Hno.
  apply In_rev in Hin. apply In_dropWhile in Hin. apply In_rev in Hin.
  apply In_dropWhile in Hin. exact Hin.
Qed.

(** X18. A literal that passes the tests on the signature gives a
    signature without null character whose first [(] is at index 2 or
    later and is followed, later on, by the first [)]; so the signature
    has at least four characters also after it was cut at a null
    character, and the method name is the text between index 1 and the
    [(], trimmed. *)
Theorem parsed_signature_shape :
  forall literal signature lParenPos methodName,
    wellFormed literal ->
    parseSignature literal = Some (signature, lParenPos, methodName) ->
    wellFormed signature
    /\ lacks zero (chars signature)
    /\ find signature "(" = Some lParenPos
    /\ 2 <= lParenPos
    /\ (exists rParenPos,
          find signature ")" = Some rParenPos
          /\ lParenPos < rParenPos < size signature)
    /\ 4 <= size signature
    /\ chars methodName
       = trimChars (firstn (lParenPos - 1) (skipn 1 (chars signature))).
Proof.
  intros literal signature lParenPos methodName Hwf Hparse.
  unfold parseSignature in Hparse.
  destruct (size (trim literal) <? 4) eqn:Hsize; [discriminate|].
  set (cut := match find (trim literal) zero with
              | Some nul => trim (substr (trim literal) 0 (Some nul))
              | None => trim literal
              end) in *.
  assert (Hcut : wellFormed cut /\ lacks zero (chars cut)).
  { pose proof (wellFormed_trim _ Hwf) as Hwt. unfold cut.
    destruct (find (trim literal) zero) as [nul|] eqn:Hnul.
    - split; [apply wellFormed_trim, wellFormed_substr; exact Hwt|].
      unfold find in Hnul. destruct (findChar_Some _ _ _ Hnul) as (Hlt & _ & Hno).
      rewrite (length_chars _ Hwt) in Hlt.
      rewrite chars_trim by (apply wellFormed_substr; exact Hwt).
      rewrite chars_substr by (apply Nat.lt_le_incl; exact Hlt). cbn [skipn].
      apply lacks_trimChars. exact Hno.
    - split; [exact Hwt|]. apply findChar_None. exact Hnul. }
  destruct Hcut as [Hwc Hno].
  destruct (find cut "(") as [l|] eqn:Hl; [|discriminate].
  destruct (find cut ")") as [r|] eqn:Hr; [|discriminate].
  cbn [orb posLt] in Hparse.
  destruct ((r <? l) || (l <? 2)) eqn:Hord; [discriminate|].
  injection Hparse as <- <- <-.
  apply orb_false_iff in Hord. destruct Hord as [Hrl Hl2].
  apply Nat.ltb_ge in Hrl, Hl2.
  unfold find in Hl, Hr.
  destruct (findChar_Some _ _ _ Hl) as (Hllt & Hlch & _).
  destruct (findChar_Some _ _ _ Hr) as (Hrlt & Hrch & _).
  rewrite (length_chars _ Hwc) in Hllt, Hrlt.
  assert (Hne : l <> r).
  { intros ->. rewrite Hlch in Hrch. discriminate Hrch. }
  repeat split; try assumption.
  - exists r. unfold size, find. repeat split; [exact Hr | lia | lia].
  - unfold size. lia.
  - rewrite chars_trim by (apply wellFormed_slice; exact Hwc).
    rewrite chars_slice by lia. reflexivity.
Qed.

Lemma parsed_signature_shape_witness :
  let signature := ofChars (list_ascii_of_string "2valueChanged(int)") in
  wellFormed signature
  /\ lacks zero (chars signature)
  /\ find signature "(" = Some 13
  /\ 2 <= 13
  /\ (exists rParenPos,
        find signature ")" = Some rParenPos /\ 13 < rParenPos < size signature)
  /\ 4 <= size signature
  /\ chars (trim (slice signature 1 (Some 13)))
     = trimChars (firstn (13 - 1) (skipn 1 (chars signature))).
Proof.
  apply (parsed_signature_shape
           (ofChars (list_ascii_of_string "2valueChanged(int)"))).
  - apply wellFormed_ofChars.
  - reflexivity.
Defined.

(** ** naive_uncomplete *)

Lemma eqChars_eq a b : eqChars a b = true <-> a = b.
Proof.
  revert b. induction a as [|x a IH]; intros [|y b]; simpl; split; intros H;
    try reflexivity; try discriminate.
  - apply andb_true_iff in H. destruct H as [Hx Hab].
    apply Ascii.eqb_eq in Hx. apply IH in Hab. subst. reflexivity.
  - injection H as -> ->. rewrite Ascii.eqb_refl. apply IH. reflexivity.
Qed.

Lemma follow_app dir steps1 steps2 :
  follow dir (steps1 ++ steps2) = follow (follow dir steps1) steps2.
Proof. unfold follow. apply fold_left_app. Qed.

(** Going up once for every name below [dir] leads to [dir]. *)
Lemma follow_up dir below :
  follow (dir ++ below) (repeat (list_ascii_of_string "..") (List.length below))
  = dir.
Proof.
  induction below as [|x below IH] using rev_ind.
  - simpl. rewrite app_nil_r. reflexivity.
  - rewrite length_app, Nat.add_comm. cbn [List.length Nat.add repeat].
    unfold follow in *. cbn [fold_left]. unfold followComponent at 2.
    cbn [eqChars list_ascii_of_string Ascii.eqb Bool.eqb andb].
    rewrite app_assoc, removelast_last. exact IH.
Qed.

(** Entering names appends them. *)
Lemma follow_names steps :
  forall dir,
    Forall (fun c => isDirectoryName c = true) steps ->
    follow dir steps = (dir ++ steps)%list.
Proof.
  induction steps as [|c steps IH]; intros dir Hall.
  - simpl. rewrite app_nil_r. reflexivity.
  - unfold follow in *. cbn [fold_left]. unfold followComponent at 2.
    pose proof (Forall_inv Hall) as Hc. unfold isDirectoryName in Hc.
    apply andb_true_iff in Hc. destruct Hc as [Hdot Hdots].
    apply negb_true_iff in Hdot, Hdots. rewrite Hdot, Hdots.
    rewrite (IH _ (Forall_inv_tail Hall)), <- app_assoc. reflexivity.
Qed.

Section Uncomplete.
Variable has_root_path : StringRef -> bool.
Variable root_path : StringRef -> StringRef.
Variable relative_path : StringRef -> StringRef.
Variable components : StringRef -> list StringRef.
Variable append : list ascii -> list ascii -> list ascii.

Local Abbreviation uncomplete :=
  (naive_uncomplete has_root_path root_path relative_path components append).

Lemma naive_uncomplete_S fuel base path :
  uncomplete (S fuel) base path
  = if has_root_path path then
      if negb (eqChars (chars (root_path path)) (chars (root_path base)))
      then Some (chars path)
      else uncomplete fuel (relative_path base) (relative_path path)
    else if has_root_path base then Some (chars path)
    else
      let '(path_it, base_it) := skipCommon (components path) (components base) in
      let result :=
        fold_left (fun result _ => append result (list_ascii_of_string "..")) base_it [] in
      Some (fold_left (fun result component => append result (chars component))
              path_it result).
Proof. reflexivity. Qed.

(** The loop over the two iterators passes components that are the same
    in both paths, and stops where one path ends or the two differ. *)
Lemma skipCommon_split :
  forall path_it base_it,
    exists common_path common_base,
      path_it = (common_path ++ fst (skipCommon path_it base_it))%list
      /\ base_it = (common_base ++ snd (skipCommon path_it base_it))%list
      /\ map chars common_path = map chars common_base
      /\ differAtHead (map chars (snd (skipCommon path_it base_it)))
           (map chars (fst (skipCommon path_it base_it))).
Proof.
  induction path_it as [|p path_rest IH]; intros base_it.
  - exists [], []. simpl. repeat split. destruct base_it; exact I.
  - destruct base_it as [|b base_rest].
    + exists [], []. simpl. repeat split.
    + cbn [skipCommon]. destruct (eqChars (chars p) (chars b)) eqn:E; cbn [negb].
      * destruct (IH base_rest) as (cp & cb & Hp & Hb & Hc & Hd).
        exists (p :: cp), (b :: cb). cbn [app map fst snd].
        apply eqChars_eq in E. rewrite E, Hc.
        repeat split; [f_equal; assumption | f_equal; assumption | exact Hd].
      * exists [], []. cbn [app map fst snd differAtHead]. repeat split.
        intros Heq. symmetry in Heq. apply eqChars_eq in Heq. congruence.
Qed.

(** When the base is passed whole, the loop leaves the rest of the
    path. *)
Lemma skipCommon_prefix :
  forall base_it common rest,
    map chars common = map chars base_it ->
    skipCommon (common ++ rest) base_it = (rest, []).
Proof.
  induction base_it as [|b base_rest IH]; intros common rest Hc.
  - destruct common; [|discriminate Hc]. simpl. destruct rest; reflexivity.
  - destruct common as [|p common]; [discriminate Hc|].
    cbn [map] in Hc. injection Hc as Hp Hc.
    cbn [app skipCommon]. apply eqChars_eq in Hp. rewrite Hp. cbn [negb].
    apply IH. exact Hc.
Qed.

Lemma append_steps (base_it path_it : list StringRef) :
  fold_left (fun result component => append result (chars component)) path_it
    (fold_left (fun result _ => append result (list_ascii_of_string "..")) base_it [])
  = fold_left append
      (repeat (list_ascii_of_string "..") (List.length base_it) ++ map chars path_it)%list
      [].
Proof.
  rewrite fold_left_app.
  assert (Hup : forall start,
             fold_left (fun result _ => append result (list_ascii_of_string ".."))
               base_it start
             = fold_left append
                 (repeat (list_ascii_of_string "..") (List.length base_it)) start).
  { induction base_it as [|b base_it IH]; intros start; [reflexivity|].
    simpl. apply IH. }
  rewrite Hup.
  generalize (fold_left append
                (repeat (list_ascii_of_string "..") (List.length base_it)) []) as start.
  induction path_it as [|p path_it IH]; intros start; [reflexivity|].
  simpl. apply IH.
Qed.

Lemma uncomplete_relative fuel base path :
  has_root_path path = false ->
  has_root_path base = false ->
  uncomplete (S fuel) base path
  = Some (fold_left append
            (repeat (list_ascii_of_string "..")
               (List.length (snd (skipCommon (components path) (components base))))
             ++ map chars (fst (skipCommon (components path) (components base))))%list
            []).
Proof.
  intros Hp Hb. cbn [naive_uncomplete]. rewrite Hp, Hb.
  destruct (skipCommon (components path) (components base)) as [path_it base_it].
  cbn [fst snd]. rewrite append_steps. reflexivity.
Qed.

(** The result for two paths without root: the split of the two paths
    at all they share, the components appended, and where they lead. *)
Lemma uncomplete_split :
  forall fuel base path,
    has_root_path path = false ->
    has_root_path base = false ->
    Forall (fun c => isDirectoryName (chars c) = true) (components base) ->
    exists common rest_base rest_path,
      map chars (components base) = (common ++ rest_base)%list
      /\ map chars (components path) = (common ++ rest_path)%list
      /\ differAtHead rest_base rest_path
      /\ uncomplete (S fuel) base path
         = Some (fold_left append
                   (repeat (list_ascii_of_string "..") (List.length rest_base)
                    ++ rest_path)%list [])
      /\ forall start,
           follow (follow start (map chars (components base)))
             (repeat (list_ascii_of_string "..") (List.length rest_base) ++ rest_path)%list
           = follow start (map chars (components path)).
Proof.
  intros fuel base path Hp Hb Hnames.
  destruct (skipCommon_split (components path) (components base))
    as (cp & cb & Hpath & Hbase & Hcommon & Hdiffer).
  pose proof (uncomplete_relative fuel base path Hp Hb) as Hresult.
  set (rest_path := fst (skipCommon (components path) (components base))) in *.
  set (rest_base := snd (skipCommon (components path) (components base))) in *.
  exists (map chars cp), (map chars rest_base), (map chars rest_path).
  assert (Hb' : map chars (components base) = (map chars cp ++ map chars rest_base)%list).
  { rewrite Hbase at 1. rewrite map_app, Hcommon. reflexivity. }
  assert (Hp' : map chars (components path) = (map chars cp ++ map chars rest_path)%list).
  { rewrite Hpath at 1. rewrite map_app. reflexivity. }
  rewrite length_map. repeat split; try assumption.
  intros start.
  assert (Hall : Forall (fun c => isDirectoryName c = true) (map chars (components base))).
  { rewrite Forall_map. exact Hnames. }
  rewrite (follow_names _ start Hall).
  rewrite Hb' in Hall. apply Forall_app in Hall. destruct Hall as [Hcp _].
  rewrite Hp', (follow_app start), (follow_names _ start Hcp).
  rewrite Hb', follow_app, app_assoc.
  rewrite <- (length_map chars rest_base), follow_up. reflexivity.
Qed.

(** For a path without root the calls allowed beyond the first make no
    difference, and one call gives a result. *)
Lemma uncomplete_same_without_root fuel fuel' base path :
  has_root_path path = false ->
  uncomplete (S fuel) base path = uncomplete (S fuel') base path.
Proof. intros Hp. rewrite !naive_uncomplete_S, Hp. reflexivity. Qed.

Lemma uncomplete_fuel_without_root fuel base path :
  has_root_path path = false ->
  exists result, uncomplete (S fuel) base path = Some result.
Proof.
  intros Hp. rewrite naive_uncomplete_S, Hp.
  destruct (has_root_path base); [eexists; reflexivity|].
  destruct (skipCommon (components path) (components base)). eexists. reflexivity.
Qed.

(** X13. For a base and a path without root, where every component
    of the base names a directory (none is [.] or [..]): split the two
    paths at all the leading components they share, so that the
    remainders differ where they start.  The result is built by
    appending one [..] for every remaining component of the base and
    then the remaining components of the path, and from any directory,
    following the base and then these components leads where following
    the path leads. *)
Theorem uncomplete_leads_from_base_to_path :
  forall fuel base path,
    has_root_path path = false ->
    has_root_path base = false ->
    Forall (fun c => isDirectoryName (chars c) = true) (components base) ->
    exists common rest_base rest_path,
      map chars (components base) = (common ++ rest_base)%list
      /\ map chars (components path) = (common ++ rest_path)%list
      /\ differAtHead rest_base rest_path
      /\ naive_uncomplete has_root_path root_path relative_path components append (S fuel) base path
         = Some (fold_left append
                   (repeat (list_ascii_of_string "..") (List.length rest_base)
                    ++ rest_path)%list [])
      /\ forall start,
           follow (follow start (map chars (components base)))
             (repeat (list_ascii_of_string "..") (List.length rest_base) ++ rest_path)%list
           = follow start (map chars (components path)).
Proof. exact uncomplete_split. Qed.

(** X14. For two paths without root where the path starts with all the
    components of the base, the result is built from the remaining
    components of the path alone, without any [..]; for the base itself
    it is the empty string. *)
Theorem uncomplete_below_base :
  forall fuel base path common rest,
    has_root_path path = false ->
    has_root_path base = false ->
    components path = (common ++ rest)%list ->
    map chars common = map chars (components base) ->
    naive_uncomplete has_root_path root_path relative_path components append (S fuel) base path
    = Some (fold_left append (map chars rest) []).
Proof.
  intros fuel base path common rest Hp Hb Hpath Hcommon.
  rewrite (uncomplete_relative fuel base path Hp Hb).
  rewrite Hpath, (skipCommon_prefix _ _ _ Hcommon). reflexivity.
Qed.

(** X15. For a path that has a root, the same as the base, when the
    parts of the two after the root have no root themselves and every
    component of the base after its root names a directory: the
    function calls itself once, and the result is the one for the parts
    after the root: one [..] for every component of the base after what
    the two share, then the components of the path after it; from any
    directory, following the base after its root and then these
    components leads where following the path after its root leads. *)
Theorem uncomplete_same_root :
  forall fuel base path,
    has_root_path path = true ->
    chars (root_path path) = chars (root_path base) ->
    has_root_path (relative_path path) = false ->
    has_root_path (relative_path base) = false ->
    Forall (fun c => isDirectoryName (chars c) = true)
      (components (relative_path base)) ->
    exists common rest_base rest_path,
      map chars (components (relative_path base)) = (common ++ rest_base)%list
      /\ map chars (components (relative_path path)) = (common ++ rest_path)%list
      /\ differAtHead rest_base rest_path
      /\ naive_uncomplete has_root_path root_path relative_path components append (S (S fuel)) base path
         = Some (fold_left append
                   (repeat (list_ascii_of_string "..") (List.length rest_base)
                    ++ rest_path)%list [])
      /\ forall start,
           follow (follow start (map chars (components (relative_path base))))
             (repeat (list_ascii_of_string "..") (List.length rest_base) ++ rest_path)%list
           = follow start (map chars (components (relative_path path))).
Proof.
  intros fuel base path Hroot Hsame Hp Hb Hnames.
  destruct (uncomplete_split fuel (relative_path base) (relative_path path) Hp Hb Hnames)
    as (common & rest_base & rest_path & Hbase & Hpath & Hdiffer & Hresult & Hfollow).
  exists common, rest_base, rest_path.
  repeat split; try assumption.
  rewrite <- Hresult, (naive_uncomplete_S (S fuel) base path), Hroot.
  apply eqChars_eq in Hsame. rewrite Hsame. reflexivity.
Qed.

(** X17. The function returns: provided the part of a path after its
    root is shorter than the path when the path has a root, as many
    calls as the path has characters, and one more, give a result for
    every base and path, and more calls give the same result. *)
Theorem uncomplete_terminates :
  (forall p, has_root_path p = true -> size (relative_path p) < size p) ->
  forall fuel base path,
    exists result,
      naive_uncomplete has_root_path root_path relative_path components append (S (size path)) base path
      = Some result
      /\ naive_uncomplete has_root_path root_path relative_path components append (S (size path) + fuel) base path
         = Some result.
Proof.
  intros Hshorter fuel base path.
  assert (Hall : forall n b p,
             size p <= n ->
             exists result, forall k, n <= k -> uncomplete (S k) b p = Some result).
  { induction n as [|n IH]; intros b p Hsize.
    - destruct (has_root_path p) eqn:Hroot.
      + pose proof (Hshorter p Hroot). lia.
      + destruct (uncomplete_fuel_without_root 0 b p Hroot) as [result Hresult].
        exists result. intros k _.
        rewrite <- Hresult. apply uncomplete_same_without_root. exact Hroot.
    - destruct (has_root_path p) eqn:Hroot.
      + destruct (eqChars (chars (root_path p)) (chars (root_path b))) eqn:E.
        * pose proof (Hshorter p Hroot) as Hlt.
          destruct (IH (relative_path b) (relative_path p)) as [result Hresult]; [lia|].
          exists result. intros k Hk. destruct k as [|k]; [lia|].
          rewrite naive_uncomplete_S, Hroot, E. cbn [negb]. apply Hresult. lia.
        * exists (chars p). intros k _.
          rewrite naive_uncomplete_S, Hroot, E. reflexivity.
      + destruct (uncomplete_fuel_without_root 0 b p Hroot) as [result Hresult].
        exists result. intros k _.
        rewrite <- Hresult. apply uncomplete_same_without_root. exact Hroot. }
  destruct (Hall (size path) base path (le_n _)) as [result Hresult].
  exists result. split.
  - apply Hresult. lia.
  - change (S (size path) + fuel) with (S (size path + fuel)). apply Hresult. lia.
Qed.

End Uncomplete.

Lemma sample_relative_shorter p :
  sample_has_root_path p = true -> size (sample_relative_path p) < size p.
Proof.
  unfold sample_has_root_path, sample_relative_path. intros Hroot.
  apply negb_true_iff in Hroot.
  assert (Hp : empty p = false).
  { destruct (empty p) eqn:E; [|reflexivity].
    unfold sample_root_path in Hroot. rewrite E in Hroot. discriminate Hroot. }
  unfold empty in Hroot, Hp. apply Nat.eqb_neq in Hroot, Hp.
  unfold size, substr. cbn [Length]. unfold size in Hroot. lia.
Qed.

Lemma uncomplete_leads_from_base_to_path_witness :
  exists common rest_base rest_path,
    map chars (sample_components (ofString "src/generator/x")) = (common ++ rest_base)%list
    /\ map chars (sample_components (ofString "src/data/a.h")) = (common ++ rest_path)%list
    /\ differAtHead rest_base rest_path
    /\ naive_uncomplete sample_has_root_path sample_root_path sample_relative_path
         sample_components sample_append 1 (ofString "src/generator/x")
         (ofString "src/data/a.h")
       = Some (fold_left sample_append
                 (repeat (list_ascii_of_string "..") (List.length rest_base)
                  ++ rest_path)%list [])
    /\ forall start,
         follow (follow start (map chars (sample_components (ofString "src/generator/x"))))
           (repeat (list_ascii_of_string "..") (List.length rest_base) ++ rest_path)%list
         = follow start (map chars (sample_components (ofString "src/data/a.h"))).
Proof.
  apply (uncomplete_leads_from_base_to_path sample_has_root_path sample_root_path
           sample_relative_path sample_components sample_append 0).
  - reflexivity.
  - reflexivity.
  - vm_compute. repeat constructor.
Defined.

Lemma uncomplete_below_base_witness :
  naive_uncomplete sample_has_root_path sample_root_path sample_relative_path
    sample_components sample_append 1 (ofString "a/b") (ofString "a/b/c/d")
  = Some (list_ascii_of_string "c/d").
Proof.
  apply (uncomplete_below_base sample_has_root_path sample_root_path
           sample_relative_path sample_components sample_append 0
           (ofString "a/b") (ofString "a/b/c/d")
           (firstn 2 (sample_components (ofString "a/b/c/d")))
           (skipn 2 (sample_components (ofString "a/b/c/d")))).
  - reflexivity.
  - reflexivity.
  - reflexivity.
  - reflexivity.
Defined.

Lemma uncomplete_same_root_witness :
  exists common rest_base rest_path,
    map chars (sample_components (sample_relative_path (ofString "/foo/bar")))
    = (common ++ rest_base)%list
    /\ map chars (sample_components (sample_relative_path (ofString "/foo/new")))
       = (common ++ rest_path)%list
    /\ differAtHead rest_base rest_path
    /\ naive_uncomplete sample_has_root_path sample_root_path sample_relative_path
         sample_components sample_append 2 (ofString "/foo/bar") (ofString "/foo/new")
       = Some (fold_left sample_append
                 (repeat (list_ascii_of_string "..") (List.length rest_base)
                  ++ rest_path)%list [])
    /\ forall start,
         follow (follow start
                   (map chars (sample_components (sample_relative_path (ofString "/foo/bar")))))
           (repeat (list_ascii_of_string "..") (List.length rest_base) ++ rest_path)%list
         = follow start
             (map chars (sample_components (sample_relative_path (ofString "/foo/new")))).
Proof.
  apply (uncomplete_same_root sample_has_root_path sample_root_path sample_relative_path
           sample_components sample_append 0).
  - reflexivity.
  - reflexivity.
  - reflexivity.
  - reflexivity.
  - vm_compute. repeat constructor.
Defined.

Lemma uncomplete_terminates_witness :
  exists result,
    naive_uncomplete sample_has_root_path sample_root_path sample_relative_path
      sample_components sample_append (S (size (ofString "///a/y")))
      (ofString "///a/x") (ofString "///a/y")
    = Some result
    /\ naive_uncomplete sample_has_root_path sample_root_path sample_relative_path
         sample_components sample_append (S (size (ofString "///a/y")) + 4)
         (ofString "///a/x") (ofString "///a/y")
       = Some result.
Proof.
  apply (uncomplete_terminates sample_has_root_path sample_root_path
           sample_relative_path sample_components sample_append
           sample_relative_shorter 4).
Defined.

(** The example of the comment in the source, a path that is the base,
    and a path without root against a base with one. *)
Lemma uncomplete_examples :
  sample_uncomplete "/foo/bar" "/foo/new" = Some "../new"%string
  /\ sample_uncomplete "src/generator/x" "src/data/a.h" = Some "../../data/a.h"%string
  /\ sample_uncomplete "src/a" "src/a" = Some ""%string
  /\ sample_uncomplete "/opt" "rel/x" = Some "rel/x"%string
  /\ sample_uncomplete "build" "/usr/include/x.h" = Some "/usr/include/x.h"%string.
Proof. repeat split; reflexivity. Qed.

(** The part of a path after its root can have a root again: for
    [///a/y] it is [//a/y], with the root [//a/], and the function calls
    itself twice. *)
Lemma uncomplete_calls_itself_twice :
  chars (sample_relative_path (ofString "///a/y")) = list_ascii_of_string "//a/y"
  /\ sample_has_root_path (sample_relative_path (ofString "///a/y")) = true
  /\ naive_uncomplete sample_has_root_path sample_root_path sample_relative_path
       sample_components sample_append 2 (ofString "///a/x") (ofString "///a/y")
     = None
  /\ naive_uncomplete sample_has_root_path sample_root_path sample_relative_path
       sample_components sample_append 3 (ofString "///a/x") (ofString "///a/y")
     = Some (list_ascii_of_string "../y").
Proof. repeat split; reflexivity. Qed.

(** A component [.] of the base, as the iterator gives for a base that
    ends with a separator, is counted as a directory to leave: the
    result for the base [a/b/] and the path [a/c] is [../../c], which
    from [a/b] does not lead to [a/c]. *)
Lemma uncomplete_counts_dot_in_base :
  map chars (sample_components (ofString "a/b/"))
  = [list_ascii_of_string "a"; list_ascii_of_string "b"; list_ascii_of_string "."]
  /\ sample_uncomplete "a/b/" "a/c" = Some "../../c"%string
  /\ follow (follow [] (map chars (sample_components (ofString "a/b/"))))
       [list_ascii_of_string ".."; list_ascii_of_string ".."; list_ascii_of_string "c"]
     = [list_ascii_of_string "c"]
  /\ follow [] (map chars (sample_components (ofString "a/c")))
     = [list_ascii_of_string "a"; list_ascii_of_string "c"].
Proof. repeat split; reflexivity. Qed.
